(** * digi-downloader: sanitiser, reference resolver and document assembler

    A shallow embedding of the text-processing core of [download.ts]
    (and of [svg2pdf.ts]) together with the properties its specification
    states about it.

    A JavaScript string is a sequence of UTF-16 code units; regular
    expressions are run by a backtracking matcher that follows the
    ECMAScript matching rules (priority of alternatives, greedy and lazy
    quantifiers, rejection of empty iterations). *)

From Stdlib Require Import Ascii String.
From Stdlib Require Import List NArith ZArith Bool Lia.
From Stdlib Require Import Permutation Sorted SpecFloat.
Import ListNotations.



(* ================================================================== *)
(** * JavaScript strings *)
(* ================================================================== *)

Module JS.

(** A UTF-16 code unit. *)
Definition char := N.
Definition jsstring := list char.

(** An ASCII literal as a JavaScript string. *)
Definition str (s : string) : jsstring :=
  map N_of_ascii (list_ascii_of_string s).
Arguments str _%_string.

(** The double quote, which the literals of this file never contain. *)
Definition dq : char := 34%N.
Definition sq : char := 39%N.

(** [quoted s] is [s] between double quotes. *)
Definition quoted (s : jsstring) : jsstring := dq :: s ++ [dq].

Definition eqs (a b : jsstring) : bool :=
  if list_eq_dec N.eq_dec a b then true else false.

(** WhiteSpace and LineTerminator code points: the set behind [\s],
    [String.prototype.trim] and StringToNumber. *)
Definition isSpace (c : char) : bool :=
  ((9 <=? c) && (c <=? 13) || (c =? 32) || (c =? 160) || (c =? 5760)
   || (8192 <=? c) && (c <=? 8202) || (c =? 8232) || (c =? 8233)
   || (c =? 8239) || (c =? 8287) || (c =? 12288) || (c =? 65279))%N.

Definition isDigit (c : char) : bool := ((48 <=? c) && (c <=? 57))%N.
Definition isUpper (c : char) : bool := ((65 <=? c) && (c <=? 90))%N.
Definition isLower (c : char) : bool := ((97 <=? c) && (c <=? 122))%N.

(** [\w] *)
Definition isWord (c : char) : bool :=
  isDigit c || isUpper c || isLower c || (c =? 95)%N.

(** Canonicalize of a non-Unicode, ignore-case pattern.  Upper-casing
    never takes a code unit above 127 to one below 128, and every
    pattern character of this program is ASCII, so only the ASCII part of
    the mapping can be observed. *)
Definition canonicalize (c : char) : char :=
  if isLower c then (c - 32)%N else c.

(** [String.prototype.toLowerCase], code unit by code unit.  Outside
    ASCII only U+0130 and U+212A have a lower case with an ASCII letter
    in it; the remaining non-ASCII code units lower-case to non-ASCII
    ones and are kept as they are. *)
Definition lowerUnit (c : char) : jsstring :=
  if isUpper c then [(c + 32)%N]
  else if (c =? 304)%N then [105%N; 775%N]
  else if (c =? 8490)%N then [107%N]
  else [c].

Definition toLowerCase (s : jsstring) : jsstring := flat_map lowerUnit s.

Fixpoint startsWith (p s : jsstring) : bool :=
  match p, s with
  | [], _ => true
  | a :: p', b :: s' => (a =? b)%N && startsWith p' s'
  | _ :: _, [] => false
  end.

Definition endsWith (p s : jsstring) : bool := startsWith (rev p) (rev s).

(** [Array.prototype.join] on strings. *)
Fixpoint join (sep : jsstring) (l : list jsstring) : jsstring :=
  match l with
  | [] => []
  | [a] => a
  | a :: l' => a ++ sep ++ join sep l'
  end.

(** [s.indexOf(p)] from the start of [s]; [None] stands for -1. *)
Fixpoint indexOf (p s : jsstring) : option nat :=
  if startsWith p s then Some 0
  else match s with
       | [] => None
       | _ :: s' => option_map S (indexOf p s')
       end.

(** [s.indexOf(p, from)] *)
Definition indexOfFrom (p s : jsstring) (from : nat) : option nat :=
  option_map (fun i => from + i) (indexOf p (skipn from s)).

(** [s.slice(a, b)] for [0 <= a] and [0 <= b]. *)
Definition slice (s : jsstring) (a b : nat) : jsstring :=
  firstn (b - a) (skipn a s).

(** [s.split(sep)] with a non-empty string separator: the pieces between
    the successive leftmost occurrences of [sep]. *)
Fixpoint splitOn (sep : jsstring) (fuel : nat) (piece s : jsstring)
  : list jsstring :=
  match fuel with
  | O => [rev piece ++ s]
  | S fuel' =>
      match s with
      | [] => [rev piece]
      | c :: s' =>
          if startsWith sep s
          then rev piece :: splitOn sep fuel' [] (skipn (length sep) s)
          else splitOn sep fuel' (c :: piece) s'
      end
  end.

Definition split (sep s : jsstring) : list jsstring :=
  splitOn sep (S (length s)) [] s.

(** [s.split(sep).join(by)] *)
Definition splitJoin (sep by_ s : jsstring) : jsstring :=
  join by_ (split sep s).

Fixpoint dropWhile (p : char -> bool) (s : jsstring) : jsstring :=
  match s with
  | c :: s' => if p c then dropWhile p s' else s
  | [] => []
  end.

(** [String.prototype.trim] *)
Definition trim (s : jsstring) : jsstring :=
  rev (dropWhile isSpace (rev (dropWhile isSpace s))).

End JS.
Import JS.

(* ================================================================== *)
(** * Regular expressions *)
(* ================================================================== *)

Module RegExp.

Inductive regex : Type :=
| Empty                               (** the empty pattern *)
| Class (p : char -> bool)            (** one code unit out of a set *)
| Seq (r1 r2 : regex)
| Alt (r1 r2 : regex)                 (** [r1|r2], [r1] first *)
| Star (greedy : bool) (r : regex)    (** [r*] and [r*?] *)
| Group (r : regex)                   (** a capturing group *)
| WordBoundary.                       (** [\b] *)

Definition Plus (g : bool) (r : regex) : regex := Seq r (Star g r).
Definition Opt (r : regex) : regex := Alt r Empty.

Definition one (c : char) : regex := Class (N.eqb c).
Definition oneCI (c : char) : regex :=
  Class (fun d => (canonicalize d =? canonicalize c)%N).
Definition anyChar : regex := Class (fun _ => true).     (** [[\s\S]] *)
Definition noneOf (l : list char) : regex :=
  Class (fun d => negb (existsb (N.eqb d) l)).
Definition oneOf (l : list char) : regex :=
  Class (fun d => existsb (N.eqb d) l).

Fixpoint seqs (l : list regex) : regex :=
  match l with
  | [] => Empty
  | [r] => r
  | r :: l' => Seq r (seqs l')
  end.

Fixpoint alts (l : list regex) : regex :=
  match l with
  | [] => Class (fun _ => false)
  | [r] => r
  | r :: l' => Alt r (alts l')
  end.

(** A literal, and a literal under the [i] flag. *)
Definition lit (s : string) : regex := seqs (map one (str s)).
Definition litCI (s : string) : regex := seqs (map oneCI (str s)).
Arguments lit _%_string.
Arguments litCI _%_string.

(** The state of a match in progress: the input still to read, the
    input already passed (latest first) and the captures closed so far,
    in the order of their groups. *)
Record mstate : Type := MState {
  rest : jsstring;
  seen : jsstring;
  caps : list jsstring
}.

Definition orElse {A} (a b : option A) : option A :=
  match a with Some _ => a | None => b end.

(** The text read between two states of one match. *)
Definition consumed (x y : mstate) : jsstring :=
  rev (firstn (length (seen y) - length (seen x)) (seen y)).

Definition isWordAt (o : option char) : bool :=
  match o with Some c => isWord c | None => false end.

(** The iterations of a quantifier: RepeatMatcher with no lower and
    no upper bound.  An iteration that reads nothing is rejected, which
    also bounds the number of iterations by the length of the input
    still to read, [n]. *)
Fixpoint iterate (step : mstate -> (mstate -> option mstate) -> option mstate)
    (g : bool) (k : mstate -> option mstate) (n : nat) (x : mstate)
  : option mstate :=
  match n with
  | O => k x
  | S n' =>
      let again :=
        step x (fun y =>
          if length (rest y) <? length (rest x) then iterate step g k n' y
          else None) in
      if g then orElse again (k x) else orElse (k x) again
  end.

(** The matcher, in continuation-passing style as in the ECMAScript
    specification.  No group of this program sits under a quantifier, so
    captures are never reset. *)
Fixpoint m (r : regex) (x : mstate) (k : mstate -> option mstate)
  : option mstate :=
  match r with
  | Empty => k x
  | Class p =>
      match rest x with
      | c :: s => if p c then k (MState s (c :: seen x) (caps x)) else None
      | [] => None
      end
  | Seq r1 r2 => m r1 x (fun y => m r2 y k)
  | Alt r1 r2 => orElse (m r1 x k) (m r2 x k)
  | Star g r1 => iterate (m r1) g k (length (rest x)) x
  | Group r1 =>
      m r1 x (fun y => k (MState (rest y) (seen y) (caps y ++ [consumed x y])))
  | WordBoundary =>
      if xorb (isWordAt (hd_error (seen x))) (isWordAt (hd_error (rest x)))
      then k x else None
  end.

(** One attempt at the current position. *)
Definition matchAt (r : regex) (sn s : jsstring) : option mstate :=
  m r (MState s sn []) Some.

(** RegExpBuiltinExec without the sticky flag: the first position, from
    the current one on, at which the pattern matches.  The result holds
    the text skipped and the final state of the match. *)
Fixpoint exec (r : regex) (sn s : jsstring) : option (jsstring * mstate) :=
  match matchAt r sn s with
  | Some y => Some ([], y)
  | None =>
      match s with
      | [] => None
      | c :: s' =>
          match exec r (c :: sn) s' with
          | Some (sk, y) => Some (c :: sk, y)
          | None => None
          end
      end
  end.

(** What a replacer function or a caller sees of a match. *)
Record found : Type := Found {
  index : nat;                (** where the match starts *)
  whole : jsstring;           (** the text matched *)
  groups : list jsstring;     (** the captures *)
  after : jsstring            (** the input behind the match *)
}.

Definition firstMatch (r : regex) (s : jsstring) : option found :=
  match exec r [] s with
  | Some (sk, y) =>
      Some (Found (length sk)
                  (firstn (length s - length sk - length (rest y))
                          (skipn (length sk) s))
                  (caps y) (rest y))
  | None => None
  end.

(** [re.test(s)], [s.search(re)] and [s.match(re)] of a pattern without
    the [g] flag. *)
Definition test (r : regex) (s : jsstring) : bool :=
  match firstMatch r s with Some _ => true | None => false end.

Definition search (r : regex) (s : jsstring) : option nat :=
  option_map index (firstMatch r s).

Definition group (n : nat) (f : found) : jsstring := nth n (groups f) [].

(** [s.replace(re, fn)] without the [g] flag: the first match only. *)
Definition replaceFirst (r : regex) (fn : found -> jsstring) (s : jsstring)
  : jsstring :=
  match firstMatch r s with
  | Some f => firstn (index f) s ++ fn f ++ after f
  | None => s
  end.

(** The matches of a pattern with the [g] flag, left to right; after an
    empty match the search resumes one code unit further. *)
Fixpoint scan (fuel : nat) (r : regex) (sn s : jsstring)
  : list (jsstring * found) * jsstring :=
  match fuel with
  | O => ([], s)
  | S fuel' =>
      match exec r sn s with
      | None => ([], s)
      | Some (sk, y) =>
          let w := firstn (length s - length sk - length (rest y))
                          (skipn (length sk) s) in
          let f := Found (length sn + length sk) w (caps y) (rest y) in
          match w, rest y with
          | [], [] => ([(sk, f)], [])
          | [], c :: t =>
              let (ms, tl) := scan fuel' r (c :: seen y) t in
              ((sk, f) :: match ms with
                          | [] => []
                          | (sk', f') :: ms' => (c :: sk', f') :: ms'
                          end,
               match ms with [] => c :: tl | _ => tl end)
          | _ :: _, _ =>
              let (ms, tl) := scan fuel' r (seen y) (rest y) in
              ((sk, f) :: ms, tl)
          end
      end
  end.

(** [s.matchAll(re)] *)
Definition matchAll (r : regex) (s : jsstring) : list found :=
  map snd (fst (scan (S (length s)) r [] s)).

(** [s.replace(re, fn)] with the [g] flag. *)
Definition replaceAll (r : regex) (fn : found -> jsstring) (s : jsstring)
  : jsstring :=
  let (ms, tl) := scan (S (length s)) r [] s in
  flat_map (fun p => fst p ++ fn (snd p)) ms ++ tl.

(** [s.split(re)] for a pattern without groups: the loop of
    [RegExp.prototype[Symbol.split]].  [piece] is the text since the
    end of the last separator, latest first. *)
Fixpoint splitLoop (fuel : nat) (r : regex) (sn piece s : jsstring)
  : list jsstring :=
  match fuel with
  | O => [rev piece ++ s]
  | S fuel' =>
      match s with
      | [] => [rev piece]
      | c :: s' =>
          match matchAt r sn s with
          | None => splitLoop fuel' r (c :: sn) (c :: piece) s'
          | Some y =>
              match piece, length (rest y) =? length s with
              | [], true => splitLoop fuel' r (c :: sn) (c :: piece) s'
              | _, _ => rev piece :: splitLoop fuel' r (seen y) [] (rest y)
              end
          end
      end
  end.

Definition splitRe (r : regex) (s : jsstring) : list jsstring :=
  match s with
  | [] => match matchAt r [] [] with Some _ => [] | None => [[]] end
  | _ => splitLoop (2 * length s + 2) r [] [] s
  end.

(** ** The matches of a pattern, listed

    [reach r x] lists the states in which a match of [r] from [x] can
    end, in the order in which the matcher tries them; the matcher
    answers with the first of them its continuation accepts. *)

Fixpoint iterateL (step : mstate -> list mstate) (g : bool) (n : nat)
    (x : mstate) : list mstate :=
  match n with
  | O => [x]
  | S n' =>
      let again :=
        flat_map (fun y =>
          if length (rest y) <? length (rest x) then iterateL step g n' y
          else []) (step x) in
      if g then again ++ [x] else x :: again
  end.

Fixpoint reach (r : regex) (x : mstate) : list mstate :=
  match r with
  | Empty => [x]
  | Class p =>
      match rest x with
      | c :: s => if p c then [MState s (c :: seen x) (caps x)] else []
      | [] => []
      end
  | Seq r1 r2 => flat_map (reach r2) (reach r1 x)
  | Alt r1 r2 => reach r1 x ++ reach r2 x
  | Star g r1 => iterateL (reach r1) g (length (rest x)) x
  | Group r1 =>
      map (fun y => MState (rest y) (seen y) (caps y ++ [consumed x y]))
          (reach r1 x)
  | WordBoundary =>
      if xorb (isWordAt (hd_error (seen x))) (isWordAt (hd_error (rest x)))
      then [x] else []
  end.

Fixpoint firstSome {A B} (k : A -> option B) (l : list A) : option B :=
  match l with
  | [] => None
  | a :: l' => orElse (k a) (firstSome k l')
  end.

End RegExp.
Import RegExp.

(* ================================================================== *)
(** * Numbers: IEEE 754 binary64 *)
(* ================================================================== *)

Module Num.

Definition prec : Z := 53.
Definition emax : Z := 1024.

Definition float := spec_float.

Definition fzero : float := S754_zero false.
Definition fdiv : float -> float -> float := SFdiv prec emax.
Definition fmul : float -> float -> float := SFmul prec emax.
Definition feqb : float -> float -> bool := SFeqb.

(** The double nearest to a natural number. *)
Definition ofNat (n : N) : float :=
  match n with
  | N0 => fzero
  | Npos p => binary_round prec emax false p 0
  end.

(** The double nearest to [mant * 10 ^ exp10], ties to even. *)
Definition ofDecimal (mant : N) (exp10 : Z) : float :=
  match mant with
  | N0 => fzero
  | Npos p =>
      match exp10 with
      | Zneg e =>
          let '(q, e', l) :=
            SFdiv_core_binary prec emax (Zpos p) 0 (Zpos (Pos.pow 10 e)) 0 in
          binary_round_aux prec emax false q e' l
      | Z0 => binary_round prec emax false p 0
      | Zpos e => binary_round prec emax false (p * Pos.pow 10 e) 0
      end
  end.

Fixpoint takeWhile (p : char -> bool) (s : jsstring) : jsstring :=
  match s with
  | c :: s' => if p c then c :: takeWhile p s' else []
  | [] => []
  end.

Definition digitVal (c : char) : N :=
  if isDigit c then (c - 48)%N
  else if isLower c then (c - 87)%N
  else (c - 55)%N.

Definition digitsVal (base : N) (ds : jsstring) : N :=
  fold_left (fun a c => (a * base + digitVal c)%N) ds 0%N.

Definition isHexDigit (c : char) : bool :=
  isDigit c || ((65 <=? c) && (c <=? 70))%N || ((97 <=? c) && (c <=? 102))%N.
Definition isOctDigit (c : char) : bool := ((48 <=? c) && (c <=? 55))%N.
Definition isBinDigit (c : char) : bool := ((48 <=? c) && (c <=? 49))%N.

(** ExponentPart: [e] or [E], an optional sign and at least one digit,
    up to the end of the literal. *)
Definition exponentPart (s : jsstring) : option Z :=
  match s with
  | [] => Some 0%Z
  | c :: s1 =>
      if ((c =? 101) || (c =? 69))%N then
        let '(neg, ds) :=
          match s1 with
          | 45%N :: t => (true, t)
          | 43%N :: t => (false, t)
          | _ => (false, s1)
          end in
        match ds with
        | [] => None
        | _ => if forallb isDigit ds
               then Some (let v := Z.of_N (digitsVal 10 ds) in
                          if neg then (- v)%Z else v)
               else None
        end
      else None
  end.

(** StrUnsignedDecimalLiteral, the whole of [s]. *)
Definition unsignedDecimal (s : jsstring) : float :=
  if eqs s (str "Infinity") then S754_infinity false
  else
    let ip := takeWhile isDigit s in
    let r1 := dropWhile isDigit s in
    let '(fp, r2) :=
      match r1 with
      | 46%N :: t => (takeWhile isDigit t, dropWhile isDigit t)
      | _ => ([], r1)
      end in
    match ip ++ fp with
    | [] => S754_nan
    | ds =>
        match exponentPart r2 with
        | Some e => ofDecimal (digitsVal 10 ds) (e - Z.of_nat (length fp))
        | None => S754_nan
        end
    end.

(** NonDecimalIntegerLiteral: [0x], [0o] and [0b] forms, unsigned. *)
Definition nonDecimal (s : jsstring) : option float :=
  match s with
  | 48%N :: c :: ds =>
      let radix (base : N) (ok : char -> bool) :=
        match ds with
        | [] => Some S754_nan
        | _ => Some (if forallb ok ds then ofNat (digitsVal base ds)
                     else S754_nan)
        end in
      if ((c =? 120) || (c =? 88))%N then radix 16%N isHexDigit
      else if ((c =? 111) || (c =? 79))%N then radix 8%N isOctDigit
      else if ((c =? 98) || (c =? 66))%N then radix 2%N isBinDigit
      else None
  | _ => None
  end.

(** [Number(s)] of a string: StringToNumber.  Rounding is exact (the
    standard lets an engine deviate only past the twentieth significant
    digit). *)
Definition Number (s : jsstring) : float :=
  match trim s with
  | [] => fzero
  | t =>
      match nonDecimal t with
      | Some v => v
      | None =>
          match t with
          | 45%N :: u => SFopp (unsignedDecimal u)
          | 43%N :: u => unsignedDecimal u
          | _ => unsignedDecimal t
          end
      end
  end.

(** [parseFloat(s)] for the strings [getSvgSize] hands over, which its
    pattern restricts to digits and dots: the longest prefix that is a
    decimal literal. *)
Definition parseFloat (s : jsstring) : float :=
  let ip := takeWhile isDigit s in
  let fp :=
    match dropWhile isDigit s with
    | 46%N :: t => takeWhile isDigit t
    | _ => []
    end in
  match ip ++ fp with
  | [] => S754_nan
  | ds => ofDecimal (digitsVal 10 ds) (- Z.of_nat (length fp))
  end.

End Num.
Import Num.

(* ================================================================== *)
(** * download.ts: the markup sanitiser *)
(* ================================================================== *)

Definition ch (a : ascii) : char := N_of_ascii a.
Arguments ch _%_char.

Definition spaces : regex := Star true (Class isSpace).       (** [\s*] *)

(** [/stroke-dasharray=\x22([^\x22]* )\x22/gi].  In the comments of this
    file [\x22] stands for the double quote of the source, and a blank
    separates a star from the parenthesis that closes a group. *)
Definition reDashAttr : regex :=
  seqs [litCI "stroke-dasharray="; one dq;
        Group (Star true (noneOf [dq])); one dq].

(** [/stroke-dasharray\s*:\s*([^;\x22']+)/gi] *)
Definition reDashStyle : regex :=
  seqs [litCI "stroke-dasharray"; spaces; one (ch ":"); spaces;
        Group (Plus true (noneOf [ch ";"; dq; sq]))].

(** [/[, ]+/] *)
Definition reSep : regex := Plus true (oneOf [ch ","; ch " "]).

Definition epsilon : jsstring := str "0.001".

(** [(x) => (Number(x) === 0 ? '0.001' : x)] *)
Definition fixEntry (x : jsstring) : jsstring :=
  if feqb (Number x) fzero then epsilon else x.

Definition fixList (list : jsstring) : jsstring :=
  join (str " ") (map fixEntry (splitRe reSep list)).

(** convert every 0-length dash to 0.001 (PDFKit refuses zeros) *)
Definition fixDashArrays (svg : jsstring) : jsstring :=
  let svg :=
    replaceAll reDashAttr
      (fun f => str "stroke-dasharray=" ++ quoted (fixList (group 0 f))) svg in
  let svg :=
    replaceAll reDashStyle
      (fun f => str "stroke-dasharray:" ++ fixList (group 0 f)) svg in
  svg.

(** [/<svg[\s\S]*?>/i] *)
Definition reSvgOpen : regex :=
  seqs [litCI "<svg"; Star false anyChar; one (ch ">")].

(** Attempt to pull a clean <svg>...</svg> snippet out of arbitrary
    text responses. *)
Definition extractSvgMarkup (text : jsstring) : option jsstring :=
  match search reSvgOpen text with
  | None => None
  | Some start =>
      match indexOfFrom (str "</svg>") text start with
      | None => None
      | Some end_ => Some (slice text start (end_ + 6))
      end
  end.

(** [/<!--[\s\S]*?-->/g] *)
Definition reComment : regex :=
  seqs [lit "<!--"; Star false anyChar; lit "-->"].

(** [/<!DOCTYPE[^>]*?>/gi] *)
Definition reDoctype : regex :=
  seqs [litCI "<!DOCTYPE"; Star false (noneOf [ch ">"]); one (ch ">")].

Definition UNWANTED_TAGS : list string :=
  ["script"; "link"; "noscript"; "meta"; "base"; "head"; "html"; "body";
   "foreignObject"]%string.

Definition unwantedName : regex := alts (map litCI UNWANTED_TAGS).

(** [<(?:names)[^>]*?>[\s\S]*?<\/(?:names)>], flags [gi] *)
Definition unwantedBlock : regex :=
  seqs [one (ch "<"); unwantedName; Star false (noneOf [ch ">"]);
        one (ch ">"); Star false anyChar; lit "</"; unwantedName;
        one (ch ">")].

(** [<(?:names)[^>]*?\/?>], flags [gi] *)
Definition unwantedSingle : regex :=
  seqs [one (ch "<"); unwantedName; Star false (noneOf [ch ">"]);
        Opt (one (ch "/")); one (ch ">")].

Definition svgNamespace : jsstring := str "http://www.w3.org/2000/svg".

(** [/\sxmlns\s*=\s*\x22http:\/\/www\.w3\.org\/2000\/svg\x22/i] *)
Definition reXmlns : regex :=
  seqs [Class isSpace; litCI "xmlns"; spaces; one (ch "="); spaces;
        one dq; litCI "http://www.w3.org/2000/svg"; one dq].

(** [/<svg(\s|>)/i] *)
Definition reSvgTag : regex :=
  seqs [litCI "<svg"; Group (Alt (Class isSpace) (one (ch ">")))].

Definition stripComments : jsstring -> jsstring :=
  replaceAll reComment (fun _ => []).
Definition stripDoctype : jsstring -> jsstring :=
  replaceAll reDoctype (fun _ => []).
Definition stripUnwanted (svg : jsstring) : jsstring :=
  replaceAll unwantedSingle (fun _ => [])
    (replaceAll unwantedBlock (fun _ => []) svg).

(** Ensure the root <svg> carries the standard namespace so rendering
    works reliably. *)
Definition ensureNamespace (svg : jsstring) : jsstring :=
  if negb (test reXmlns svg)
  then replaceFirst reSvgTag
         (fun f => str "<svg xmlns=" ++ quoted svgNamespace ++ group 0 f) svg
  else svg.

(** Remove HTML tags that sometimes leak into SVG responses and break
    the XML content. *)
Definition sanitizeSvg (svg : jsstring) : jsstring :=
  let svg := stripComments svg in
  let svg := stripDoctype svg in
  let svg := stripUnwanted svg in
  ensureNamespace svg.


(* ================================================================== *)
(** * download.ts: the reference resolver *)
(* ================================================================== *)

(** [/(?:xlink:href|href)=[\x22']([^\x22']+)[\x22']/g] *)
Definition urlAttr : regex :=
  seqs [Alt (lit "xlink:href") (lit "href"); one (ch "="); oneOf [dq; sq];
        Group (Plus true (noneOf [dq; sq])); oneOf [dq; sq]].

(** [/url\((?:'|\x22|)([^\x22')]+)(?:'|\x22|)\)/g] *)
Definition cssUrl : regex :=
  seqs [lit "url("; alts [one sq; one dq; Empty];
        Group (Plus true (noneOf [dq; sq; ch ")"]));
        alts [one sq; one dq; Empty]; one (ch ")")].

(** [/<img[^>]+src=[\x22']([^\x22']+)[\x22']/i] *)
Definition reImg : regex :=
  seqs [litCI "<img"; Plus true (noneOf [ch ">"]); litCI "src=";
        oneOf [dq; sq]; Group (Plus true (noneOf [dq; sq])); oneOf [dq; sq]].

(** [Set.prototype.add]: a set keeps its elements in insertion order. *)
Definition setAdd (refs : list jsstring) (r : jsstring) : list jsstring :=
  if existsb (eqs r) refs then refs else refs ++ [r].

(** The references of a page: first those of the attribute syntax, then
    those of the style syntax. *)
Definition references (svgText : jsstring) : list jsstring :=
  let refs := fold_left setAdd (map (group 0) (matchAll urlAttr svgText)) [] in
  fold_left setAdd (map (group 0) (matchAll cssUrl svgText)) refs.

Definition isExternal (r : jsstring) : bool :=
  negb (startsWith (str "data:") r) && negb (startsWith (str "#") r).

Definition externals (svgText : jsstring) : list jsstring :=
  filter isExternal (references svgText).

(** [Buffer.prototype.toString('base64')] *)
Definition b64alphabet : jsstring :=
  str "ABCDEFGHIJKLMNOPQRSTUVWXYZabcdefghijklmnopqrstuvwxyz0123456789+/".

Definition b64 (n : N) : char := nth (N.to_nat n) b64alphabet 0%N.

Fixpoint base64 (bytes : list N) : jsstring :=
  match bytes with
  | a :: b :: c :: t =>
      b64 (a / 4) :: b64 ((a mod 4) * 16 + b / 16)
      :: b64 ((b mod 16) * 4 + c / 64) :: b64 (c mod 64) :: base64 t
  | [a; b] =>
      [b64 (a / 4); b64 ((a mod 4) * 16 + b / 16); b64 ((b mod 16) * 4);
       ch "="]
  | [a] => [b64 (a / 4); b64 ((a mod 4) * 16); ch "="; ch "="]
  | [] => []
  end%N.

Definition dataUri (mime : jsstring) (buf : list N) : jsstring :=
  str "data:" ++ mime ++ str ";base64," ++ base64 buf.

Definition transparentPngBase64 : jsstring :=
  str "iVBORw0KGgoAAAANSUhEUgAAAAEAAAABCAQAAAC1HAwCAAAAC0lEQVR4nGNgYAAAAAMAASsJTYQAAAAASUVORK5CYII=".

(** Minimal PNG (1x1 transparent) *)
Definition placeholder : jsstring :=
  str "data:" ++ str "image/png" ++ str ";base64," ++ transparentPngBase64.

Definition MIME_BY_EXT : list (jsstring * jsstring) :=
  [(str ".jpg", str "image/jpeg"); (str ".jpeg", str "image/jpeg");
   (str ".png", str "image/png"); (str ".svg", str "image/svg+xml")].

Fixpoint lookup (k : jsstring) (t : list (jsstring * jsstring))
  : option jsstring :=
  match t with
  | (k', v) :: t' => if eqs k k' then Some v else lookup k t'
  | [] => None
  end.

Record request : Type := Request {
  url : jsstring;
  cookie : jsstring;
  accept : jsstring;
  referer : jsstring
}.

Record response : Type := Response {
  ok : bool;
  status : N;
  contentType : option jsstring;      (** [headers.get('content-type')] *)
  body : list N                       (** the bytes of the body *)
}.

(** A call of [fetch] settles with a response or rejects. *)
Inductive fetched : Type :=
| NetworkError
| Settled (res : response).

(** What the callback of one reference does to the page. *)
Inductive outcome : Type :=
| Rejected                      (** the callback throws *)
| Kept                          (** the markup is left as it is *)
| Substituted (uri : jsstring). (** every occurrence becomes [uri] *)

(** [BrowserContext]: the part of it the resolver reads. *)
Record cookieT : Type := Cookie { name : jsstring; value : jsstring }.

Definition cookieHeader (ctx : list cookieT) : jsstring :=
  join (str "; ") (map (fun c => name c ++ str "=" ++ value c) ctx).

(** [res.headers.get('content-type')?.split(';')[0] ?? ''] *)
Definition mimeOf (res : response) : jsstring :=
  match contentType res with
  | Some s => hd [] (split (str ";") s)
  | None => []
  end.

Section Resolver.

(** [new URL(ref, base).href]; [None] when the constructor throws. *)
Variable URL_href : jsstring -> jsstring -> option jsstring.
(** [path.extname] *)
Variable extname : jsstring -> jsstring.
(** [buf.toString('utf8')] *)
Variable utf8 : list N -> jsstring.
(** The network. *)
Variable fetch : request -> fetched.

Definition guessMime (u : jsstring) : jsstring :=
  match lookup (toLowerCase (extname u)) MIME_BY_EXT with
  | Some mime => mime
  | None => str "application/octet-stream"
  end.

(** The request for a reference, and the one for the image of an
    HTML wrapper. *)
Definition assetRequest (ctx : list cookieT) (svgUrl abs : jsstring)
  : request :=
  Request abs (cookieHeader ctx)
    (guessMime abs ++
     str ",image/avif,image/webp,image/png,image/jpeg,image/*;q=0.8,*/*;q=0.5")
    svgUrl.

Definition imgRequest (ctx : list cookieT) (abs imgAbs : jsstring)
  : request :=
  Request imgAbs (cookieHeader ctx)
    (guessMime imgAbs ++ str ",image/*;q=0.9,*/*;q=0.5") abs.

(** The part of the callback behind the test of the content type:
    attempt to salvage the real image from an HTML wrapper before
    giving up. *)
Definition salvage (ctx : list cookieT) (abs : jsstring) (res : response)
  : outcome :=
  match firstMatch reImg (utf8 (body res)) with
  | Some imgMatch =>
      match URL_href (group 0 imgMatch) abs with
      | None => Rejected
      | Some imgAbs =>
          match fetch (imgRequest ctx abs imgAbs) with
          | Settled imgRes =>
              if ok imgRes
              then if startsWith (str "image/") (mimeOf imgRes)
                   then Substituted (dataUri (mimeOf imgRes) (body imgRes))
                   else Substituted placeholder
              else Substituted placeholder
          | NetworkError => Substituted placeholder
          end
      end
  | None => Substituted placeholder
  end.

(** The callback [externals.map] runs for one reference.  The lines
    it writes to the console are left out, and so are a body that
    cannot be read ([arrayBuffer]) and a cookie store that cannot be
    queried ([ctx.cookies]): a response carries its bytes and the
    context its cookies. *)
Definition inlineOne (ctx : list cookieT) (svgUrl ref : jsstring)
  : outcome :=
  match URL_href ref svgUrl with
  | None => Rejected
  | Some abs =>
      match fetch (assetRequest ctx svgUrl abs) with
      | NetworkError => Rejected
      | Settled res =>
          if negb (ok res) then Kept
          else if negb (startsWith (str "image/") (mimeOf res))
               then salvage ctx abs res
               else Substituted (dataUri (mimeOf res) (body res))
      end
  end.

(** [svgText = svgText.split(ref).join(uri)] *)
Definition applyOutcome (ref : jsstring) (o : outcome) (svgText : jsstring)
  : jsstring :=
  match o with
  | Substituted uri => splitJoin ref uri svgText
  | _ => svgText
  end.

Definition isRejected (o : outcome) : bool :=
  match o with Rejected => true | _ => false end.

(** [inlineAssets]: the callbacks run concurrently and each one
    rewrites the shared [svgText] in one step when its fetches have
    settled, so a run is determined by the order in which they finish,
    [order], a permutation of the external references.  What a callback
    fetches does not depend on the text.  [None]: [Promise.all]
    rejects and [inlineAssets] throws. *)
Definition inlineAssetsIn (order : list jsstring) (ctx : list cookieT)
    (svgText svgUrl : jsstring) : option jsstring :=
  if existsb (fun r => isRejected (inlineOne ctx svgUrl r))
             (externals svgText)
  then None
  else Some (fold_left
               (fun text r => applyOutcome r (inlineOne ctx svgUrl r) text)
               order svgText).


End Resolver.

(* ================================================================== *)
(** * download.ts: page sizes *)
(* ================================================================== *)

Definition isDigitOrDot (c : char) : bool := isDigit c || (c =? ch ".")%N.

(** [/\bwidth=\x22([\d.]+)(\w* )\x22/i] and the same for the height *)
Definition reSize (attr : string) : regex :=
  seqs [WordBoundary; litCI attr; one (ch "="); one dq;
        Group (Plus true (Class isDigitOrDot)); Group (Star true (Class isWord));
        one dq].

Definition toPt (val : float) (unit : jsstring) : float :=
  if eqs unit [] || eqs unit (str "px")
  then fmul (fdiv val (ofNat 96)) (ofNat 72)
  else if eqs unit (str "pt") then val
  else if eqs unit (str "mm")
  then fmul (fdiv val (ofDecimal 254 (-1))) (ofNat 72)
  else if eqs unit (str "cm")
  then fmul (fdiv val (ofDecimal 254 (-2))) (ofNat 72)
  else if eqs unit (str "in") then fmul val (ofNat 72)
  else val.

Definition getSvgSize (svg : jsstring) : option (float * float) :=
  match firstMatch (reSize "width") svg, firstMatch (reSize "height") svg with
  | Some w, Some h =>
      Some (toPt (parseFloat (group 0 w)) (group 1 w),
            toPt (parseFloat (group 0 h)) (group 1 h))
  | _, _ => None
  end.

Definition a4 : float * float := (ofDecimal 59528 (-2), ofDecimal 84189 (-2)).

(* ================================================================== *)
(** * The document assembler *)
(* ================================================================== *)

(** What an assembly does to the world around it, in order. *)
Inductive event : Type :=
| ConsoleLog (line : jsstring)
| ReadDir (dir : jsstring)
| ReadFile (file : jsstring)
| NewDocument                              (** [new PDFDocument], [PDFDocument.create] *)
| CreateWriteStream (file : jsstring)
| Pipe (file : jsstring)
| AddPage (width height : float)
| SvgToPdf (svg : jsstring) (width height : float)
| DrawImage (png : list N) (width height : float)
| DocEnd
| AwaitFinish (file : jsstring)
| WriteFile (file : jsstring).

Inductive error : Type :=
| Error (message : jsstring)               (** [throw new Error(message)] *)
| SystemError (what : jsstring).           (** a rejection of the runtime *)

(** A computation that logs events and may throw. *)
Definition M (A : Type) : Type := (list event * (error + A))%type.

Definition ret {A} (a : A) : M A := ([], inr a).
Definition throw {A} (e : error) : M A := ([], inl e).
Definition emit (e : event) : M unit := ([e], inr tt).

Definition bind {A B} (c : M A) (f : A -> M B) : M B :=
  match c with
  | (t, inl e) => (t, inl e)
  | (t, inr a) => let (t', r) := f a in (t ++ t', r)
  end.

Notation "x <- c ;; k" := (bind c (fun x => k))
  (at level 61, c at next level, right associativity).
Notation "c ;;; k" := (bind c (fun _ => k))
  (at level 61, right associativity).

Fixpoint forEach {A} (l : list A) (f : A -> M unit) : M unit :=
  match l with
  | [] => ret tt
  | a :: l' => f a ;;; forEach l' f
  end.

Definition trace {A} (c : M A) : list event := fst c.
Definition result {A} (c : M A) : error + A := snd c.

(** [Array.prototype.sort] is stable, so with a consistent comparator
    its result is the one of a stable insertion sort. *)
Fixpoint insertBy (cmp : jsstring -> jsstring -> Z) (x : jsstring)
    (l : list jsstring) : list jsstring :=
  match l with
  | [] => [x]
  | y :: l' => if (cmp x y <? 0)%Z then x :: l else y :: insertBy cmp x l'
  end.

Definition sortBy (cmp : jsstring -> jsstring -> Z) (l : list jsstring)
  : list jsstring :=
  fold_left (fun acc x => insertBy cmp x acc) l [].

(** [(f) => f.toLowerCase().endsWith('.svg')] *)
Definition isSvgFile (f : jsstring) : bool :=
  endsWith (str ".svg") (toLowerCase f).

Section Assembler.

(** [a.localeCompare(b, undefined, { numeric: true })] *)
Variable localeCompare : jsstring -> jsstring -> Z.
(** [path.join], [path.basename] and the file system. *)
Variable path_join : jsstring -> jsstring -> jsstring.
Variable basename : jsstring -> jsstring.
Variable readdir : jsstring -> option (list jsstring).
Variable readFile : jsstring -> option jsstring.

Definition fsReaddir (dir : jsstring) : M (list jsstring) :=
  emit (ReadDir dir) ;;;
  match readdir dir with
  | Some names => ret names
  | None => throw (SystemError dir)
  end.

Definition fsReadFile (file : jsstring) : M jsstring :=
  emit (ReadFile file) ;;;
  match readFile file with
  | Some text => ret text
  | None => throw (SystemError file)
  end.

(** The qualifying page units of a directory, in processing order. *)
Definition svgFilesOf (names : list jsstring) : list jsstring :=
  sortBy localeCompare (filter isSvgFile names).

Section Vector.

(** [safeFileName], which normalises and strips diacritics. *)
Variable safeFileName : jsstring -> jsstring.

(** The body of the loop over the units. *)
Definition addVectorPage (dir file : jsstring) : M unit :=
  svg <- fsReadFile (path_join dir file) ;;
  let '(widthPt, heightPt) :=
    match getSvgSize svg with Some size => size | None => a4 end in
  emit (AddPage widthPt heightPt) ;;;
  emit (SvgToPdf svg widthPt heightPt) ;;;
  emit (ConsoleLog (10003%N :: str " added " ++ file)).

(** [svgFolderToPdf] of [download.ts] *)
Definition svgFolderToPdf (dir : jsstring) : M unit :=
  emit (ConsoleLog ([55357; 56516]%N ++ str "  converting SVGs to PDF for "
                    ++ quoted dir)) ;;;
  names <- fsReaddir dir ;;
  let svgFiles := svgFilesOf names in
  if (length svgFiles =? 0)%nat
  then throw (Error (str "no .svg files in " ++ quoted dir))
  else
    let pdfBase := safeFileName (basename dir) ++ str ".pdf" in
    let outFile := path_join dir pdfBase in
    emit NewDocument ;;;
    emit (CreateWriteStream outFile) ;;;
    emit (Pipe outFile) ;;;
    forEach svgFiles (addVectorPage dir) ;;;
    emit DocEnd ;;;
    emit (AwaitFinish outFile) ;;;
    emit (ConsoleLog ([55357; 56516]%N ++ str "  saved PDF " ++ [8594%N]
                      ++ str " " ++ outFile)).

End Vector.

Section Raster.

(** [sharp(svg, { density: 300 }).png().toBuffer()] and the size of
    the image [embedPng] reports; [None] when rendering fails. *)
Variable sharp : jsstring -> option (list N * float * float).

(** The body of the loop over the units. *)
Definition addRasterPage (dir file : jsstring) : M unit :=
  svg <- fsReadFile (path_join dir file) ;;
  match sharp svg with
  | None => throw (SystemError file)
  | Some (png, width, height) =>
      emit (AddPage width height) ;;;
      emit (DrawImage png width height) ;;;
      emit (ConsoleLog (10003%N :: str " added " ++ file))
  end.

(** [svgFolderToPdf] of [svg2pdf.ts] *)
Definition svgFolderToPdfRaster (dir : jsstring) : M unit :=
  names <- fsReaddir dir ;;
  let svgFiles := svgFilesOf names in
  if (length svgFiles =? 0)%nat
  then throw (Error (str "no .svg files found in " ++ [8220%N] ++ dir
                     ++ [8221%N]))
  else
    emit NewDocument ;;;
    forEach svgFiles (addRasterPage dir) ;;;
    let outFile := path_join dir (basename dir ++ str ".pdf") in
    emit (WriteFile outFile) ;;;
    emit (ConsoleLog ([55356; 57225]%N ++ str "  saved " ++ [8594%N]
                      ++ str " " ++ outFile)).

End Raster.

End Assembler.

(** The files an assembly reads, in the order it reads them. *)
Definition filesRead (t : list event) : list jsstring :=
  flat_map (fun e => match e with ReadFile f => [f] | _ => [] end) t.

(** Whether an assembly opens or writes the output file. *)
Definition opensOutput (t : list event) : bool :=
  existsb (fun e => match e with
                    | CreateWriteStream _ | WriteFile _ | Pipe _ => true
                    | _ => false
                    end) t.

(* ================================================================== *)
(** * The vocabulary of the properties *)
(* ================================================================== *)

(** A match reads a prefix of the input. *)
Definition extends (x y : mstate) : Prop :=
  exists w, rest x = w ++ rest y /\ seen y = rev w ++ seen x.

(** [x] advanced over the text [w], captures untouched. *)
Definition over (w : jsstring) (x : mstate) : mstate :=
  MState (skipn (length w) (rest x)) (rev w ++ seen x) (caps x).

Fixpoint readLit (ps : list (char -> bool)) (s : jsstring) : bool :=
  match ps, s with
  | [], _ => true
  | p :: ps', c :: s' => p c && readLit ps' s'
  | _ :: _, [] => false
  end.

Fixpoint runs (p : char -> bool) (s sn : jsstring) (cs : list jsstring)
  : list mstate :=
  MState s sn cs ::
  match s with
  | c :: s' => if p c then runs p s' (c :: sn) cs else []
  | [] => []
  end.

Definition equalsCI (a b : jsstring) : Prop :=
  map canonicalize a = map canonicalize b.

Definition occursAt (p text : jsstring) (i : nat) : Prop :=
  exists pre post, text = pre ++ p ++ post /\ length pre = i.

Definition firstAt (P : nat -> Prop) (i : nat) : Prop :=
  P i /\ forall j, j < i -> ~ P j.

Definition firstFrom (P : nat -> Prop) (from i : nat) : Prop :=
  from <= i /\ P i /\ forall j, from <= j -> j < i -> ~ P j.

Definition matchesAt (r : regex) (s : jsstring) (i : nat) : Prop :=
  exists s1 s2, s = s1 ++ s2 /\ length s1 = i /\ matchAt r (rev s1) s2 <> None.

Definition openTagAt (text : jsstring) (i : nat) : Prop :=
  exists pre o mid post,
    text = pre ++ o ++ mid ++ ch ">" :: post /\ length pre = i /\
    equalsCI o (str "<svg").

Definition openHere (t : jsstring) : Prop :=
  exists o mid post, t = o ++ mid ++ ch ">" :: post /\ equalsCI o (str "<svg").

Definition injected : jsstring := str " xmlns=" ++ quoted svgNamespace.






(** A character of a dash entry: no white space, comma, quote, semicolon
    or colon. *)
Definition valueChar (d : char) : bool :=
  negb (isSpace d) &&
  negb (existsb (N.eqb d) [ch ","; dq; sq; ch ";"; ch ":"]).




(** A name with the suffix [.svg] in some letter case. *)
Definition hasSvgSuffix (f : jsstring) : Prop :=
  exists stem ext, f = stem ++ ext /\ equalsCI ext (str ".svg").

(** The page number of a unit named by digits and the suffix. *)
Definition pageNumber (f : jsstring) : option N :=
  let ds := takeWhile isDigit f in
  if negb (eqs ds []) && eqs (map canonicalize (dropWhile isDigit f)) (str ".SVG")
  then Some (digitsVal 10 ds)
  else None.

Definition pageOf (f : jsstring) : N :=
  match pageNumber f with Some n => n | None => 0%N end.


(** A comparator with that property, for the examples. *)
Definition byPageNumber (a b : jsstring) : Z :=
  (Z.of_N (pageOf a) - Z.of_N (pageOf b))%Z.


(** The units of the example of the specification. *)
Definition exampleNames : list jsstring :=
  [str "0002.svg"; str "0010.svg"; str "0001.svg"].

(** A directory for the examples: its entries, and the text of each
    unit. *)
Definition exampleReaddir (names : list jsstring) (dir : jsstring)
  : option (list jsstring) :=
  if eqs dir (str "books/Recht") then Some names else None.

Definition exampleJoin (dir file : jsstring) : jsstring :=
  dir ++ str "/" ++ file.

Definition exampleReadFile (file : jsstring) : option jsstring :=
  Some (str "<svg width=" ++ quoted (str "96px") ++ str " height="
        ++ quoted (str "96px") ++ str "></svg>").

Definition exampleSharp (svg : jsstring) : option (list N * float * float) :=
  Some ([], ofNat 400, ofNat 400).

(** [sep] occurs in [p]. *)
Definition occurs (sep p : jsstring) : Prop :=
  exists a c, p = a ++ sep ++ c.

(** A pattern without groups. *)
Fixpoint groupFree (r : regex) : bool :=
  match r with
  | Empty | Class _ | WordBoundary => true
  | Seq r1 r2 | Alt r1 r2 => groupFree r1 && groupFree r2
  | Star _ r1 => groupFree r1
  | Group _ => false
  end.

Definition captured (cs : list jsstring) : Prop := nth 0 cs [] <> [].

Definition isQuote (c : char) : bool := existsb (N.eqb c) [dq; sq].

(** The text [tag] is an [<img] tag up to the end of its [src]
    attribute, whose value is [src]. *)
Definition imgTagWithSrc (tag src : jsstring) : Prop :=
  exists o attrs k q1 q2,
    tag = o ++ attrs ++ k ++ q1 :: src ++ [q2] /\
    equalsCI o (str "<img") /\ attrs <> [] /\ ~ In (ch ">") attrs /\
    equalsCI k (str "src=") /\ isQuote q1 = true /\ isQuote q2 = true /\
    src <> [] /\ forallb (fun c => negb (isQuote c)) src = true.

(** Every occurrence of [ref] in [before] is [uri] in [after], and
    nothing else differs. *)
Definition replacesAll (ref uri before after : jsstring) : Prop :=
  exists pieces,
    before = join ref pieces /\ after = join uri pieces /\
    forall p, In p pieces -> ~ occurs ref p.

Section ResolverSpec.

Variable URL_href : jsstring -> jsstring -> option jsstring.
Variable extname : jsstring -> jsstring.
Variable utf8 : list N -> jsstring.
Variable fetch : request -> fetched.
Variable ctx : list cookieT.
Variable svgUrl : jsstring.


End ResolverSpec.

(** A network and a page for the examples. *)
Definition exampleOrigin : jsstring :=
  str "https://a.digi4school.at/ebook/42/1.svg".

Definition exampleURL (ref base : jsstring) : option jsstring :=
  Some (rev (dropWhile (fun c => negb (c =? ch "/")%N) (rev base)) ++ ref).

Definition exampleExtname (u : jsstring) : jsstring :=
  rev (ch "." :: takeWhile (fun c => negb (c =? ch ".")%N) (rev u)).

Definition exampleUtf8 (bytes : list N) : jsstring := bytes.

Definition exampleFetch (req : request) : fetched :=
  if endsWith (str "1.png") (url req)
  then Settled (Response true 200 (Some (str "image/png")) [137; 80; 78; 71]%N)
  else if endsWith (str "2.png") (url req)
  then Settled (Response false 404 (Some (str "text/html; charset=utf-8"))
                  (str "<html>Not Found</html>"))
  else if endsWith (str "wrapped.jpg") (url req)
  then Settled (Response true 200 (Some (str "text/html"))
                  (str "<html><img alt='' src='raw.jpeg'></html>"))
  else if endsWith (str "raw.jpeg") (url req)
  then Settled (Response true 200 (Some (str "image/jpeg")) [255; 216; 255]%N)
  else NetworkError.

Definition examplePage : jsstring :=
  str "<svg xmlns=" ++ quoted svgNamespace ++ str "><image href="
  ++ quoted (str "img/1.png") ++ str "/><image href="
  ++ quoted (str "img/2.png") ++ str "/></svg>".

Definition examplePageResolved : jsstring :=
  str "<svg xmlns=" ++ quoted svgNamespace ++ str "><image href="
  ++ quoted (str "data:image/png;base64,iVBORw==") ++ str "/><image href="
  ++ quoted (str "img/2.png") ++ str "/></svg>".

Definition exampleImg : found :=
  Found 6 (str "<img alt='' src='raw.jpeg'") [str "raw.jpeg"] (str "></html>").

(* ================================================================== *)
(** * download.ts: the configuration *)
(* ================================================================== *)

Section Configuration.

(** The values [JSON.parse] returns; [JSON.parse] itself, [None] when
    it throws; [Array.isArray] together with the elements of an
    array; and [String]. *)
Variable json : Type.
Variable JSON_parse : jsstring -> option json.
Variable elements : json -> option (list json).
Variable stringOf : json -> jsstring.

(** [txt.split(';').map((s) => s.trim()).filter(Boolean)] *)
Definition delimited (txt : jsstring) : list jsstring :=
  filter (fun s => negb (eqs s [])) (map trim (split (str ";") txt)).

(** [parseBookEnv]; [None] is [undefined] as an argument and [null] as
    a result. *)
Definition parseBookEnv (raw : option jsstring) : option (list jsstring) :=
  match raw with
  | None => None
  | Some raw =>
      if eqs raw [] || eqs (trim raw) []
         || eqs (toLowerCase (trim raw)) (str "null")
      then None
      else
        let txt := trim raw in
        let parsed :=
          if startsWith (str "[") txt
          then match JSON_parse txt with
               | Some arr =>
                   Some (match elements arr with
                         | Some l => map stringOf l
                         | None => [stringOf arr]
                         end)
               | None => None          (* fall through to delimiter parsing *)
               end
          else None in
        match parsed with
        | Some titles => Some titles
        | None => Some (delimited txt)
        end
  end.

End Configuration.

(* ================================================================== *)
(** * download.ts: file names *)
(* ================================================================== *)

(** [/[<>:\x22/\\|?*\u0000-\u001F]/g] *)
Definition isUnsafe (c : char) : bool :=
  existsb (N.eqb c)
    [ch "<"; ch ">"; ch ":"; dq; ch "/"; ch "\"; ch "|"; ch "?"; ch "*"]
  || (c <=? 31)%N.

Definition reUnsafe : regex := Class isUnsafe.

Definition safe (name : jsstring) : jsstring :=
  trim (replaceAll reUnsafe (fun _ => []) name).

(** [/\s+/g] *)
Definition reSpaces : regex := Plus true (Class isSpace).

Section FileNames.

(** [raw.normalize('NFD').replace(/\p{Diacritic}/gu, '')] *)
Variable deburr : jsstring -> jsstring.

(** strip diacritics, collapse whitespace, cut at [max] chars (80
    where the argument is left out) *)
Definition safeFileName (raw : jsstring) (max : nat) : jsstring :=
  let collapsed := trim (replaceAll reSpaces (fun _ => str " ") (deburr raw)) in
  let truncated := slice collapsed 0 max in
  safe truncated.

End FileNames.

(* ================================================================== *)
(** * download.ts: capturing the pages of a book *)
(* ================================================================== *)

(** [s.padStart(n, fill)] *)
Definition padStart (n : nat) (fill s : jsstring) : jsstring :=
  if (n <=? length s)%nat || eqs fill [] then s
  else firstn (n - length s) (concat (repeat fill (n - length s))) ++ s.

(** A pattern that ends with [$] (and has no [m] flag): the assertion
    is the last continuation of the match and holds at the end of the
    input. *)
Definition atEnd (y : mstate) : option mstate :=
  match rest y with
  | [] => Some y
  | _ :: _ => None
  end.

Definition matchAtEnd (r : regex) (sn s : jsstring) : option mstate :=
  m r (MState s sn []) atEnd.

(** [exec] for such a pattern. *)
Fixpoint execEnd (r : regex) (sn s : jsstring) : option (jsstring * mstate) :=
  match matchAtEnd r sn s with
  | Some y => Some ([], y)
  | None =>
      match s with
      | [] => None
      | c :: s' =>
          match execEnd r (c :: sn) s' with
          | Some (sk, y) => Some (c :: sk, y)
          | None => None
          end
      end
  end.

(** [/^\d+\.svg$/i]: behind [^] the match starts at the first code
    unit. *)
Definition rePageFile : regex :=
  seqs [Plus true (Class isDigit); one (ch "."); litCI "svg"].

Definition isPageFile (fileName : jsstring) : bool :=
  match matchAtEnd rePageFile [] fileName with
  | Some _ => true
  | None => false
  end.

(** [/\.svg$/i] *)
Definition reSvgSuffix : regex := seqs [one (ch "."); litCI "svg"].

(** [fileName.replace(/\.svg$/i, '')] *)
Definition pageNum (fileName : jsstring) : jsstring :=
  match execEnd reSvgSuffix [] fileName with
  | Some (sk, y) => sk ++ [] ++ rest y
  | None => fileName
  end.

(** [`${num.padStart(4, '0')}.svg`] *)
Definition outName (fileName : jsstring) : jsstring :=
  padStart 4 (str "0") (pageNum fileName) ++ str ".svg".

Section Capture.

Variable URL_href : jsstring -> jsstring -> option jsstring.
Variable extname : jsstring -> jsstring.
Variable utf8 : list N -> jsstring.
Variable fetch : request -> fetched.
(** [new URL(u).pathname]; [None] when the constructor throws. *)
Variable URL_pathname : jsstring -> option jsstring.
Variable basename : jsstring -> jsstring.
Variable path_join : jsstring -> jsstring -> jsstring.
(** The order in which the callbacks of [inlineAssets] finish, given
    the references in the order they were started. *)
Variable schedule : list jsstring -> list jsstring.
(** Whether [fs.writeFile] succeeds. *)
Variable writeFile : jsstring -> jsstring -> bool.

(** One call of [respHandler], the listener of [downloadBook], for a
    response with address [u] and body [body] ([None] when the body
    cannot be read), run from start to end with no other call in
    between.  The result is the set [seenSvgs] afterwards and the
    call of [fs.writeFile] made, if any; the line on the console is
    left out.  Whatever is thrown inside is caught and ignored. *)
Definition respHandler (ctx : list cookieT) (folder : jsstring)
    (recording : bool) (seenSvgs : list jsstring)
    (u : jsstring) (body : option (list N))
  : list jsstring * option (jsstring * jsstring) :=
  if negb recording then (seenSvgs, None)
  else if negb (endsWith (str ".svg") (toLowerCase u)) then (seenSvgs, None)
  else
    match URL_pathname u with
    | None => (seenSvgs, None)
    | Some pathname =>
        let fileName := basename pathname in
        if negb (isPageFile fileName) then (seenSvgs, None)
        else if existsb (eqs fileName) seenSvgs then (seenSvgs, None)
        else
          match body with
          | None => (seenSvgs, None)
          | Some bytes =>
              let svgText := utf8 bytes in
              match inlineAssetsIn URL_href extname utf8 fetch
                      (schedule (externals svgText)) ctx svgText u with
              | None => (seenSvgs, None)
              | Some svgText =>
                  let svgText := fixDashArrays svgText in
                  let svgText := sanitizeSvg svgText in
                  let file := path_join folder (outName fileName) in
                  if writeFile file svgText
                  then (setAdd seenSvgs fileName, Some (file, svgText))
                  else (seenSvgs, Some (file, svgText))
              end
          end
    end.

End Capture.

(* ================================================================== *)
(** * download.ts: saving one page *)
(* ================================================================== *)

(** [`${n}`] of a natural number. *)
Fixpoint decimalFrom (fuel : nat) (n : N) (acc : jsstring) : jsstring :=
  match fuel with
  | O => acc
  | S fuel' =>
      let acc' := (48 + n mod 10)%N :: acc in
      if (n <? 10)%N then acc' else decimalFrom fuel' (n / 10)%N acc'
  end.

Definition decimal (n : N) : jsstring := decimalFrom (S (N.to_nat (N.log2 n))) n [].

(** [/\((\d+)\s*[×xX]\s*(\d+)\)/] *)
Definition reDim : regex :=
  seqs [one (ch "("); Group (Plus true (Class isDigit)); spaces;
        oneOf [215%N; ch "x"; ch "X"]; spaces;
        Group (Plus true (Class isDigit)); one (ch ")")].

(** The page built around an image. *)
Definition wrapImage (dataUri widthAttr heightAttr : jsstring) : jsstring :=
  str "<svg xmlns=" ++ quoted svgNamespace
  ++ str " width=" ++ quoted widthAttr ++ str " height=" ++ quoted heightAttr
  ++ str "><image href=" ++ quoted dataUri
  ++ str " width=" ++ quoted widthAttr ++ str " height=" ++ quoted heightAttr
  ++ str "/></svg>".

(** valid minimal SVG *)
Definition placeholderSvg : jsstring :=
  str "<svg xmlns=" ++ quoted svgNamespace ++ str " width=" ++ quoted (str "10")
  ++ str " height=" ++ quoted (str "10") ++ str "></svg>".

(** [!svg] for a string or [null] *)
Definition falsy (svg : option jsstring) : bool :=
  match svg with
  | None | Some [] => true
  | Some (_ :: _) => false
  end.

(** The markup of a response: trusted when labelled as SVG, otherwise
    direct SVG or SVG extracted from an HTML body. *)
Definition directSvg (ct raw : jsstring) : option jsstring :=
  if eqs ct (str "image/svg+xml") then Some raw
  else if startsWith (str "<svg") (trim raw) then Some raw
  else extractSvgMarkup raw.

Section SaveSvg.

Variable URL_href : jsstring -> jsstring -> option jsstring.
Variable extname : jsstring -> jsstring.
Variable utf8 : list N -> jsstring.
Variable fetch : request -> fetched.
(** [new URL(url).href]; [None] when the constructor throws. *)
Variable URL_parse : jsstring -> option jsstring.
(** [res.text()] *)
Variable text : list N -> jsstring.
Variable schedule : list jsstring -> list jsstring.

Definition pageRequest (ctx : list cookieT) (url abs : jsstring) : request :=
  Request abs (cookieHeader ctx)
    (str "image/svg+xml,image/*;q=0.8,*/*;q=0.5") url.

(** Attempt to recover from HTML wrapper pages that display the real
    content as a plain <img> tag.  The outer [None]: the address of
    the image does not parse, which is thrown outside the [try]. *)
Definition recoverImage (ctx : list cookieT) (abs raw : jsstring)
    (svg : option jsstring) : option (option jsstring) :=
  match firstMatch reImg raw with
  | None => Some svg
  | Some imgMatch =>
      match URL_href (group 0 imgMatch) abs with
      | None => None
      | Some imgAbs =>
          match fetch (imgRequest extname ctx abs imgAbs) with
          | NetworkError => Some svg
          | Settled imgRes =>
              if ok imgRes
              then
                let imgCt := mimeOf imgRes in
                if startsWith (str "image/") imgCt
                then
                  let dataUri := dataUri imgCt (body imgRes) in
                  let '(widthAttr, heightAttr) :=
                    match firstMatch reDim raw with
                    | Some dimMatch => (group 0 dimMatch, group 1 dimMatch)
                    | None => (str "816", str "1056")
                    end in
                  Some (Some (wrapImage dataUri widthAttr heightAttr))
                else Some svg
              else Some svg
          end
      end
  end.

(** [saveSvg]: what it throws, or the file and the text it hands to
    [fs.writeFile]; the lines on the console are left out. *)
Definition saveSvg (ctx : list cookieT) (url file : jsstring)
  : error + (jsstring * jsstring) :=
  match URL_parse url with
  | None => inl (SystemError url)
  | Some abs =>
      match fetch (pageRequest ctx url abs) with
      | NetworkError => inl (SystemError abs)
      | Settled res =>
          if negb (ok res)
          then inl (Error (str "download " ++ decimal (status res) ++ str " "
                           ++ [8594%N] ++ str " " ++ abs))
          else
            let raw := text (body res) in
            let ct := mimeOf res in
            let svg := directSvg ct raw in
            let recovered :=
              if falsy svg then recoverImage ctx abs raw svg else Some svg in
            match recovered with
            | None => inl (SystemError abs)
            | Some svg =>
                let svg :=
                  match svg with
                  | Some (c :: t) => c :: t
                  | _ => placeholderSvg
                  end in
                match inlineAssetsIn URL_href extname utf8 fetch
                        (schedule (externals svg)) ctx svg abs with
                | None => inl (SystemError abs)
                | Some svg =>
                    let svg := fixDashArrays svg in
                    let svg := sanitizeSvg svg in
                    inr (file, svg)
                end
            end
      end
  end.

End SaveSvg.

(* ================================================================== *)
(** * The vocabulary of the further properties *)
(* ================================================================== *)

(** A string without white space at either end. *)
Definition trimmed (s : jsstring) : Prop :=
  (forall c t, s = c :: t -> isSpace c = false) /\
  (forall t c, s = t ++ [c] -> isSpace c = false).

(** A string made of the code units a file name may hold. *)
Definition allSafe (s : jsstring) : Prop :=
  forall c, In c s -> isUnsafe c = false.


(** A title as the configuration can name it between semicolons. *)
Definition isTitle (t : jsstring) : Prop :=
  t <> [] /\ trimmed t /\ ~ In (ch ";") t.

(** A [JSON.parse] that rejects every text, for the examples. *)
Definition exampleParse (txt : jsstring) : option unit := None.

(** The name of a page as the reader serves it: digits and the suffix
    in either letter case. *)
Definition isPageName (f ds : jsstring) : Prop :=
  ds <> [] /\ forallb isDigit ds = true /\
  exists ext, f = ds ++ ext /\ equalsCI ext (str ".svg").

(** The address of a page in the reader, for the examples: its path and
    the last segment of a path. *)
Definition examplePathname (u : jsstring) : option jsstring :=
  Some (skipn (length (str "https://a.digi4school.at")) u).

Definition exampleBasename (p : jsstring) : jsstring :=
  rev (takeWhile (fun c => negb (c =? ch "/")%N) (rev p)).

(** A page served as HTML without markup or image in it. *)
Definition exampleNotFound (req : request) : fetched :=
  Settled (Response true 200 (Some (str "text/html"))
             (str "<html><body>session expired</body></html>")).

(** The events of the loop over the units. *)
Definition isPageEvent (e : event) : bool :=
  match e with
  | ReadFile _ | AddPage _ _ | SvgToPdf _ _ _ | DrawImage _ _ _
  | ConsoleLog _ => true
  | _ => false
  end.



(** The output streams an assembly creates. *)
Definition streams (t : list event) : list jsstring :=
  flat_map (fun e => match e with CreateWriteStream f => [f] | _ => [] end) t.


(** A reference free of quotes. *)
Definition quoteFree (r : jsstring) : Prop := ~ In dq r /\ ~ In sq r.

(** A run of one digit or more. *)
Definition isDigits (w : jsstring) : Prop :=
  w <> [] /\ forallb isDigit w = true.

(** An HTML page around an image, with the size of the image in its
    title, for the examples. *)
Definition exampleWrapper (req : request) : fetched :=
  if endsWith (str "2.jpg") (url req)
  then Settled (Response true 200 (Some (str "image/jpeg")) [255; 216; 255]%N)
  else Settled (Response true 200 (Some (str "text/html"))
                  (str "<html><title>2.jpg (709x63)</title><img src='2.jpg'></html>")).

(** A page that needs no repair, for the examples. *)
Definition exampleCleanPage : jsstring :=
  str "<svg xmlns=" ++ quoted svgNamespace ++ str " width=" ++ quoted (str "96")
  ++ str "><path d=" ++ quoted (str "M0 0L9 9") ++ str "/></svg>".

(* ================================================================== *)
(** * Properties *)
(* ================================================================== *)

(* ================================================================== *)
(** * The matcher and the list of matches *)
(* ================================================================== *)

Lemma orElse_None_r {A} (a : option A) : orElse a None = a.
Proof. destruct a; reflexivity. Qed.

Lemma orElse_assoc {A} (a b c : option A) :
  orElse (orElse a b) c = orElse a (orElse b c).
Proof. destruct a; reflexivity. Qed.

Lemma firstSome_app {A B} (k : A -> option B) l1 l2 :
  firstSome k (l1 ++ l2) = orElse (firstSome k l1) (firstSome k l2).
Proof.
  induction l1 as [|a l1 IH]; simpl; [reflexivity|].
  rewrite IH, orElse_assoc; reflexivity.
Qed.

Lemma firstSome_ext {A B} (k k' : A -> option B) l :
  (forall a, In a l -> k a = k' a) -> firstSome k l = firstSome k' l.
Proof.
  induction l as [|a l IH]; simpl; intros H; [reflexivity|].
  rewrite (H a) by auto. rewrite IH by auto. reflexivity.
Qed.

Lemma firstSome_flat_map {A B C} (f : A -> list B) (k : B -> option C) l :
  firstSome k (flat_map f l) = firstSome (fun a => firstSome k (f a)) l.
Proof.
  induction l as [|a l IH]; simpl; [reflexivity|].
  rewrite firstSome_app, IH; reflexivity.
Qed.

Lemma firstSome_map {A B C} (f : A -> B) (k : B -> option C) l :
  firstSome k (map f l) = firstSome (fun a => k (f a)) l.
Proof.
  induction l as [|a l IH]; simpl; [reflexivity|]. rewrite IH; reflexivity.
Qed.

Lemma firstSome_Some {A} (l : list A) : firstSome Some l = hd_error l.
Proof. destruct l; reflexivity. Qed.


Lemma iterate_iterateL step stepL g k :
  (forall x k', step x k' = firstSome k' (stepL x)) ->
  forall n x, iterate step g k n x = firstSome k (iterateL stepL g n x).
Proof.
  intros Hstep. induction n as [|n IH]; intros x; simpl.
  - symmetry; apply orElse_None_r.
  - rewrite Hstep.
    assert (E : firstSome
                  (fun y => if length (rest y) <? length (rest x)
                            then iterate step g k n y else None) (stepL x)
                = firstSome k
                    (flat_map (fun y => if length (rest y) <? length (rest x)
                                        then iterateL stepL g n y else [])
                              (stepL x))).
    { rewrite firstSome_flat_map. apply firstSome_ext. intros y _.
      destruct (length (rest y) <? length (rest x)); [apply IH|reflexivity]. }
    rewrite E. destruct g; simpl.
    + rewrite firstSome_app. simpl. rewrite orElse_None_r. reflexivity.
    + reflexivity.
Qed.

(** The matcher answers with the first match its continuation accepts. *)
Theorem m_reach r : forall x k, m r x k = firstSome k (reach r x).
Proof.
  induction r as [|p|r1 IH1 r2 IH2|r1 IH1 r2 IH2|g r1 IH1|r1 IH1|];
    intros x k; simpl.
  - symmetry; apply orElse_None_r.
  - destruct (rest x) as [|c s]; [reflexivity|].
    destruct (p c); simpl; [symmetry; apply orElse_None_r|reflexivity].
  - rewrite IH1, firstSome_flat_map. apply firstSome_ext; intros; apply IH2.
  - rewrite IH1, IH2, firstSome_app; reflexivity.
  - apply iterate_iterateL; exact IH1.
  - rewrite IH1, firstSome_map; reflexivity.
  - destruct (xorb _ _); simpl; [symmetry; apply orElse_None_r|reflexivity].
Qed.

Lemma matchAt_reach r sn s : matchAt r sn s = hd_error (reach r (MState s sn [])).
Proof. unfold matchAt. rewrite m_reach. apply firstSome_Some. Qed.

Lemma extends_refl x : extends x x.
Proof. exists []; split; reflexivity. Qed.

Lemma extends_trans x y z : extends x y -> extends y z -> extends x z.
Proof.
  intros [w [H1 H2]] [v [H3 H4]]. exists (w ++ v). split.
  - rewrite H1, H3, app_assoc; reflexivity.
  - rewrite H4, H2, rev_app_distr, app_assoc; reflexivity.
Qed.

Lemma iterateL_extends step g :
  (forall x y, In y (step x) -> extends x y) ->
  forall n x y, In y (iterateL step g n x) -> extends x y.
Proof.
  intros Hs. induction n as [|n IH]; intros x y; simpl.
  - intros [<-|[]]; apply extends_refl.
  - assert (A : In y (flat_map
                   (fun y0 => if length (rest y0) <? length (rest x)
                              then iterateL step g n y0 else []) (step x)) ->
                extends x y).
    { rewrite in_flat_map. intros [y0 [H0 H1]].
      destruct (length (rest y0) <? length (rest x)); [|destruct H1].
      eapply extends_trans; [apply Hs; eassumption|apply IH; assumption]. }
    destruct g.
    + rewrite in_app_iff. intros [H|[<-|[]]]; [auto|apply extends_refl].
    + intros [<-|H]; [apply extends_refl|auto].
Qed.

Lemma reach_extends r : forall x y, In y (reach r x) -> extends x y.
Proof.
  induction r as [|p|r1 IH1 r2 IH2|r1 IH1 r2 IH2|g r1 IH1|r1 IH1|];
    intros x y; simpl.
  - intros [<-|[]]; apply extends_refl.
  - destruct (rest x) as [|c s] eqn:E; [intros []|].
    destruct (p c); [|intros []]. intros [<-|[]].
    exists [c]; simpl; split; [assumption|reflexivity].
  - rewrite in_flat_map. intros [y0 [H0 H1]].
    eapply extends_trans; [apply IH1|apply IH2]; eassumption.
  - rewrite in_app_iff; intros [H|H]; auto.
  - apply iterateL_extends; exact IH1.
  - rewrite in_map_iff. intros [y0 [<- H]].
    destruct (IH1 _ _ H) as [w [H1 H2]]. exists w; simpl; auto.
  - destruct (xorb _ _); [|intros []]. intros [<-|[]]; apply extends_refl.
Qed.

(** ** Searching for a match *)

Lemma exec_None r : forall s sn,
  exec r sn s = None <->
  forall s1 s2, s = s1 ++ s2 -> matchAt r (rev s1 ++ sn) s2 = None.
Proof.
  induction s as [|c s IH]; intros sn; simpl.
  - destruct (matchAt r sn []) eqn:E.
    + split; [discriminate|].
      intros H. specialize (H [] [] eq_refl). simpl in H. congruence.
    + split; [|reflexivity]. intros _ s1 s2 H. destruct s1; [|discriminate].
      simpl in H; subst s2. exact E.
  - destruct (matchAt r sn (c :: s)) eqn:E.
    + split; [discriminate|]. intros H.
      specialize (H [] (c :: s) eq_refl). simpl in H. congruence.
    + destruct (exec r (c :: sn) s) as [[sk y]|] eqn:E2.
      * split; [discriminate|]. intros H.
        assert (A : exec r (c :: sn) s = None).
        { apply IH. intros s1 s2 ->.
          specialize (H (c :: s1) s2 eq_refl). simpl in H.
          rewrite <- app_assoc in H. exact H. }
        congruence.
      * split; [|reflexivity]. intros _ s1 s2 H.
        destruct s1 as [|c' s1]; simpl in H.
        -- subst s2. exact E.
        -- injection H as <- ->. simpl. rewrite <- app_assoc. simpl.
           apply (proj1 (IH (c :: sn)) E2 s1 s2 eq_refl).
Qed.

Lemma exec_Some r : forall s sn sk y,
  exec r sn s = Some (sk, y) <->
  exists t, s = sk ++ t /\ matchAt r (rev sk ++ sn) t = Some y /\
            forall s1 s2, sk = s1 ++ s2 -> s2 <> [] ->
                          matchAt r (rev s1 ++ sn) (s2 ++ t) = None.
Proof.
  induction s as [|c s IH]; intros sn sk y; simpl.
  - destruct (matchAt r sn []) eqn:E.
    + split.
      * intros H; injection H as <- <-. exists []. repeat split; auto.
        intros s1 s2 H; destruct s1; destruct s2; try discriminate. congruence.
      * intros [t [H1 [H2 _]]]. destruct sk; [|discriminate].
        simpl in *. subst t. rewrite E in H2. injection H2 as ->. reflexivity.
    + split; [discriminate|]. intros [t [H1 [H2 _]]].
      destruct sk; [|discriminate]. simpl in *; subst t.
      rewrite E in H2; discriminate.
  - destruct (matchAt r sn (c :: s)) eqn:E.
    + split.
      * intros H; injection H as <- <-. exists (c :: s). repeat split; auto.
        intros s1 s2 H; destruct s1; destruct s2; try discriminate. congruence.
      * intros [t [H1 [H2 H3]]]. destruct sk as [|c' sk].
        -- simpl in *. subst t. rewrite E in H2. injection H2 as ->.
           reflexivity.
        -- specialize (H3 [] (c' :: sk) eq_refl). simpl in H3, H1.
           rewrite <- H1 in H3. rewrite H3 in E; discriminate.
    + destruct (exec r (c :: sn) s) as [[sk' y']|] eqn:E2.
      * split.
        -- intros H; injection H as <- <-.
           apply IH in E2. destruct E2 as [t [H1 [H2 H3]]].
           exists t. simpl. rewrite <- app_assoc. simpl.
           repeat split; [congruence|assumption|].
           intros s1 s2 H Hne. destruct s1 as [|c' s1]; simpl in *.
           ++ subst s2. simpl. rewrite <- H1. exact E.
           ++ injection H as <- ->. rewrite <- app_assoc. simpl.
              apply H3; auto.
        -- intros [t [H1 [H2 H3]]]. destruct sk as [|c' sk]; simpl in *.
           ++ subst t. rewrite E in H2; discriminate.
           ++ injection H1 as <- ->.
              assert (A : exec r (c :: sn) (sk ++ t) = Some (sk, y)).
              { apply IH. exists t. repeat split; auto.
                - rewrite <- app_assoc in H2. exact H2.
                - intros s1 s2 -> Hne.
                  specialize (H3 (c :: s1) s2 eq_refl Hne). simpl in H3.
                  rewrite <- app_assoc in H3. exact H3. }
              rewrite A in E2. injection E2 as <- <-. reflexivity.
      * split; [discriminate|]. intros [t [H1 [H2 H3]]].
        destruct sk as [|c' sk]; simpl in *.
        -- subst t. rewrite E in H2; discriminate.
        -- injection H1 as <- ->.
           rewrite (exec_None r) in E2.
           specialize (E2 sk t eq_refl).
           rewrite <- app_assoc in H2. simpl in H2.
           rewrite E2 in H2; discriminate.
Qed.

(** The text of a match lies between what was skipped and what is left. *)
Lemma matchAt_extends r sn s y :
  matchAt r sn s = Some y -> exists w, s = w ++ rest y /\ seen y = rev w ++ sn.
Proof.
  rewrite matchAt_reach. intros H.
  assert (I : In y (reach r (MState s sn []))).
  { destruct (reach r (MState s sn [])); [discriminate|].
    injection H as ->. left; reflexivity. }
  apply reach_extends in I. exact I.
Qed.

Lemma firstMatch_Some r s f :
  firstMatch r s = Some f ->
  exists y, exec r [] s = Some (firstn (index f) s, y) /\
            s = firstn (index f) s ++ whole f ++ after f /\
            index f = length (firstn (index f) s) /\
            groups f = caps y /\ after f = rest y.
Proof.
  unfold firstMatch. destruct (exec r [] s) as [[sk y]|] eqn:E; [|discriminate].
  intros H; injection H as <-. simpl.
  pose proof E as E'. apply exec_Some in E'. destruct E' as [t [H1 [H2 _]]].
  apply matchAt_extends in H2. destruct H2 as [w [H2 _]]. subst t s.
  rewrite firstn_app, firstn_all, Nat.sub_diag. simpl. rewrite app_nil_r.
  exists y. repeat split; auto.
  - f_equal. rewrite skipn_app, skipn_all, Nat.sub_diag. simpl.
    rewrite !length_app.
    replace (length sk + (length w + length (rest y)) - length sk
             - length (rest y)) with (length w) by lia.
    rewrite firstn_app, firstn_all, Nat.sub_diag. simpl.
    rewrite app_nil_r; reflexivity.
Qed.


(** ** Literals and runs of a character class *)

Lemma mstate_eta x : MState (rest x) (seen x) (caps x) = x.
Proof. destruct x; reflexivity. Qed.

Lemma over_nil x : over [] x = x.
Proof. unfold over; simpl. apply mstate_eta. Qed.

Lemma over_app w v x : over (w ++ v) x = over v (over w x).
Proof.
  unfold over; simpl. rewrite length_app, rev_app_distr, <- app_assoc.
  f_equal. rewrite skipn_skipn. f_equal. lia.
Qed.

Lemma over_cons c s sn cs w :
  over (c :: w) (MState (c :: s) sn cs) = over w (MState s (c :: sn) cs).
Proof. unfold over; simpl. rewrite <- app_assoc. reflexivity. Qed.

Lemma reach_Class_cons p c s sn cs :
  reach (Class p) (MState (c :: s) sn cs) =
  if p c then [MState s (c :: sn) cs] else [].
Proof. reflexivity. Qed.

Lemma reach_classes ps : forall x,
  reach (seqs (map Class ps)) x =
  if readLit ps (rest x) then [over (firstn (length ps) (rest x)) x] else [].
Proof.
  induction ps as [|p ps IH]; intros x.
  - simpl. rewrite over_nil. reflexivity.
  - destruct ps as [|q ps].
    + simpl. destruct x as [s sn cs]; simpl. destruct s as [|c s]; [reflexivity|].
      simpl. rewrite andb_true_r. destruct (p c); reflexivity.
    + change (seqs (map Class (p :: q :: ps)))
        with (Seq (Class p) (seqs (map Class (q :: ps)))).
      cbn [reach]. destruct x as [s sn cs]. cbn [rest seen caps].
      destruct s as [|c s]; [reflexivity|].
      destruct (p c) eqn:Ep.
      * cbn [flat_map]. rewrite IH, app_nil_r. cbn [rest].
        change (readLit (p :: q :: ps) (c :: s))
          with (p c && readLit (q :: ps) s).
        rewrite Ep. cbn [andb].
        destruct (readLit (q :: ps) s); [|reflexivity].
        change (firstn (length (p :: q :: ps)) (c :: s))
          with (c :: firstn (length (q :: ps)) s).
        rewrite over_cons. reflexivity.
      * change (readLit (p :: q :: ps) (c :: s))
          with (p c && readLit (q :: ps) s).
        rewrite Ep. reflexivity.
Qed.

Lemma lit_classes s : lit s = seqs (map Class (map N.eqb (str s))).
Proof. unfold lit, one. rewrite map_map. reflexivity. Qed.

Lemma litCI_classes s :
  litCI s =
  seqs (map Class
          (map (fun c d => (canonicalize d =? canonicalize c)%N) (str s))).
Proof. unfold litCI, oneCI. rewrite map_map. reflexivity. Qed.

Lemma iterateL_class p g : forall n s sn cs,
  length s <= n ->
  iterateL (reach (Class p)) g n (MState s sn cs) =
  if g then rev (runs p s sn cs) else runs p s sn cs.
Proof.
  induction n as [|n IH]; intros s sn cs Hn.
  - destruct s; [|simpl in Hn; lia]. simpl. destruct g; reflexivity.
  - cbn [iterateL]. destruct s as [|c s].
    + simpl. destruct g; reflexivity.
    + rewrite reach_Class_cons. cbn [runs]. destruct (p c).
      * cbn [flat_map rest]. rewrite app_nil_r.
        replace (length s <? length (c :: s)) with true
          by (symmetry; apply Nat.ltb_lt; simpl; lia).
        rewrite IH by (simpl in Hn; lia).
        destruct g; [|reflexivity].
        simpl. reflexivity.
      * simpl. destruct g; reflexivity.
Qed.

Lemma reach_star_class p g s sn cs :
  reach (Star g (Class p)) (MState s sn cs) =
  if g then rev (runs p s sn cs) else runs p s sn cs.
Proof. cbn [reach rest]. apply iterateL_class. lia. Qed.

Lemma In_runs p : forall s sn cs z,
  In z (runs p s sn cs) <->
  exists w t, s = w ++ t /\ forallb p w = true /\ z = MState t (rev w ++ sn) cs.
Proof.
  induction s as [|c s IH]; intros sn cs z; cbn [runs].
  - split.
    + intros [<-|[]]. exists [], []. auto.
    + intros [w [t [H1 [H2 ->]]]]. destruct w; [|discriminate].
      simpl in H1; subst t. left; reflexivity.
  - split.
    + intros [<-|H].
      * exists [], (c :: s). auto.
      * destruct (p c) eqn:Ep; [|destruct H].
        apply IH in H. destruct H as [w [t [-> [H2 ->]]]].
        exists (c :: w), t. simpl. rewrite Ep, <- app_assoc. auto.
    + intros [w [t [H1 [H2 ->]]]]. destruct w as [|c' w].
      * simpl in H1; subst t. left; reflexivity.
      * simpl in H1, H2. injection H1 as <- ->.
        apply andb_true_iff in H2. destruct H2 as [Ep H2]. rewrite Ep.
        right. apply IH. exists w, t. simpl. rewrite <- app_assoc. auto.
Qed.

(** The longest run comes last in [runs], so first for a greedy star. *)
Lemma runs_rev p : forall s sn cs,
  exists l, rev (runs p s sn cs) =
            MState (dropWhile p s) (rev (takeWhile p s) ++ sn) cs :: l.
Proof.
  induction s as [|c s IH]; intros sn cs; cbn [runs].
  - exists []. reflexivity.
  - cbn [dropWhile takeWhile rev]. destruct (p c).
    + destruct (IH (c :: sn) cs) as [l E]. rewrite E.
      exists (l ++ [MState (c :: s) sn cs]). simpl.
      rewrite <- app_assoc. reflexivity.
    + exists []. reflexivity.
Qed.

(** ** Strings *)

Lemma startsWith_true p : forall s,
  startsWith p s = true <-> exists post, s = p ++ post.
Proof.
  induction p as [|a p IH]; intros s; simpl.
  - split; [intros _; exists s; reflexivity|reflexivity].
  - destruct s as [|b s].
    + split; [discriminate|]. intros [post H]; discriminate.
    + rewrite andb_true_iff, N.eqb_eq, IH. split.
      * intros [-> [post ->]]. exists post; reflexivity.
      * intros [post H]. injection H as -> ->. split; [reflexivity|].
        exists post; reflexivity.
Qed.

Lemma app_length_inv {A} (a b c d : list A) :
  a ++ b = c ++ d -> length a = length c -> a = c /\ b = d.
Proof.
  revert c. induction a as [|x a IH]; intros [|y c] H L; try discriminate.
  - simpl in H. auto.
  - simpl in H, L. injection H as -> H. injection L as L.
    destruct (IH _ H L) as [-> ->]. auto.
Qed.

Lemma indexOf_Some p : forall s i,
  indexOf p s = Some i <-> firstAt (occursAt p s) i.
Proof.
  induction s as [|c s IH]; intros i; simpl.
  - destruct (startsWith p []) eqn:E.
    + apply startsWith_true in E. destruct E as [post E].
      split.
      * intros H; injection H as <-. split; [|intros j Hj; lia].
        exists [], post. simpl. auto.
      * intros [[pre [post' [H1 H2]]] _].
        destruct pre; [|destruct p; discriminate]. simpl in H2. congruence.
    + split; [discriminate|]. intros [[pre [post [H1 H2]]] _].
      destruct pre; [|discriminate]. simpl in H1.
      assert (startsWith p [] = true) by (apply startsWith_true; eauto).
      congruence.
  - destruct (startsWith p (c :: s)) eqn:E.
    + apply startsWith_true in E. destruct E as [post E].
      split.
      * intros H; injection H as <-. split; [|intros j Hj; lia].
        exists [], post. simpl. auto.
      * intros [_ H]. destruct i; [reflexivity|].
        exfalso. apply (H 0); [lia|]. exists [], post. auto.
    + destruct (indexOf p s) as [k|] eqn:Ek; simpl.
      * split.
        -- intros H; injection H as <-.
           destruct (proj1 (IH k) eq_refl) as [[pre [post [H1 H2]]] H3].
           split.
           ++ exists (c :: pre), post. simpl. split; congruence.
           ++ intros j Hj [pre' [post' [H4 H5]]].
              destruct pre' as [|c' pre'].
              ** simpl in H4.
                 assert (startsWith p (c :: s) = true)
                   by (apply startsWith_true; eauto).
                 congruence.
              ** simpl in H4, H5. injection H4 as <- ->.
                 apply (H3 (length pre')); [lia|].
                 exists pre', post'. auto.
        -- intros [[pre [post [H1 H2]]] H3].
           destruct pre as [|c' pre].
           ++ simpl in H1.
              assert (startsWith p (c :: s) = true)
                by (apply startsWith_true; eauto).
              congruence.
           ++ simpl in H1, H2. injection H1 as <- ->. subst i.
              f_equal. f_equal. symmetry.
              assert (A : Some k = Some (length pre)); [|congruence].
              apply IH. split.
              ** exists pre, post. auto.
              ** intros j Hj [pre' [post' [H4 H5]]].
                 apply (H3 (S j)); [lia|].
                 exists (c :: pre'), post'. simpl. split; congruence.
      * split; [discriminate|]. intros [[pre [post [H1 H2]]] H3].
        destruct pre as [|c' pre].
        -- simpl in H1.
           assert (startsWith p (c :: s) = true)
             by (apply startsWith_true; eauto).
           congruence.
        -- simpl in H1, H2. injection H1 as <- ->. subst i.
           assert (A : firstAt (occursAt p (pre ++ p ++ post)) (length pre)).
           { split.
             - exists pre, post. auto.
             - intros j Hj [pre' [post' [H4 H5]]].
               apply (H3 (S j)); [lia|].
               exists (c :: pre'), post'. simpl. split; congruence. }
           apply IH in A. discriminate.
Qed.

Lemma occursAt_indexOf p : forall s i,
  occursAt p s i -> indexOf p s <> None.
Proof.
  induction s as [|c s IH]; intros i [pre [post [H1 H2]]]; simpl.
  - destruct pre; [|discriminate]. simpl in H1.
    replace (startsWith p []) with true; [discriminate|].
    symmetry. apply startsWith_true. eauto.
  - destruct (startsWith p (c :: s)) eqn:E; [discriminate|].
    destruct pre as [|c' pre].
    + simpl in H1.
      assert (startsWith p (c :: s) = true) by (apply startsWith_true; eauto).
      congruence.
    + simpl in H1. injection H1 as <- ->.
      specialize (IH (length pre)).
      destruct (indexOf p (pre ++ p ++ post)); [discriminate|].
      exfalso. apply IH; [|reflexivity]. exists pre, post. auto.
Qed.

Lemma indexOf_None p s :
  indexOf p s = None <-> forall i, ~ occursAt p s i.
Proof.
  split.
  - intros E i H. apply occursAt_indexOf in H. contradiction.
  - intros H. destruct (indexOf p s) as [k|] eqn:Ek; [|reflexivity].
    apply indexOf_Some in Ek. destruct Ek as [Ek _]. exfalso. eapply H; eauto.
Qed.

Lemma firstAt_unique (P : nat -> Prop) i j :
  firstAt P i -> firstAt P j -> i = j.
Proof.
  intros [Hi Li] [Hj Lj]. destruct (Nat.lt_trichotomy i j) as [H|[H|H]].
  - exfalso. apply (Lj i); assumption.
  - assumption.
  - exfalso. apply (Li j); assumption.
Qed.

Lemma app_split_lt {A} (s1 s2 sk t : list A) :
  s1 ++ s2 = sk ++ t -> length s1 < length sk ->
  exists mid, sk = s1 ++ mid /\ mid <> [] /\ s2 = mid ++ t.
Proof.
  revert sk. induction s1 as [|a s1 IH]; intros sk H L.
  - simpl in H. exists sk. repeat split; auto.
    destruct sk; [simpl in L; lia|discriminate].
  - destruct sk as [|b sk]; [simpl in L; lia|].
    simpl in H, L. injection H as -> H.
    destruct (IH sk H) as [mid [-> [H2 H3]]]; [lia|].
    exists mid. auto.
Qed.

Lemma search_Some r s i :
  search r s = Some i <-> firstAt (matchesAt r s) i.
Proof.
  assert (F : forall sk y, exec r [] s = Some (sk, y) ->
                           firstAt (matchesAt r s) (length sk)).
  { intros sk y E. apply exec_Some in E. destruct E as [t [H1 [H2 H3]]].
    rewrite app_nil_r in H2. split.
    - exists sk, t. repeat split; auto. rewrite H2; discriminate.
    - intros j Hj [s1 [s2 [H4 [H5 H6]]]]. subst j.
      rewrite H1 in H4. symmetry in H4.
      destruct (app_split_lt _ _ _ _ H4 Hj) as [mid [-> [Hm ->]]].
      specialize (H3 s1 mid eq_refl Hm). rewrite app_nil_r in H3.
      contradiction. }
  unfold search, firstMatch.
  destruct (exec r [] s) as [[sk y]|] eqn:E; simpl.
  - specialize (F sk y eq_refl). split.
    + intros H; injection H as <-. exact F.
    + intros H. f_equal. eapply firstAt_unique; eassumption.
  - split; [discriminate|]. intros [[s1 [s2 [H1 [H2 H3]]]] _].
    rewrite (exec_None r) in E. specialize (E s1 s2 H1).
    rewrite app_nil_r in E. contradiction.
Qed.

Lemma search_None r s :
  search r s = None <-> forall i, ~ matchesAt r s i.
Proof.
  unfold search, firstMatch.
  destruct (exec r [] s) as [[sk y]|] eqn:E; simpl.
  - split; [discriminate|]. intros H. exfalso.
    apply exec_Some in E. destruct E as [t [H1 [H2 _]]].
    rewrite app_nil_r in H2. apply (H (length sk)).
    exists sk, t. repeat split; auto. rewrite H2; discriminate.
  - split; [|reflexivity]. intros _ i [s1 [s2 [H1 [H2 H3]]]].
    rewrite (exec_None r) in E. specialize (E s1 s2 H1).
    rewrite app_nil_r in E. contradiction.
Qed.

Lemma readLit_CI l : forall t,
  readLit (map (fun c d => (canonicalize d =? canonicalize c)%N) l) t = true <->
  exists o post, t = o ++ post /\ equalsCI o l.
Proof.
  unfold equalsCI.
  induction l as [|a l IH]; intros t; simpl.
  - split; [|reflexivity]. intros _. exists [], t. auto.
  - destruct t as [|b t].
    + split; [discriminate|]. intros [o [post [H1 H2]]].
      destruct o; discriminate.
    + rewrite andb_true_iff, N.eqb_eq, IH. split.
      * intros [H1 [o [post [-> H2]]]]. exists (b :: o), post. simpl.
        split; [reflexivity|congruence].
      * intros [o [post [H1 H2]]]. destruct o as [|b' o]; [discriminate|].
        simpl in H1, H2. injection H1 as -> ->. injection H2 as H2 H3.
        split; [assumption|]. exists o, post. auto.
Qed.

Lemma equalsCI_length a b : equalsCI a b -> length a = length b.
Proof.
  unfold equalsCI. intros H. apply (f_equal (@length _)) in H.
  rewrite !length_map in H. exact H.
Qed.

Lemma hd_error_flat_map {A B} (f : A -> list B) l :
  hd_error (flat_map f l) <> None <-> exists a, In a l /\ f a <> [].
Proof.
  induction l as [|a l IH]; simpl.
  - split; [congruence|]. intros [a [[] _]].
  - destruct (f a) as [|b fa] eqn:E; simpl.
    + rewrite IH. split.
      * intros [a' [H1 H2]]. exists a'. auto.
      * intros [a' [[<-|H1] H2]]; [congruence|]. exists a'. auto.
    + split; [|discriminate]. intros _. exists a. split; [auto|congruence].
Qed.

Lemma reach_Seq r1 r2 x :
  reach (Seq r1 r2) x = flat_map (reach r2) (reach r1 x).
Proof. reflexivity. Qed.

Lemma nonempty_hd {A} (l : list A) : l <> [] <-> hd_error l <> None.
Proof. destruct l; simpl; split; congruence. Qed.

Lemma matchAt_reSvgOpen sn t :
  matchAt reSvgOpen sn t <> None <-> openHere t.
Proof.
  rewrite matchAt_reach. unfold reSvgOpen. cbn [seqs].
  rewrite reach_Seq, litCI_classes, reach_classes. cbn [rest].
  rewrite hd_error_flat_map. split.
  - intros [y [Hy Hne]].
    destruct (readLit _ t) eqn:E; [|destruct Hy].
    destruct Hy as [<-|[]].
    apply readLit_CI in E. destruct E as [o [post [-> Ho]]].
    pose proof (equalsCI_length _ _ Ho) as L.
    rewrite length_map in Hne. rewrite <- L in Hne.
    rewrite firstn_app, firstn_all, Nat.sub_diag in Hne. simpl firstn in Hne.
    rewrite app_nil_r in Hne. unfold over in Hne. cbn [rest seen caps] in Hne.
    rewrite skipn_app, skipn_all, Nat.sub_diag in Hne. cbn [skipn app] in Hne.
    rewrite reach_Seq in Hne.
    apply nonempty_hd, hd_error_flat_map in Hne. destruct Hne as [z [Hz Hz2]].
    unfold anyChar in Hz. rewrite reach_star_class in Hz.
    apply In_runs in Hz. destruct Hz as [w [t' [-> [_ ->]]]].
    unfold one in Hz2. cbn [reach rest] in Hz2.
    destruct t' as [|c t']; [congruence|].
    destruct (N.eqb_spec (ch ">") c) as [<-|]; [|congruence].
    exists o, w, t'. auto.
  - intros [o [mid [post [-> Ho]]]].
    assert (E : readLit
                  (map (fun c d => (canonicalize d =? canonicalize c)%N)
                       (str "<svg")) (o ++ mid ++ ch ">" :: post) = true).
    { apply readLit_CI. eauto. }
    rewrite E. eexists. split; [left; reflexivity|].
    pose proof (equalsCI_length _ _ Ho) as L.
    rewrite length_map, <- L.
    rewrite firstn_app, firstn_all, Nat.sub_diag. simpl firstn.
    rewrite app_nil_r. unfold over. cbn [rest seen caps].
    rewrite skipn_app, skipn_all, Nat.sub_diag. cbn [skipn app].
    rewrite reach_Seq. apply nonempty_hd, hd_error_flat_map.
    exists (MState (ch ">" :: post) (rev mid ++ rev o ++ sn) []). split.
    + unfold anyChar. rewrite reach_star_class. apply In_runs.
      exists mid, (ch ">" :: post). repeat split.
      apply forallb_forall. reflexivity.
    + discriminate.
Qed.

Lemma matchesAt_reSvgOpen text i :
  matchesAt reSvgOpen text i <-> openTagAt text i.
Proof.
  unfold matchesAt, openTagAt. split.
  - intros [s1 [s2 [-> [L H]]]]. apply matchAt_reSvgOpen in H.
    destruct H as [o [mid [post [-> Ho]]]]. exists s1, o, mid, post. auto.
  - intros [pre [o [mid [post [-> [L Ho]]]]]].
    exists pre, (o ++ mid ++ ch ">" :: post). repeat split; auto.
    apply matchAt_reSvgOpen. exists o, mid, post. auto.
Qed.

Lemma occursAt_skipn p text start k :
  start <= length text ->
  (occursAt p (skipn start text) k <-> occursAt p text (start + k)).
Proof.
  intros L. split.
  - intros [pre [post [H1 H2]]]. exists (firstn start text ++ pre), post.
    split.
    + rewrite <- app_assoc, <- H1. symmetry. apply firstn_skipn.
    + rewrite length_app, firstn_length_le; lia.
  - intros [pre [post [-> H2]]]. exists (skipn start pre), post. split.
    + rewrite skipn_app. replace (start - length pre) with 0 by lia.
      reflexivity.
    + rewrite length_skipn. lia.
Qed.

Lemma indexOfFrom_Some p text start j :
  start <= length text ->
  (indexOfFrom p text start = Some j <-> firstFrom (occursAt p text) start j).
Proof.
  intros L. unfold indexOfFrom, firstFrom.
  destruct (indexOf p (skipn start text)) as [k|] eqn:E; simpl.
  - apply indexOf_Some in E. destruct E as [E1 E2]. split.
    + intros H; injection H as <-. split; [lia|]. split.
      * apply occursAt_skipn; assumption.
      * intros j' H1 H2 H3. apply (E2 (j' - start)); [lia|].
        apply occursAt_skipn; [assumption|].
        replace (start + (j' - start)) with j' by lia. assumption.
    + intros [H1 [H2 H3]]. f_equal.
      destruct (Nat.lt_trichotomy (start + k) j) as [H|[H|H]]; [|assumption|].
      * exfalso. apply (H3 (start + k)); [lia|assumption|].
        apply occursAt_skipn; assumption.
      * exfalso. apply (E2 (j - start)); [lia|].
        apply occursAt_skipn; [assumption|].
        replace (start + (j - start)) with j by lia. assumption.
  - split; [discriminate|]. intros [H1 [H2 H3]]. exfalso.
    rewrite indexOf_None in E. apply (E (j - start)).
    apply occursAt_skipn; [assumption|].
    replace (start + (j - start)) with j by lia. assumption.
Qed.

Lemma indexOfFrom_None p text start :
  start <= length text ->
  (indexOfFrom p text start = None <->
   forall j, start <= j -> ~ occursAt p text j).
Proof.
  intros L. unfold indexOfFrom.
  destruct (indexOf p (skipn start text)) as [k|] eqn:E; simpl.
  - split; [discriminate|]. intros H. exfalso.
    apply indexOf_Some in E. destruct E as [E _].
    apply (H (start + k)); [lia|]. apply occursAt_skipn; assumption.
  - split; [|reflexivity]. intros _ j Hj Ho.
    rewrite indexOf_None in E. apply (E (j - start)).
    apply occursAt_skipn; [assumption|].
    replace (start + (j - start)) with j by lia. assumption.
Qed.

Lemma openTagAt_le text i : openTagAt text i -> i <= length text.
Proof.
  intros [pre [o [mid [post [-> [<- _]]]]]]. rewrite length_app. lia.
Qed.

Lemma endsWith_app p s : endsWith p (s ++ p) = true.
Proof.
  unfold endsWith. rewrite rev_app_distr. apply startsWith_true. eauto.
Qed.

(** C9, amended: [extractSvgMarkup] answers [None] exactly when the text
    has no [<svg ...>] open tag, in any letter case, or no [</svg>] at or
    behind the start of the first one; otherwise it answers with the text
    from the start of that tag to the end of the first such [</svg>],
    which begins with [<svg] in some letter case and ends with
    [</svg>]. *)
Theorem extractSvgMarkup_spec :
  forall text : jsstring,
    (extractSvgMarkup text = None <->
       (forall i, ~ openTagAt text i) \/
       (exists i, firstAt (openTagAt text) i /\
                  forall j, i <= j -> ~ occursAt (str "</svg>") text j))
    /\
    (forall r, extractSvgMarkup text = Some r ->
       exists i j pre post,
         firstAt (openTagAt text) i /\
         firstFrom (occursAt (str "</svg>") text) i j /\
         text = pre ++ r ++ post /\ length pre = i /\
         length pre + length r = j + 6 /\
         (exists o tl, r = o ++ tl /\ equalsCI o (str "<svg")) /\
         endsWith (str "</svg>") r = true).
Proof.
  intros text. unfold extractSvgMarkup.
  destruct (search reSvgOpen text) as [start|] eqn:Es.
  - apply search_Some in Es.
    assert (F : firstAt (openTagAt text) start).
    { destruct Es as [E1 E2]. split.
      - apply matchesAt_reSvgOpen; assumption.
      - intros j Hj Ho. apply (E2 j Hj). apply matchesAt_reSvgOpen; assumption. }
    pose proof (openTagAt_le _ _ (proj1 F)) as L.
    destruct (indexOfFrom (str "</svg>") text start) as [e|] eqn:Ee.
    + split.
      * split; [discriminate|]. intros [H|[i [Hi Hn]]]; exfalso.
        -- apply (H start). apply F.
        -- rewrite (firstAt_unique _ _ _ Hi F) in Hn.
           apply indexOfFrom_Some in Ee; [|assumption].
           destruct Ee as [H1 [H2 _]]. apply (Hn e); assumption.
      * intros r H; injection H as <-.
        apply indexOfFrom_Some in Ee; [|assumption].
        pose proof Ee as [H1 [[pre [post [H2 H3]]] _]].
        destruct (proj1 F) as [pre0 [o [mid [post0 [H4 [H5 Ho]]]]]].
        assert (P : exists u, pre = pre0 ++ u).
        { exists (skipn start pre).
          rewrite <- (firstn_skipn start pre) at 1. f_equal.
          assert (X : firstn start text = pre0).
          { rewrite H4, firstn_app, <- H5, firstn_all, Nat.sub_diag.
            simpl. apply app_nil_r. }
          rewrite <- X, H2, firstn_app.
          replace (start - length pre) with 0 by lia. simpl.
          rewrite app_nil_r. reflexivity. }
        destruct P as [u ->].
        assert (S1 : skipn start text = u ++ str "</svg>" ++ post).
        { rewrite H2, <- app_assoc, skipn_app, <- H5, skipn_all, Nat.sub_diag.
          reflexivity. }
        assert (R : slice text start (e + 6) = u ++ str "</svg>").
        { unfold slice. rewrite S1.
          rewrite length_app in H3.
          replace (e + 6 - start) with (length (u ++ str "</svg>"))
            by (rewrite length_app; simpl; lia).
          rewrite app_assoc, firstn_app, firstn_all, Nat.sub_diag. simpl.
          apply app_nil_r. }
        rewrite R. exists start, e, pre0, post. repeat split; auto.
        -- apply F.
        -- apply F.
        -- apply Ee.
        -- apply Ee.
        -- rewrite H2, <- !app_assoc. reflexivity.
        -- rewrite length_app in *. simpl. lia.
        -- assert (S2 : skipn start text = o ++ mid ++ ch ">" :: post0).
           { rewrite H4, skipn_app, <- H5, skipn_all, Nat.sub_diag.
             reflexivity. }
           rewrite S1 in S2.
           pose proof (equalsCI_length _ _ Ho) as Lo. simpl in Lo.
           exists o, (skipn 4 (u ++ str "</svg>")). split; [|assumption].
           rewrite <- (firstn_skipn 4 (u ++ str "</svg>")) at 1. f_equal.
           assert (X : firstn 4 (u ++ str "</svg>" ++ post) = o).
           { rewrite S2, <- Lo, firstn_app, firstn_all, Nat.sub_diag.
             simpl. apply app_nil_r. }
           rewrite <- X. rewrite app_assoc.
           rewrite (firstn_app 4 (u ++ str "</svg>")).
           assert (L6 : length (u ++ str "</svg>") = length u + 6)
             by (rewrite length_app; reflexivity).
           replace (4 - length (u ++ str "</svg>")) with 0 by lia.
           simpl. rewrite app_nil_r. reflexivity.
        -- apply endsWith_app.
    + split; [|discriminate]. split; [|reflexivity]. intros _. right.
      exists start. split; [assumption|].
      apply indexOfFrom_None; assumption.
  - split; [|discriminate]. split; [|reflexivity]. intros _. left.
    intros i Ho. rewrite search_None in Es. apply (Es i).
    apply matchesAt_reSvgOpen; assumption.
Qed.

(** C9, the counterexample: the open tag is found in any letter case,
    so the answer need not begin with [<svg] as written. *)
Lemma extractSvgMarkup_keeps_letter_case :
  extractSvgMarkup (str "<SVG></svg>") = Some (str "<SVG></svg>") /\
  startsWith (str "<svg") (str "<SVG></svg>") = false.
Proof. split; vm_compute; reflexivity. Qed.

Lemma extractSvgMarkup_spec_witness :
  exists i j pre post,
    firstAt (openTagAt (str "<p><SVG a>b</svg>c</svg>")) i /\
    firstFrom (occursAt (str "</svg>") (str "<p><SVG a>b</svg>c</svg>")) i j /\
    str "<p><SVG a>b</svg>c</svg>" = pre ++ str "<SVG a>b</svg>" ++ post /\
    length pre = i /\
    length pre + length (str "<SVG a>b</svg>") = j + 6 /\
    (exists o tl, str "<SVG a>b</svg>" = o ++ tl /\ equalsCI o (str "<svg")) /\
    endsWith (str "</svg>") (str "<SVG a>b</svg>") = true.
Proof.
  apply (proj2 (extractSvgMarkup_spec (str "<p><SVG a>b</svg>c</svg>"))
               (str "<SVG a>b</svg>")).
  vm_compute. reflexivity.
Defined.

(** ** The namespace step *)


Lemma ensureNamespace_cases svg :
  ensureNamespace svg = svg \/
  exists f, test reXmlns svg = false /\ firstMatch reSvgTag svg = Some f /\
            ensureNamespace svg =
            (firstn (index f) svg ++ str "<svg") ++ injected ++
            (group 0 f ++ after f).
Proof.
  unfold ensureNamespace. destruct (test reXmlns svg) eqn:T; simpl; [auto|].
  unfold replaceFirst. destruct (firstMatch reSvgTag svg) as [f|] eqn:F; [|auto].
  right. exists f. repeat split. unfold injected.
  rewrite <- !app_assoc. reflexivity.
Qed.


Lemma matchAt_reSvgTag sn t y :
  matchAt reSvgTag sn t = Some y ->
  exists o c, t = o ++ c :: rest y /\ equalsCI o (str "<svg") /\
              (isSpace c = true \/ c = ch ">") /\ caps y = [[c]].
Proof.
  rewrite matchAt_reach. unfold reSvgTag. cbn [seqs].
  rewrite reach_Seq, litCI_classes, reach_classes. cbn [rest].
  destruct (readLit _ t) eqn:E; [|discriminate].
  apply readLit_CI in E. destruct E as [o [post [-> Ho]]].
  pose proof (equalsCI_length _ _ Ho) as L.
  rewrite length_map, <- L.
  rewrite firstn_app, firstn_all, Nat.sub_diag. simpl firstn.
  rewrite app_nil_r. unfold over. cbn [rest seen caps].
  rewrite skipn_app, skipn_all, Nat.sub_diag. cbn [skipn app flat_map].
  rewrite app_nil_r. unfold one. cbn [reach rest seen caps].
  destruct post as [|c post]; [discriminate|].
  assert (C : consumed (MState (c :: post) (rev o ++ sn) [])
                       (MState post (c :: rev o ++ sn) []) = [c]).
  { unfold consumed. cbn [seen]. cbn [length].
    replace (S (length (rev o ++ sn)) - length (rev o ++ sn)) with 1 by lia.
    reflexivity. }
  destruct (isSpace c) eqn:Sp.
  - cbn [map app hd_error]. rewrite C. intros H; injection H as <-.
    exists o, c. auto.
  - destruct (N.eqb_spec (ch ">") c) as [<-|]; [|discriminate].
    cbn [map app hd_error]. rewrite C. intros H; injection H as <-.
    exists o, (ch ">"). auto.
Qed.

(** The namespace step changes nothing, or puts the declaration behind
    the first [<svg] that white space or [>] follows, and nothing else. *)
Lemma ensureNamespace_frame svg :
  ensureNamespace svg = svg \/
  exists pre o c post,
    svg = pre ++ o ++ c :: post /\ equalsCI o (str "<svg") /\
    (isSpace c = true \/ c = ch ">") /\
    ensureNamespace svg = pre ++ str "<svg" ++ injected ++ c :: post.
Proof.
  destruct (ensureNamespace_cases svg) as [E|[f [T [F E]]]]; [auto|].
  right. apply firstMatch_Some in F.
  destruct F as [y [X [H1 [H2 [H3 H4]]]]].
  apply exec_Some in X. destruct X as [t [H5 [H6 _]]].
  rewrite app_nil_r in H6. apply matchAt_reSvgTag in H6.
  destruct H6 as [o [c [-> [Ho [Hc Hy]]]]].
  exists (firstn (index f) svg), o, c, (rest y). repeat split; auto.
  rewrite E. unfold group. rewrite H3, Hy, H4. cbn [nth].
  rewrite <- !app_assoc. reflexivity.
Qed.

(** ** Matching along one path *)


Lemma m_classes ps x k :
  m (seqs (map Class ps)) x k =
  if readLit ps (rest x) then k (over (firstn (length ps) (rest x)) x)
  else None.
Proof.
  rewrite m_reach, reach_classes. destruct (readLit ps (rest x)); simpl.
  - apply orElse_None_r.
  - reflexivity.
Qed.

Lemma m_word ps w t sn cs k :
  readLit ps w = true -> length w = length ps ->
  m (seqs (map Class ps)) (MState (w ++ t) sn cs) k =
  k (MState t (rev w ++ sn) cs).
Proof.
  intros R L. rewrite m_classes. cbn [rest].
  assert (R' : readLit ps (w ++ t) = true).
  { clear L. revert w R. induction ps as [|p ps IH]; intros w R; [reflexivity|].
    destruct w as [|c w]; [discriminate|]. simpl in *.
    apply andb_true_iff in R. destruct R as [-> R]. simpl. auto. }
  rewrite R', <- L, firstn_app, firstn_all, Nat.sub_diag. simpl firstn.
  rewrite app_nil_r. unfold over. cbn [rest seen caps].
  rewrite skipn_app, skipn_all, Nat.sub_diag. reflexivity.
Qed.

Lemma m_star_greedy p s sn cs k z :
  k (MState (dropWhile p s) (rev (takeWhile p s) ++ sn) cs) = Some z ->
  m (Star true (Class p)) (MState s sn cs) k = Some z.
Proof.
  intros H. rewrite m_reach, reach_star_class.
  destruct (runs_rev p s sn cs) as [l ->]. simpl. rewrite H. reflexivity.
Qed.



Lemma dropWhile_stop p s c t :
  forallb p s = true -> p c = false -> dropWhile p (s ++ c :: t) = c :: t.
Proof.
  induction s as [|d s IH]; simpl; intros H Hc.
  - rewrite Hc; reflexivity.
  - apply andb_true_iff in H. destruct H as [-> H]. auto.
Qed.

Lemma takeWhile_stop p s c t :
  forallb p s = true -> p c = false -> takeWhile p (s ++ c :: t) = s.
Proof.
  induction s as [|d s IH]; simpl; intros H Hc.
  - rewrite Hc; reflexivity.
  - apply andb_true_iff in H. destruct H as [-> H]. f_equal; auto.
Qed.

Lemma exec_here r sn s y :
  matchAt r sn s = Some y -> exec r sn s = Some ([], y).
Proof. intros H. destruct s; simpl; rewrite H; reflexivity. Qed.

(** ** Splitting a dash list *)










(** ** Rewriting one dash list *)












(** ** Replacing in a text that is one match, or has none *)

Lemma replaceAll_none r fn s : exec r [] s = None -> replaceAll r fn s = s.
Proof. intros E. unfold replaceAll. cbn [scan]. rewrite E. reflexivity. Qed.







Lemma consumed_over s1 s2 sn c1 c2 w :
  consumed (MState s1 sn c1) (MState s2 (rev w ++ sn) c2) = w.
Proof.
  unfold consumed. cbn [seen]. rewrite length_app, length_rev.
  replace (length w + length sn - length sn) with (length w) by lia.
  rewrite <- length_rev, firstn_app, firstn_all, Nat.sub_diag. simpl.
  rewrite app_nil_r. apply rev_involutive.
Qed.


Lemma m_Seq r1 r2 x k : m (Seq r1 r2) x k = m r1 x (fun y => m r2 y k).
Proof. reflexivity. Qed.

Lemma m_Group r x k :
  m (Group r) x k =
  m r x (fun y => k (MState (rest y) (seen y) (caps y ++ [consumed x y]))).
Proof. reflexivity. Qed.

Lemma m_Class p c s sn cs k :
  m (Class p) (MState (c :: s) sn cs) k =
  if p c then k (MState s (c :: sn) cs) else None.
Proof. reflexivity. Qed.



Lemma forallb_impl {A} (p q : A -> bool) l :
  (forall a, p a = true -> q a = true) ->
  forallb p l = true -> forallb q l = true.
Proof.
  intros I. rewrite !forallb_forall. auto.
Qed.



Lemma fixEntry_valueChars e :
  forallb valueChar e = true -> forallb valueChar (fixEntry e) = true.
Proof.
  intros H. unfold fixEntry. destruct (feqb (Number e) fzero);
    [reflexivity|assumption].
Qed.

Lemma forallb_notin {A} (p : A -> bool) l c :
  forallb p l = true -> p c = false -> ~ In c l.
Proof.
  intros H Hc I. rewrite forallb_forall in H. rewrite (H c I) in Hc.
  discriminate.
Qed.

















(** C8: a root element written [<svg/>] lacks the declaration and gets
    none; neither does a root whose descendant declares the namespace. *)
Theorem sanitizeSvg_root_without_namespace :
  test reXmlns (str "<svg/>") = false /\
  sanitizeSvg (str "<svg/>") = str "<svg/>" /\
  sanitizeSvg (str "<svg width='1'><svg xmlns=" ++ quoted svgNamespace
               ++ str "/></svg>") =
    str "<svg width='1'><svg xmlns=" ++ quoted svgNamespace ++ str "/></svg>".
Proof. vm_compute. repeat split. Qed.

(** C6: [96px], [1in] and [25.4mm] all come to exactly 72 points; a
    size without a unit is taken as pixels at 96 per inch and a size in
    points is passed on unchanged. *)
Theorem toPt_unit_conversion :
  toPt (parseFloat (str "96")) (str "px") = ofNat 72 /\
  toPt (parseFloat (str "1")) (str "in") = ofNat 72 /\
  toPt (parseFloat (str "25.4")) (str "mm") = ofNat 72 /\
  (forall val : float,
     toPt val [] = fmul (fdiv val (ofNat 96)) (ofNat 72) /\
     toPt val (str "px") = fmul (fdiv val (ofNat 96)) (ofNat 72)) /\
  (forall val : float, toPt val (str "pt") = val) /\
  getSvgSize (str "<svg width=" ++ quoted (str "96px") ++ str " height="
              ++ quoted (str "25.4mm") ++ str ">") =
    Some (ofNat 72, ofNat 72) /\
  getSvgSize (str "<svg width=" ++ quoted (str "96") ++ str " height="
              ++ quoted (str "1in") ++ str ">") =
    Some (ofNat 72, ofNat 72) /\
  ofNat 72 = S754_finite false 5066549580791808 (-46).
Proof.
  repeat split; vm_compute; reflexivity.
Qed.

(** ** Names of page units *)

Lemma rev_flat_map {A B} (g : A -> list B) l :
  rev (flat_map g l) = flat_map (fun a => rev (g a)) (rev l).
Proof.
  induction l as [|a l IH]; simpl; [reflexivity|].
  rewrite rev_app_distr, IH, flat_map_app. simpl. rewrite app_nil_r.
  reflexivity.
Qed.

Lemma lowerUnit_cases c :
  (isUpper c = true /\ lowerUnit c = [(c + 32)%N]) \/
  (c = 304%N /\ lowerUnit c = [105%N; 775%N]) \/
  (c = 8490%N /\ lowerUnit c = [107%N]) \/
  (isUpper c = false /\ lowerUnit c = [c]).
Proof.
  unfold lowerUnit. destruct (isUpper c) eqn:U; [auto|].
  destruct (N.eqb_spec c 304) as [->|]; [auto|].
  destruct (N.eqb_spec c 8490) as [->|]; auto.
Qed.

Lemma isUpper_range c : isUpper c = true <-> (65 <= c <= 90)%N.
Proof.
  unfold isUpper. rewrite andb_true_iff, !N.leb_le. tauto.
Qed.

Lemma isLower_range c : isLower c = true <-> (97 <= c <= 122)%N.
Proof.
  unfold isLower. rewrite andb_true_iff, !N.leb_le. tauto.
Qed.

(** A code unit whose lower case ends with one of the letters of the
    suffix is that letter or its capital. *)
Lemma lowered_head c t s tl :
  ((97 <= t <= 122)%N /\ t <> 107%N) \/ t = 46%N ->
  rev (lowerUnit c) ++ s = t :: tl ->
  s = tl /\ canonicalize c = canonicalize t.
Proof.
  intros Ht H.
  destruct (lowerUnit_cases c) as [[U E]|[[-> E]|[[-> E]|[U E]]]];
    rewrite E in H; simpl in H; injection H as H1 H2.
  - split; [assumption|]. apply isUpper_range in U.
    unfold canonicalize.
    replace (isLower c) with false
      by (symmetry; apply not_true_iff_false; rewrite isLower_range; lia).
    destruct Ht as [[Ht _]| ->]; [|lia].
    replace (isLower t) with true by (symmetry; apply isLower_range; lia).
    lia.
  - exfalso. destruct Ht as [[Ht _]| ->]; lia.
  - exfalso. destruct Ht as [[_ Ht]| ->]; [congruence|discriminate].
  - subst t s. split; reflexivity.
Qed.

Lemma canonicalize_letter c t :
  ((97 <= t <= 122)%N \/ t = 46%N) ->
  canonicalize c = canonicalize t -> lowerUnit c = [t].
Proof.
  intros Ht H. unfold canonicalize in H.
  destruct (isLower c) eqn:Lc; destruct (isLower t) eqn:Lt.
  - apply isLower_range in Lc, Lt.
    assert (c = t) by lia. subst c. unfold lowerUnit.
    replace (isUpper t) with false
      by (symmetry; apply not_true_iff_false; rewrite isUpper_range; lia).
    destruct (N.eqb_spec t 304); [lia|].
    destruct (N.eqb_spec t 8490); [lia|]. reflexivity.
  - apply isLower_range in Lc. destruct Ht as [Ht| ->]; [|lia].
    apply not_true_iff_false in Lt. rewrite isLower_range in Lt. lia.
  - apply isLower_range in Lt. unfold lowerUnit.
    replace (isUpper c) with true by (symmetry; apply isUpper_range; lia).
    f_equal. lia.
  - subst c. destruct Ht as [Ht| ->].
    + apply not_true_iff_false in Lt. rewrite isLower_range in Lt. lia.
    + reflexivity.
Qed.

Lemma isSvgFile_spec f : isSvgFile f = true <-> hasSvgSuffix f.
Proof.
  unfold isSvgFile, endsWith, toLowerCase, hasSvgSuffix, equalsCI.
  rewrite rev_flat_map. split.
  - intros H. apply startsWith_true in H. destruct H as [post H].
    remember (rev f) as r eqn:Er.
    change (rev (str ".svg") ++ post)
      with (103%N :: 118%N :: 115%N :: 46%N :: post) in H.
    destruct r as [|c1 r]; [discriminate|]. cbn [flat_map] in H.
    apply lowered_head in H; [|left; lia]. destruct H as [H C1].
    destruct r as [|c2 r]; [discriminate|]. cbn [flat_map] in H.
    apply lowered_head in H; [|left; lia]. destruct H as [H C2].
    destruct r as [|c3 r]; [discriminate|]. cbn [flat_map] in H.
    apply lowered_head in H; [|left; lia]. destruct H as [H C3].
    destruct r as [|c4 r]; [discriminate|]. cbn [flat_map] in H.
    apply lowered_head in H; [|right; reflexivity]. destruct H as [H C4].
    exists (rev r), [c4; c3; c2; c1]. split.
    + rewrite <- (rev_involutive f), <- Er. simpl.
      rewrite <- !app_assoc. reflexivity.
    + simpl. rewrite C1, C2, C3, C4. reflexivity.
  - intros [stem [ext [-> H]]].
    destruct ext as [|c4 [|c3 [|c2 [|c1 [|]]]]]; try discriminate.
    simpl in H. injection H as C4 C3 C2 C1.
    rewrite rev_app_distr. simpl.
    apply canonicalize_letter in C1; [|left; lia].
    apply canonicalize_letter in C2; [|left; lia].
    apply canonicalize_letter in C3; [|left; lia].
    apply canonicalize_letter in C4; [|right; reflexivity].
    rewrite C1, C2, C3, C4. reflexivity.
Qed.

(** ** Sorting *)







(** ** The effects of an assembly *)


Lemma opensOutput_app t1 t2 :
  opensOutput (t1 ++ t2) = opensOutput t1 || opensOutput t2.
Proof. unfold opensOutput. apply existsb_app. Qed.


Section AssemblerProperties.

Variable localeCompare : jsstring -> jsstring -> Z.
Variable path_join : jsstring -> jsstring -> jsstring.
Variable basename : jsstring -> jsstring.
Variable readdir : jsstring -> option (list jsstring).
Variable readFile : jsstring -> option jsstring.
Variable safeFileName : jsstring -> jsstring.
Variable sharp : jsstring -> option (list N * float * float).

Lemma no_units names :
  (forall f, In f names -> ~ hasSvgSuffix f) ->
  svgFilesOf localeCompare names = [].
Proof.
  intros H. unfold svgFilesOf.
  replace (filter isSvgFile names) with (@nil jsstring); [reflexivity|].
  symmetry. induction names as [|f names IH]; [reflexivity|]. simpl.
  destruct (isSvgFile f) eqn:E.
  - exfalso. apply (H f); [left; reflexivity|]. apply isSvgFile_spec; assumption.
  - apply IH. intros g Hg. apply H. right; assumption.
Qed.

(** C5: on a directory without a single name that ends in [.svg], in
    whatever letter case, the assembly throws an error that names the
    directory, and it does so before it opens, pipes or writes an
    output file; this holds for [download.ts] and for [svg2pdf.ts]. *)
Theorem svgFolderToPdf_no_units :
  forall (dir : jsstring) (names : list jsstring),
    readdir dir = Some names ->
    (forall f, In f names -> ~ hasSvgSuffix f) ->
    let run := svgFolderToPdf localeCompare path_join basename readdir
                 readFile safeFileName dir in
    let runRaster := svgFolderToPdfRaster localeCompare path_join basename
                       readdir readFile sharp dir in
    result run = inl (Error (str "no .svg files in " ++ quoted dir)) /\
    opensOutput (trace run) = false /\
    filesRead (trace run) = [] /\
    result runRaster =
      inl (Error (str "no .svg files found in " ++ [8220%N] ++ dir
                  ++ [8221%N])) /\
    opensOutput (trace runRaster) = false /\
    trace runRaster = [ReadDir dir].
Proof.
  intros dir names Hd Hn run runRaster.
  pose proof (no_units names Hn) as E.
  unfold run, runRaster, svgFolderToPdf, svgFolderToPdfRaster, fsReaddir.
  rewrite Hd. cbn [bind emit ret throw app]. rewrite E.
  cbn. repeat split.
Qed.




End AssemblerProperties.


Lemma svgFolderToPdf_no_units_witness :
  result (svgFolderToPdf byPageNumber exampleJoin (fun d => d)
            (exampleReaddir [str "notes.txt"; str "Recht.pdf"])
            exampleReadFile (fun d => d) (str "books/Recht"))
  = inl (Error (str "no .svg files in " ++ quoted (str "books/Recht"))).
Proof.
  refine (proj1 (svgFolderToPdf_no_units byPageNumber exampleJoin (fun d => d)
                   (exampleReaddir [str "notes.txt"; str "Recht.pdf"])
                   exampleReadFile (fun d => d) exampleSharp
                   (str "books/Recht") [str "notes.txt"; str "Recht.pdf"]
                   eq_refl _)).
  intros f [<-|[<-|[]]] H; apply isSvgFile_spec in H; discriminate H.
Defined.


(** ** Splitting on a string *)

Lemma splitOn_nonempty sep : forall fuel piece s, splitOn sep fuel piece s <> [].
Proof.
  induction fuel as [|fuel IH]; intros piece s; simpl; [discriminate|].
  destruct s as [|c s]; [discriminate|].
  destruct (startsWith sep (c :: s)); [discriminate|apply IH].
Qed.

Lemma join_cons sep a l :
  l <> [] -> join sep (a :: l) = a ++ sep ++ join sep l.
Proof. destruct l; [congruence|reflexivity]. Qed.

Lemma app_snoc_split {A} (a b l : list A) c :
  a ++ b = l ++ [c] -> b <> [] -> exists b', b = b' ++ [c] /\ a ++ b' = l.
Proof.
  intros H Hb. destruct (exists_last Hb) as [b' [c' ->]].
  rewrite app_assoc in H. apply app_inj_tail in H. destruct H as [H ->].
  exists b'. auto.
Qed.

Lemma splitOn_spec sep :
  sep <> [] ->
  forall fuel piece s,
    length s < fuel ->
    (forall a b, rev piece = a ++ b -> b <> [] ->
                 startsWith sep (b ++ s) = false) ->
    join sep (splitOn sep fuel piece s) = rev piece ++ s /\
    forall p, In p (splitOn sep fuel piece s) -> ~ occurs sep p.
Proof.
  intros Hsep. induction fuel as [|fuel IH]; intros piece s L Inv; [lia|].
  assert (Free : forall t, (forall a b, rev piece = a ++ b -> b <> [] ->
                                  startsWith sep (b ++ t) = false) ->
                           ~ occurs sep (rev piece)).
  { intros t I [a [c E]].
    assert (X : startsWith sep ((sep ++ c) ++ t) = true).
    { apply startsWith_true. exists (c ++ t). rewrite app_assoc. reflexivity. }
    rewrite (I a (sep ++ c) E) in X; [discriminate|].
    destruct sep; [congruence|discriminate]. }
  cbn [splitOn]. destruct s as [|c s].
  - split; [simpl; rewrite app_nil_r; reflexivity|].
    intros p [<-|[]]. apply (Free []). exact Inv.
  - destruct (startsWith sep (c :: s)) eqn:E.
    + apply startsWith_true in E. destruct E as [t E].
      assert (Lt : length t < fuel).
      { apply (f_equal (@length _)) in E. rewrite length_app in E.
        simpl in E, L. destruct sep; [congruence|]. simpl in E. lia. }
      assert (Sk : skipn (length sep) (c :: s) = t).
      { rewrite E, skipn_app, skipn_all, Nat.sub_diag. reflexivity. }
      rewrite Sk.
      destruct (IH [] t Lt) as [J F].
      { intros a b H Hb. destruct a; destruct b; try discriminate. congruence. }
      split.
      * rewrite join_cons by apply splitOn_nonempty. rewrite J, E. reflexivity.
      * intros p [<-|Hp]; [apply (Free (c :: s)); exact Inv|auto].
    + destruct (IH (c :: piece) s) as [J F].
      * simpl in L. lia.
      * intros a b H Hb. cbn [rev] in H.
        destruct (app_snoc_split _ _ _ _ (eq_sym H) Hb) as [b' [-> H']].
        rewrite <- app_assoc. cbn [app].
        destruct b' as [|x b']; [exact E|].
        apply (Inv a (x :: b')); [symmetry; exact H'|discriminate].
      * split; [|exact F]. rewrite J. cbn [rev]. rewrite <- app_assoc.
        reflexivity.
Qed.

(** [split] and [join] replace every occurrence of the separator. *)
Lemma split_spec sep s :
  sep <> [] ->
  join sep (split sep s) = s /\
  forall p, In p (split sep s) -> ~ occurs sep p.
Proof.
  intros H. unfold split.
  destruct (splitOn_spec sep H (S (length s)) [] s) as [J F]; [lia| |auto].
  intros a b E Hb. destruct a; destruct b; try discriminate. congruence.
Qed.

(** ** The captures of a match *)

Lemma In_reach_Seq r1 r2 x y :
  In y (reach (Seq r1 r2) x) <->
  exists z, In z (reach r1 x) /\ In y (reach r2 z).
Proof. cbn [reach]. apply in_flat_map. Qed.

Lemma iterateL_caps step g :
  (forall x y, In y (step x) -> caps y = caps x) ->
  forall n x y, In y (iterateL step g n x) -> caps y = caps x.
Proof.
  intros Hs. induction n as [|n IH]; intros x y; simpl.
  - intros [<-|[]]; reflexivity.
  - assert (A : In y (flat_map
                   (fun y0 => if length (rest y0) <? length (rest x)
                              then iterateL step g n y0 else []) (step x)) ->
                caps y = caps x).
    { rewrite in_flat_map. intros [y0 [H0 H1]].
      destruct (length (rest y0) <? length (rest x)); [|destruct H1].
      rewrite (IH _ _ H1). apply Hs; assumption. }
    destruct g.
    + rewrite in_app_iff. intros [H|[<-|[]]]; auto.
    + intros [<-|H]; auto.
Qed.

Lemma reach_caps r :
  groupFree r = true -> forall x y, In y (reach r x) -> caps y = caps x.
Proof.
  induction r as [|p|r1 IH1 r2 IH2|r1 IH1 r2 IH2|g r1 IH1|r1 IH1|];
    intros G x y; cbn [reach]; simpl in G.
  - intros [<-|[]]; reflexivity.
  - destruct (rest x) as [|c s]; [intros []|].
    destruct (p c); [|intros []]. intros [<-|[]]. reflexivity.
  - apply andb_true_iff in G. destruct G as [G1 G2].
    rewrite in_flat_map. intros [z [H1 H2]].
    rewrite (IH2 G2 _ _ H2). apply IH1; assumption.
  - apply andb_true_iff in G. destruct G as [G1 G2].
    rewrite in_app_iff. intros [H|H]; auto.
  - apply iterateL_caps. apply IH1; assumption.
  - discriminate.
  - destruct (xorb _ _); [|intros []]. intros [<-|[]]; reflexivity.
Qed.

Lemma consumed_extends x z w :
  rest x = w ++ rest z -> seen z = rev w ++ seen x -> consumed x z = w.
Proof.
  intros _ H. destruct x as [s1 sn c1]. destruct z as [s2 sn2 c2].
  simpl in H. subst sn2. apply consumed_over.
Qed.

Lemma In_reach_Group r x y :
  In y (reach (Group r) x) <->
  exists u, In u (reach r x) /\
            y = MState (rest u) (seen u) (caps u ++ [consumed x u]).
Proof.
  cbn [reach]. rewrite in_map_iff. split; intros [u [H1 H2]]; exists u; auto.
Qed.

Lemma class_then_progress p g x u :
  In u (reach (Seq (Class p) g) x) -> consumed x u <> [].
Proof.
  intros Hu. pose proof (reach_extends _ _ _ Hu) as [w [E1 E2]].
  rewrite (consumed_extends _ _ _ E1 E2).
  apply In_reach_Seq in Hu. destruct Hu as [v [Hv Hu]].
  cbn [reach] in Hv. destruct (rest x) as [|c s] eqn:Ex; [destruct Hv|].
  destruct (p c); [|destruct Hv]. destruct Hv as [<-|[]].
  pose proof (reach_extends _ _ _ Hu) as [w' [E3 _]]. cbn [rest] in E3.
  intros ->. simpl in E1. apply (f_equal (@length _)) in E1, E3.
  rewrite length_app in E3. simpl in E1. lia.
Qed.

(** A group around [p] and more captures text that is not empty. *)
Lemma group_capture p g post x y :
  groupFree g = true -> groupFree post = true ->
  In y (reach (Seq (Group (Seq (Class p) g)) post) x) ->
  exists w, w <> [] /\ caps y = caps x ++ [w].
Proof.
  intros Gg Gp H. apply In_reach_Seq in H. destruct H as [z [Hz Hy]].
  apply In_reach_Group in Hz. destruct Hz as [u [Hu ->]].
  rewrite (reach_caps post Gp _ _ Hy). cbn [caps].
  assert (Cu : caps u = caps x).
  { apply (reach_caps (Seq (Class p) g)); [simpl; assumption|exact Hu]. }
  rewrite Cu. exists (consumed x u). split; [|reflexivity].
  eapply class_then_progress; eassumption.
Qed.

Lemma seq_capture a r (P : list jsstring -> Prop) :
  groupFree a = true ->
  (forall x y, caps x = [] -> In y (reach r x) -> P (caps y)) ->
  forall x y, caps x = [] -> In y (reach (Seq a r) x) -> P (caps y).
Proof.
  intros Ga H x y Cx Hy. apply In_reach_Seq in Hy. destruct Hy as [z [Hz Hy]].
  apply (H z y); [|assumption]. rewrite (reach_caps a Ga _ _ Hz). assumption.
Qed.

Lemma group_captured p g post x y :
  groupFree g = true -> groupFree post = true -> caps x = [] ->
  In y (reach (Seq (Group (Seq (Class p) g)) post) x) -> captured (caps y).
Proof.
  intros Gg Gp Cx H. destruct (group_capture _ _ _ _ _ Gg Gp H) as [w [Hw E]].
  unfold captured. rewrite E, Cx. exact Hw.
Qed.

Lemma urlAttr_captured x y :
  caps x = [] -> In y (reach urlAttr x) -> captured (caps y).
Proof.
  unfold urlAttr, Plus. cbn [seqs].
  repeat (apply seq_capture; [reflexivity|]).
  intros x' y' C H.
  change (Seq (Group (Seq (noneOf [dq; sq]) (Star true (noneOf [dq; sq]))))
              (oneOf [dq; sq]))
    with (Seq (Group (Seq (Class (fun d => negb (existsb (N.eqb d) [dq; sq])))
                          (Star true (noneOf [dq; sq]))))
              (oneOf [dq; sq])) in H.
  eapply group_captured; try eassumption; reflexivity.
Qed.

Lemma cssUrl_captured x y :
  caps x = [] -> In y (reach cssUrl x) -> captured (caps y).
Proof.
  unfold cssUrl, Plus. cbn [seqs].
  repeat (apply seq_capture; [reflexivity|]).
  intros x' y' C H.
  change (Seq (Group (Seq (noneOf [dq; sq; ch ")"])
                          (Star true (noneOf [dq; sq; ch ")"]))))
              (Seq (alts [one sq; one dq; Empty]) (one (ch ")"))))
    with (Seq (Group (Seq (Class (fun d => negb (existsb (N.eqb d) [dq; sq; ch ")"])))
                          (Star true (noneOf [dq; sq; ch ")"]))))
              (Seq (alts [one sq; one dq; Empty]) (one (ch ")")))) in H.
  eapply group_captured; try eassumption; reflexivity.
Qed.

(** ** The references of a page *)

Lemma scan_found r : forall fuel sn s p,
  In p (fst (scan fuel r sn s)) ->
  exists sn' t y, matchAt r sn' t = Some y /\ groups (snd p) = caps y.
Proof.
  induction fuel as [|fuel IH]; intros sn s p; cbn [scan]; [intros []|].
  destruct (exec r sn s) as [[sk y]|] eqn:E; [|intros []].
  apply exec_Some in E. destruct E as [t [_ [M _]]].
  assert (Here : forall w a,
            exists sn' t' y', matchAt r sn' t' = Some y' /\
              groups (snd (sk, Found (length sn + length sk) w (caps y) a))
              = caps y').
  { intros w a. exists (rev sk ++ sn), t, y. auto. }
  destruct (firstn _ _) as [|c0 w0].
  - destruct (rest y) as [|c t'].
    + intros [<-|[]]. apply Here.
    + specialize (IH (c :: seen y) t').
      destruct (scan fuel r (c :: seen y) t') as [ms tl].
      cbn [fst]. intros [<-|H]; [apply Here|].
      destruct ms as [|[sk' f'] ms']; [destruct H|].
      destruct H as [<-|H].
      * apply (IH (sk', f')). left; reflexivity.
      * apply IH. right; assumption.
  - specialize (IH (seen y) (rest y)).
    destruct (scan fuel r (seen y) (rest y)) as [ms tl].
    cbn [fst]. intros [<-|H]; [apply Here|apply IH; assumption].
Qed.

Lemma matchAll_captured r s f :
  (forall x y, caps x = [] -> In y (reach r x) -> captured (caps y)) ->
  In f (matchAll r s) -> group 0 f <> [].
Proof.
  intros C H. unfold matchAll in H. apply in_map_iff in H.
  destruct H as [p [<- Hp]]. apply scan_found in Hp.
  destruct Hp as [sn' [t [y [M G]]]]. unfold group. rewrite G.
  apply (C (MState t sn' []) y eq_refl).
  rewrite matchAt_reach in M.
  destruct (reach r (MState t sn' [])); [discriminate|].
  injection M as ->. left; reflexivity.
Qed.

Lemma In_setAdd l : forall acc r,
  In r (fold_left setAdd l acc) -> In r acc \/ In r l.
Proof.
  induction l as [|a l IH]; intros acc r H; simpl in *; [auto|].
  apply IH in H. destruct H as [H|H]; [|auto].
  unfold setAdd in H. destruct (existsb (eqs a) acc); [auto|].
  apply in_app_or in H. destruct H as [H|[<-|[]]]; auto.
Qed.

Lemma references_nonempty svgText r : In r (references svgText) -> r <> [].
Proof.
  unfold references. intros H.
  apply In_setAdd in H. destruct H as [H|H].
  - apply In_setAdd in H. destruct H as [[]|H].
    apply in_map_iff in H. destruct H as [f [<- Hf]].
    eapply matchAll_captured; [|eassumption]. apply urlAttr_captured.
  - apply in_map_iff in H. destruct H as [f [<- Hf]].
    eapply matchAll_captured; [|eassumption]. apply cssUrl_captured.
Qed.

Lemma externals_spec svgText r :
  In r (externals svgText) ->
  r <> [] /\ startsWith (str "data:") r = false /\
  startsWith (str "#") r = false.
Proof.
  unfold externals, isExternal. intros H. apply filter_In in H.
  destruct H as [H1 H2]. apply andb_true_iff in H2. destruct H2 as [A B].
  apply negb_true_iff in A, B.
  split; [eapply references_nonempty; eassumption|auto].
Qed.

(** ** The shape of a match, piece by piece *)

Lemma In_reach_litCI s x y :
  In y (reach (litCI s) x) ->
  exists o, rest x = o ++ rest y /\ equalsCI o (str s) /\ caps y = caps x.
Proof.
  rewrite litCI_classes, reach_classes.
  destruct (readLit _ (rest x)) eqn:E; [|intros []].
  intros [<-|[]]. apply readLit_CI in E. destruct E as [o [post [E Ho]]].
  pose proof (equalsCI_length _ _ Ho) as L.
  exists o. unfold over. cbn [rest caps]. rewrite length_map, <- L, E.
  rewrite firstn_app, firstn_all, Nat.sub_diag. cbn [firstn].
  rewrite app_nil_r, skipn_app, skipn_all, Nat.sub_diag. auto.
Qed.

Lemma In_reach_Class p x y :
  In y (reach (Class p) x) ->
  exists c, rest x = c :: rest y /\ p c = true /\ caps y = caps x.
Proof.
  cbn [reach]. destruct (rest x) as [|c s]; [intros []|].
  destruct (p c) eqn:E; [|intros []]. intros [<-|[]]. exists c. auto.
Qed.

Lemma In_reach_star_class g p x y :
  In y (reach (Star g (Class p)) x) ->
  exists w, rest x = w ++ rest y /\ forallb p w = true /\ caps y = caps x.
Proof.
  destruct x as [s sn cs]. rewrite reach_star_class. intros H.
  assert (H' : In y (runs p s sn cs)).
  { destruct g; [apply in_rev|]; exact H. }
  apply In_runs in H'. destruct H' as [w [t [-> [Hw ->]]]].
  exists w. auto.
Qed.

Lemma In_reach_plus_class g p x y :
  In y (reach (Plus g (Class p)) x) ->
  exists w, w <> [] /\ rest x = w ++ rest y /\ forallb p w = true /\
            caps y = caps x.
Proof.
  unfold Plus. intros H. apply In_reach_Seq in H. destruct H as [z [Hz Hy]].
  apply In_reach_Class in Hz. destruct Hz as [c [E1 [Hc C1]]].
  apply In_reach_star_class in Hy. destruct Hy as [w [E2 [Hw C2]]].
  exists (c :: w). repeat split.
  - discriminate.
  - rewrite E1, E2. reflexivity.
  - simpl. rewrite Hc, Hw. reflexivity.
  - congruence.
Qed.

Lemma In_reach_group_plus g p x y :
  In y (reach (Group (Plus g (Class p))) x) ->
  exists w, w <> [] /\ rest x = w ++ rest y /\ forallb p w = true /\
            caps y = caps x ++ [w].
Proof.
  intros H. apply In_reach_Group in H. destruct H as [u [Hu ->]].
  pose proof (reach_extends _ _ _ Hu) as [w' [E1 E2]].
  apply In_reach_plus_class in Hu. destruct Hu as [w [Hw [E [Fw Cu]]]].
  assert (w' = w).
  { rewrite E in E1. apply app_inv_tail in E1. congruence. }
  subst w'. exists w. cbn [rest caps].
  rewrite Cu, (consumed_extends _ _ _ E E2). auto.
Qed.

Lemma matchAt_reImg sn t y :
  matchAt reImg sn t = Some y ->
  exists tag src, t = tag ++ rest y /\ imgTagWithSrc tag src /\ caps y = [src].
Proof.
  rewrite matchAt_reach. intros H.
  assert (I : In y (reach reImg (MState t sn []))).
  { destruct (reach reImg (MState t sn [])); [discriminate|].
    injection H as ->. left; reflexivity. }
  clear H. unfold reImg in I. cbn [seqs] in I.
  apply In_reach_Seq in I. destruct I as [x1 [H1 I]].
  apply In_reach_Seq in I. destruct I as [x2 [H2 I]].
  apply In_reach_Seq in I. destruct I as [x3 [H3 I]].
  apply In_reach_Seq in I. destruct I as [x4 [H4 I]].
  apply In_reach_Seq in I. destruct I as [x5 [H5 H6]].
  apply In_reach_litCI in H1. destruct H1 as [o [E1 [Ho C1]]].
  apply In_reach_plus_class in H2. destruct H2 as [attrs [Ha [E2 [Fa C2]]]].
  apply In_reach_litCI in H3. destruct H3 as [k [E3 [Hk C3]]].
  apply In_reach_Class in H4. destruct H4 as [q1 [E4 [Q1 C4]]].
  apply In_reach_group_plus in H5. destruct H5 as [src [Hs [E5 [Fs C5]]]].
  apply In_reach_Class in H6. destruct H6 as [q2 [E6 [Q2 C6]]].
  cbn [rest caps] in *.
  exists (o ++ attrs ++ k ++ q1 :: src ++ [q2]), src. split; [|split].
  - rewrite E1, E2, E3, E4, E5, E6. rewrite <- !app_assoc. cbn [app].
    rewrite <- !app_assoc. reflexivity.
  - exists o, attrs, k, q1, q2. repeat split; auto.
    apply (forallb_notin _ _ _ Fa). reflexivity.
  - rewrite C6, C5, C4, C3, C2, C1. reflexivity.
Qed.

(** What [reImg] finds is an [<img] tag with a [src] attribute, and its
    capture is the value of that attribute. *)
Lemma firstMatch_reImg text img :
  firstMatch reImg text = Some img ->
  exists pre, text = pre ++ whole img ++ after img /\
              length pre = index img /\
              imgTagWithSrc (whole img) (group 0 img).
Proof.
  intros H. apply firstMatch_Some in H.
  destruct H as [y [X [H1 [H2 [H3 H4]]]]].
  apply exec_Some in X. destruct X as [t [H5 [H6 _]]].
  rewrite app_nil_r in H6. apply matchAt_reImg in H6.
  destruct H6 as [tag [src [E [T C]]]].
  exists (firstn (index img) text). split; [exact H1|]. split; [auto|].
  assert (W : whole img = tag).
  { rewrite H5 in H1 at 1. apply app_inv_head in H1.
    rewrite E, H4 in H1. apply app_inv_tail in H1. congruence. }
  unfold group. rewrite W, H3, C. exact T.
Qed.

(** ** The fuel of [scan] *)

(** The bound [matchAll] and [replaceAll] give [scan] is never used
    up: any larger one gives the same matches. *)
Lemma scan_fuel r : forall fuel fuel' sn s,
  length s < fuel -> length s < fuel' ->
  scan fuel r sn s = scan fuel' r sn s.
Proof.
  induction fuel as [|fuel IH]; intros fuel' sn s L L'; [lia|].
  destruct fuel' as [|fuel']; [lia|]. cbn [scan].
  destruct (exec r sn s) as [[sk y]|] eqn:E; [|reflexivity].
  pose proof E as E'. apply exec_Some in E'. destruct E' as [t [E1 [M _]]].
  apply matchAt_extends in M. destruct M as [w [E2 _]].
  assert (Ls : length s = length sk + length w + length (rest y)).
  { rewrite E1, E2, !length_app. lia. }
  destruct (firstn (length s - length sk - length (rest y))
                   (skipn (length sk) s)) as [|c0 w0] eqn:W.
  - destruct (rest y) as [|c t'] eqn:R; [reflexivity|].
    rewrite (IH fuel' (c :: seen y) t') by (simpl in Ls; lia). reflexivity.
  - assert (length (rest y) < length s).
    { destruct (length s - length sk - length (rest y)) eqn:D;
        [discriminate W|lia]. }
    rewrite (IH fuel' (seen y) (rest y)) by lia. reflexivity.
Qed.

Section ResolverProperties.

Variable URL_href : jsstring -> jsstring -> option jsstring.
Variable extname : jsstring -> jsstring.
Variable utf8 : list N -> jsstring.
Variable fetch : request -> fetched.

Lemma dataUri_locator mime buf : startsWith (str "data:") (dataUri mime buf) = true.
Proof. reflexivity. Qed.





Lemma splitJoin_replacesAll r uri text :
  r <> [] -> replacesAll r uri text (splitJoin r uri text).
Proof.
  intros H. destruct (split_spec r text H) as [J F].
  exists (split r text). repeat split; auto.
Qed.



(** C4, amended: for a reference whose response is OK and declares no
    image type, the callback looks for an [<img] tag with a [src]
    attribute in the body, resolves that source against the absolute
    location of the reference and fetches it with that location as
    referer; when the source resolves, an OK answer with an image type
    is embedded and every other answer, a failed fetch included, gives
    the fixed 1x1 transparent PNG, as does a body without such a tag. *)
Theorem salvage_outcomes :
  forall (ctx : list cookieT) (svgUrl ref abs : jsstring) (res : response),
    URL_href ref svgUrl = Some abs ->
    fetch (assetRequest extname ctx svgUrl abs) = Settled res ->
    ok res = true ->
    startsWith (str "image/") (mimeOf res) = false ->
    (firstMatch reImg (utf8 (body res)) = None ->
     inlineOne URL_href extname utf8 fetch ctx svgUrl ref = Substituted placeholder) /\
    (forall img,
       firstMatch reImg (utf8 (body res)) = Some img ->
       exists pre,
         utf8 (body res) = pre ++ whole img ++ after img /\
         imgTagWithSrc (whole img) (group 0 img)) /\
    (forall img imgAbs,
       firstMatch reImg (utf8 (body res)) = Some img ->
       URL_href (group 0 img) abs = Some imgAbs ->
       (forall imgRes,
          fetch (imgRequest extname ctx abs imgAbs) = Settled imgRes ->
          ok imgRes = true ->
          startsWith (str "image/") (mimeOf imgRes) = true ->
          inlineOne URL_href extname utf8 fetch ctx svgUrl ref =
          Substituted (dataUri (mimeOf imgRes) (body imgRes))) /\
       (forall imgRes,
          fetch (imgRequest extname ctx abs imgAbs) = Settled imgRes ->
          ok imgRes = false \/
          startsWith (str "image/") (mimeOf imgRes) = false ->
          inlineOne URL_href extname utf8 fetch ctx svgUrl ref = Substituted placeholder) /\
       (fetch (imgRequest extname ctx abs imgAbs) = NetworkError ->
        inlineOne URL_href extname utf8 fetch ctx svgUrl ref = Substituted placeholder)) /\
    (forall uri text,
       inlineOne URL_href extname utf8 fetch ctx svgUrl ref = Substituted uri -> ref <> [] ->
       replacesAll ref uri text
         (applyOutcome ref (inlineOne URL_href extname utf8 fetch ctx svgUrl ref) text)).
Proof.
  intros ctx svgUrl ref abs res Hu Hf Hok Hm.
  assert (E : inlineOne URL_href extname utf8 fetch ctx svgUrl ref
              = salvage URL_href extname utf8 fetch ctx abs res).
  { unfold inlineOne. rewrite Hu, Hf, Hok, Hm. reflexivity. }
  split; [|split; [|split]].
  - intros H. rewrite E. unfold salvage. rewrite H. reflexivity.
  - intros img Hi. destruct (firstMatch_reImg _ _ Hi) as [pre [H1 [_ H2]]].
    exists pre. auto.
  - intros img imgAbs Hi Hr. rewrite E. unfold salvage. rewrite Hi, Hr.
    split; [|split].
    + intros imgRes -> -> ->. reflexivity.
    + intros imgRes -> [-> | H]; [reflexivity|].
      rewrite H. destruct (ok imgRes); reflexivity.
    + intros ->. reflexivity.
  - intros uri text H Hne. rewrite H. cbn [applyOutcome].
    apply splitJoin_replacesAll; assumption.
Qed.

End ResolverProperties.


(** C4, the counterexample: the 404 response to [img/2.png] declares
    [text/html], no image type, and the reference is neither salvaged
    nor replaced by the placeholder. *)
Lemma inlineOne_skips_failed_response :
  exampleFetch (assetRequest exampleExtname [] exampleOrigin
                  (str "https://a.digi4school.at/ebook/42/img/2.png"))
  = Settled (Response false 404 (Some (str "text/html; charset=utf-8"))
               (str "<html>Not Found</html>")) /\
  startsWith (str "image/")
    (mimeOf (Response false 404 (Some (str "text/html; charset=utf-8"))
               (str "<html>Not Found</html>"))) = false /\
  inlineOne exampleURL exampleExtname exampleUtf8 exampleFetch []
    exampleOrigin (str "img/2.png") = Kept /\
  inlineOne exampleURL exampleExtname exampleUtf8 exampleFetch []
    exampleOrigin (str "img/2.png") <> Substituted placeholder /\
  applyOutcome (str "img/2.png")
    (inlineOne exampleURL exampleExtname exampleUtf8 exampleFetch []
       exampleOrigin (str "img/2.png")) examplePage = examplePage.
Proof.
  split; [vm_compute; reflexivity|]. split; [vm_compute; reflexivity|].
  split; [vm_compute; reflexivity|].
  split; [vm_compute; discriminate|vm_compute; reflexivity].
Qed.


Lemma salvage_outcomes_witness :
  inlineOne exampleURL exampleExtname exampleUtf8 exampleFetch []
    exampleOrigin (str "img/wrapped.jpg")
  = Substituted (dataUri (str "image/jpeg") [255; 216; 255]%N).
Proof.
  assert (A : exampleURL (str "img/wrapped.jpg") exampleOrigin
              = Some (str "https://a.digi4school.at/ebook/42/img/wrapped.jpg"))
    by (vm_compute; reflexivity).
  assert (B : exampleFetch
                (assetRequest exampleExtname [] exampleOrigin
                   (str "https://a.digi4school.at/ebook/42/img/wrapped.jpg"))
              = Settled (Response true 200 (Some (str "text/html"))
                           (str "<html><img alt='' src='raw.jpeg'></html>")))
    by (vm_compute; reflexivity).
  destruct (salvage_outcomes exampleURL exampleExtname exampleUtf8 exampleFetch
              [] exampleOrigin (str "img/wrapped.jpg") _ _ A B eq_refl
              ltac:(vm_compute; reflexivity)) as [_ [_ [H _]]].
  assert (C : firstMatch reImg
                (exampleUtf8
                   (body (Response true 200 (Some (str "text/html"))
                            (str "<html><img alt='' src='raw.jpeg'></html>"))))
              = Some exampleImg)
    by (vm_compute; reflexivity).
  assert (D : exampleURL (group 0 exampleImg)
                (str "https://a.digi4school.at/ebook/42/img/wrapped.jpg")
              = Some (str "https://a.digi4school.at/ebook/42/img/raw.jpeg"))
    by (vm_compute; reflexivity).
  destruct (H exampleImg _ C D) as [H1 _].
  assert (F : exampleFetch
                (imgRequest exampleExtname []
                   (str "https://a.digi4school.at/ebook/42/img/wrapped.jpg")
                   (str "https://a.digi4school.at/ebook/42/img/raw.jpeg"))
              = Settled (Response true 200 (Some (str "image/jpeg"))
                           [255; 216; 255]%N))
    by (vm_compute; reflexivity).
  exact (H1 _ F eq_refl ltac:(vm_compute; reflexivity)).
Defined.

(* ================================================================== *)
(** * Further properties *)
(* ================================================================== *)

(** ** Trimming *)

Lemma dropWhile_head p s c t : dropWhile p s = c :: t -> p c = false.
Proof.
  induction s as [|d s IH]; simpl; [discriminate|].
  destruct (p d) eqn:E; [exact IH|]. intros H; injection H as <- _. exact E.
Qed.

Lemma dropWhile_suffix p s : exists a, s = a ++ dropWhile p s /\ forallb p a = true.
Proof.
  induction s as [|d s [a [E F]]]; simpl.
  - exists []; auto.
  - destruct (p d) eqn:Hd.
    + exists (d :: a). simpl. rewrite Hd, F. split; [f_equal; exact E|reflexivity].
    + exists []. auto.
Qed.

Lemma dropWhile_id p s :
  (forall c t, s = c :: t -> p c = false) -> dropWhile p s = s.
Proof.
  destruct s as [|c s]; [reflexivity|]. intros H. simpl.
  rewrite (H c s eq_refl). reflexivity.
Qed.

Lemma trim_trimmed s : trimmed (trim s).
Proof.
  unfold trim.
  destruct (dropWhile_suffix isSpace (rev (dropWhile isSpace s))) as [a [E F]].
  set (d := dropWhile isSpace s) in *.
  set (b := dropWhile isSpace (rev d)) in *.
  split.
  - intros c t H.
    assert (D : d = rev b ++ rev a).
    { rewrite <- (rev_involutive d), E, rev_app_distr. reflexivity. }
    rewrite H in D. simpl in D. apply (dropWhile_head isSpace s c (t ++ rev a)).
    exact D.
  - intros t c H.
    assert (B : b = c :: rev t).
    { rewrite <- (rev_involutive b), H, rev_app_distr. reflexivity. }
    apply (dropWhile_head isSpace (rev d) c (rev t)). exact B.
Qed.

Lemma trimmed_trim s : trimmed s -> trim s = s.
Proof.
  intros [H1 H2]. unfold trim.
  rewrite (dropWhile_id isSpace s H1).
  rewrite dropWhile_id; [apply rev_involutive|].
  intros c t E. apply (H2 (rev t) c).
  rewrite <- (rev_involutive s), E. reflexivity.
Qed.

Lemma trim_idempotent s : trim (trim s) = trim s.
Proof. apply trimmed_trim, trim_trimmed. Qed.

(** Trimming cuts a string at both ends. *)
Lemma trim_infix s : exists a b, s = a ++ trim s ++ b.
Proof.
  unfold trim.
  destruct (dropWhile_suffix isSpace s) as [a [E _]].
  destruct (dropWhile_suffix isSpace (rev (dropWhile isSpace s))) as [b [F _]].
  exists a, (rev b). rewrite <- rev_app_distr, <- F, rev_involutive. exact E.
Qed.

Lemma trim_In s c : In c (trim s) -> In c s.
Proof.
  destruct (trim_infix s) as [a [b E]]. intros H. rewrite E.
  apply in_or_app; right. apply in_or_app; left. exact H.
Qed.

Lemma trim_length s : length (trim s) <= length s.
Proof.
  destruct (trim_infix s) as [a [b E]]. rewrite E at 2.
  rewrite !length_app. lia.
Qed.

(** ** Removing the code units of a class *)

Lemma exec_class p : forall s sn,
  exec (Class p) sn s =
  match dropWhile (fun c => negb (p c)) s with
  | [] => None
  | c :: t =>
      Some (takeWhile (fun c => negb (p c)) s,
            MState t (c :: rev (takeWhile (fun c => negb (p c)) s) ++ sn) [])
  end.
Proof.
  induction s as [|c s IH]; intros sn; [reflexivity|].
  cbn [exec]. unfold matchAt. cbn [m rest seen caps dropWhile takeWhile].
  destruct (p c) eqn:E; cbn [negb]; [reflexivity|].
  rewrite IH. destruct (dropWhile (fun c0 => negb (p c0)) s) as [|d t];
    [reflexivity|].
  cbn [rev]. rewrite <- !app_assoc. reflexivity.
Qed.

Lemma takeWhile_dropWhile p s : takeWhile p s ++ dropWhile p s = s.
Proof.
  induction s as [|c s IH]; simpl; [reflexivity|].
  destruct (p c); simpl; [f_equal; exact IH|reflexivity].
Qed.

Lemma filter_takeWhile p s : filter p (takeWhile p s) = takeWhile p s.
Proof.
  induction s as [|c s IH]; simpl; [reflexivity|].
  destruct (p c) eqn:E; simpl; [rewrite E, IH|]; reflexivity.
Qed.

Lemma scan_class_remove p : forall fuel sn s,
  length s < fuel ->
  flat_map (fun q : jsstring * found => fst q ++ [])
           (fst (scan fuel (Class p) sn s))
  ++ snd (scan fuel (Class p) sn s)
  = filter (fun c => negb (p c)) s.
Proof.
  induction fuel as [|fuel IH]; intros sn s L; [lia|].
  cbn [scan]. rewrite exec_class.
  pose proof (takeWhile_dropWhile (fun c => negb (p c)) s) as TD.
  pose proof (filter_takeWhile (fun c => negb (p c)) s) as FT.
  destruct (dropWhile (fun c => negb (p c)) s) as [|c t] eqn:D.
  - cbn [fst snd flat_map app]. rewrite app_nil_r in TD.
    rewrite <- TD. symmetry; exact FT.
  - set (tw := takeWhile (fun c => negb (p c)) s) in *.
    assert (Hc : p c = true).
    { apply dropWhile_head in D. destruct (p c); [reflexivity|discriminate]. }
    cbn [rest seen caps].
    assert (W : firstn (length s - length tw - length t) (skipn (length tw) s)
                = [c]).
    { rewrite <- TD. rewrite skipn_app, skipn_all, Nat.sub_diag.
      rewrite length_app. cbn [length app skipn].
      replace (length tw + S (length t) - length tw - length t) with 1 by lia.
      reflexivity. }
    rewrite W.
    assert (Lt : length t < fuel).
    { rewrite <- TD, length_app in L. simpl in L. lia. }
    specialize (IH (c :: rev tw ++ sn) t Lt).
    destruct (scan fuel (Class p) (c :: rev tw ++ sn) t) as [ms tl].
    cbn [fst snd flat_map] in *. rewrite app_nil_r, <- app_assoc, IH.
    rewrite <- TD at 1. rewrite filter_app, FT. cbn [filter].
    rewrite Hc. reflexivity.
Qed.

Lemma replaceAll_class_remove p s :
  replaceAll (Class p) (fun _ => []) s = filter (fun c => negb (p c)) s.
Proof.
  unfold replaceAll.
  pose proof (scan_class_remove p (S (length s)) [] s (Nat.lt_succ_diag_r _)) as H.
  destruct (scan (S (length s)) (Class p) [] s) as [ms tl]. exact H.
Qed.

(** ** [safe] *)

Lemma safe_filter name :
  safe name = trim (filter (fun c => negb (isUnsafe c)) name).
Proof. unfold safe, reUnsafe. rewrite replaceAll_class_remove. reflexivity. Qed.

Lemma filter_id {A} (p : A -> bool) l :
  (forall a, In a l -> p a = true) -> filter p l = l.
Proof.
  induction l as [|a l IH]; simpl; intros H; [reflexivity|].
  rewrite (H a (or_introl eq_refl)). f_equal. apply IH. intros b Hb.
  apply H. right; exact Hb.
Qed.

Lemma safe_allSafe name : allSafe (safe name).
Proof.
  intros c H. rewrite safe_filter in H. apply trim_In in H.
  apply filter_In in H. destruct H as [_ H].
  destruct (isUnsafe c); [discriminate|reflexivity].
Qed.

Lemma safe_fixed name : allSafe name -> trimmed name -> safe name = name.
Proof.
  intros A T. rewrite safe_filter, filter_id; [apply trimmed_trim; exact T|].
  intros c H. rewrite (A c H). reflexivity.
Qed.

Lemma safe_length name : length (safe name) <= length name.
Proof.
  rewrite safe_filter.
  pose proof (trim_length (filter (fun c => negb (isUnsafe c)) name)).
  pose proof (filter_length_le (fun c => negb (isUnsafe c)) name). lia.
Qed.

(** X1: what [safe] returns holds none of the characters a Windows file
    name must not hold (angle brackets, colon, double quote, slash,
    backslash, bar, question mark, star, control characters) and has no
    white space at either end. *)
Theorem safe_clean (name : jsstring) :
  allSafe (safe name) /\ trimmed (safe name).
Proof.
  split; [apply safe_allSafe|]. rewrite safe_filter. apply trim_trimmed.
Qed.

(** X2: [safe] changes a name exactly when the name holds a forbidden
    character or has white space at an end; in particular it is
    idempotent, so the folder of a book is found again under the title
    already made safe. *)
Theorem safe_idempotent (name : jsstring) :
  (safe name = name <-> allSafe name /\ trimmed name) /\
  safe (safe name) = safe name.
Proof.
  assert (F : forall n, allSafe n /\ trimmed n -> safe n = n).
  { intros n [A T]. apply safe_fixed; assumption. }
  split; [split|].
  - intros E. rewrite <- E. split; [apply safe_allSafe|].
    rewrite safe_filter. apply trim_trimmed.
  - apply F.
  - apply F. split; [apply safe_allSafe|]. rewrite safe_filter. apply trim_trimmed.
Qed.

(** ** Collapsing white space *)


Lemma matchAt_reSpaces_nil sn : matchAt reSpaces sn [] = None.
Proof. reflexivity. Qed.








Lemma safeFileName_length (deburr : jsstring -> jsstring) raw max :
  length (safeFileName deburr raw max) <= max.
Proof.
  unfold safeFileName.
  set (collapsed := trim (replaceAll reSpaces (fun _ => str " ") (deburr raw))).
  pose proof (safe_length (slice collapsed 0 max)) as H.
  unfold slice in *. cbn [skipn] in *. rewrite Nat.sub_0_r in *.
  pose proof (firstn_le_length max collapsed). lia.
Qed.

Lemma safeFileName_allSafe (deburr : jsstring -> jsstring) raw max :
  allSafe (safeFileName deburr raw max).
Proof. unfold safeFileName. apply safe_allSafe. Qed.


(** ** The configured titles *)

Lemma eqs_true a b : eqs a b = true <-> a = b.
Proof.
  unfold eqs. destruct (list_eq_dec N.eq_dec a b); split; congruence.
Qed.

Lemma eqs_false a b : eqs a b = false <-> a <> b.
Proof.
  unfold eqs. destruct (list_eq_dec N.eq_dec a b); split; congruence.
Qed.

Lemma lowerUnit_head c s t tl :
  (97 <= t <= 122)%N -> t <> 105%N -> t <> 107%N ->
  lowerUnit c ++ s = t :: tl ->
  s = tl /\ canonicalize c = canonicalize t.
Proof.
  intros Ht Hi Hk H.
  destruct (lowerUnit_cases c) as [[U E]|[[-> E]|[[-> E]|[U E]]]];
    rewrite E in H; simpl in H; injection H as H1 H2.
  - split; [assumption|]. apply isUpper_range in U. unfold canonicalize.
    replace (isLower c) with false
      by (symmetry; apply not_true_iff_false; rewrite isLower_range; lia).
    replace (isLower t) with true by (symmetry; apply isLower_range; lia).
    lia.
  - congruence.
  - congruence.
  - subst. split; reflexivity.
Qed.

(** Lower-casing gives a word of small letters (other than i and k,
    which two characters outside ASCII lower-case to) exactly for the
    spellings of the word in either letter case. *)
Lemma toLowerCase_word : forall w,
  (forall t, In t w -> (97 <= t <= 122)%N /\ t <> 105%N /\ t <> 107%N) ->
  forall s, toLowerCase s = w <-> equalsCI s w.
Proof.
  unfold equalsCI, toLowerCase.
  induction w as [|t w IH]; intros Hw s.
  - destruct s as [|c s]; [tauto|]. simpl. split; [|discriminate].
    destruct (lowerUnit_cases c) as [[_ E]|[[_ E]|[[_ E]|[_ E]]]];
      rewrite E; discriminate.
  - destruct (Hw t (or_introl eq_refl)) as [Ht [Hi Hk]].
    assert (Hw' : forall u, In u w ->
                            (97 <= u <= 122)%N /\ u <> 105%N /\ u <> 107%N)
      by (intros u Hu; apply Hw; right; exact Hu).
    destruct s as [|c s]; [simpl; split; discriminate|].
    cbn [flat_map map]. split; intros H.
    + apply lowerUnit_head in H; try assumption. destruct H as [H1 H2].
      rewrite H2. f_equal. apply IH; assumption.
    + injection H as H1 H2.
      rewrite (canonicalize_letter c t (or_introl Ht) H1).
      simpl. f_equal. apply IH; assumption.
Qed.

Lemma toLowerCase_null s :
  toLowerCase s = str "null" <-> equalsCI s (str "null").
Proof.
  apply toLowerCase_word. intros t H. simpl in H.
  repeat (destruct H as [<-|H]; [lia|]). destruct H.
Qed.

(** ** Splitting at a character *)

Lemma splitOn_piece c : forall t piece fuel s,
  ~ In c t -> length t + length s < fuel ->
  splitOn [c] fuel piece (t ++ s)
  = splitOn [c] (fuel - length t) (rev t ++ piece) s.
Proof.
  induction t as [|d t IH]; intros piece fuel s Hc L.
  - simpl. rewrite Nat.sub_0_r. reflexivity.
  - destruct fuel as [|fuel]; [simpl in L; lia|].
    cbn [app splitOn startsWith length Nat.sub rev].
    destruct (N.eqb_spec c d) as [->|_]; [exfalso; apply Hc; left; reflexivity|].
    cbn [andb]. rewrite IH; [|intros H; apply Hc; right; exact H|simpl in L; lia].
    rewrite <- app_assoc. reflexivity.
Qed.

Lemma split_join_char c : forall titles fuel,
  titles <> [] -> (forall t, In t titles -> ~ In c t) ->
  length (join [c] titles) < fuel ->
  splitOn [c] fuel [] (join [c] titles) = titles.
Proof.
  induction titles as [|t titles IH]; intros fuel Hn Hc L; [congruence|].
  destruct titles as [|t2 titles].
  - change (join [c] [t]) with t in *. rewrite <- (app_nil_r t) at 1.
    rewrite splitOn_piece; [|apply Hc; left; reflexivity|cbn [length]; lia].
    destruct (fuel - length t) eqn:E; [lia|]. simpl.
    rewrite app_nil_r, rev_involutive. reflexivity.
  - rewrite join_cons in * by discriminate.
    rewrite length_app in L. cbn [app length] in L.
    rewrite splitOn_piece; [|apply Hc; left; reflexivity|cbn [app length]; lia].
    destruct (fuel - length t) eqn:E; [lia|].
    cbn [app splitOn startsWith length skipn]. rewrite N.eqb_refl. cbn [andb].
    rewrite app_nil_r, rev_involutive. f_equal.
    apply IH; [discriminate| |lia].
    intros u Hu. apply Hc. right; exact Hu.
Qed.

Lemma join_last sep : forall l : list jsstring,
  l <> [] -> exists pre, join sep l = pre ++ last l [].
Proof.
  induction l as [|a l IH]; intros H; [congruence|].
  destruct l as [|b l]; [exists []; reflexivity|].
  destruct IH as [pre E]; [discriminate|].
  rewrite join_cons by discriminate. exists (a ++ sep ++ pre).
  rewrite E, <- !app_assoc. reflexivity.
Qed.

Lemma join_trimmed sep (l : list jsstring) :
  l <> [] -> (forall t, In t l -> t <> [] /\ trimmed t) ->
  join sep l <> [] /\ trimmed (join sep l).
Proof.
  intros Hn H. destruct l as [|a l]; [congruence|].
  destruct (H a (or_introl eq_refl)) as [Ha [Ta _]].
  destruct a as [|x a]; [congruence|]. unfold jsstring in *.
  assert (J : exists tl, join sep ((x :: a) :: l) = x :: tl).
  { destruct l; [exists a; reflexivity|].
    eexists. rewrite join_cons by discriminate. reflexivity. }
  destruct J as [tl J]. split; [rewrite J; discriminate|]. split.
  - intros c t E. rewrite J in E. injection E as <- _.
    apply (Ta x a eq_refl).
  - intros t c E.
    destruct (join_last sep ((x :: a) :: l)) as [pre P]; [discriminate|].
    assert (I : In (last ((x :: a) :: l) []) ((x :: a) :: l)).
    { destruct (exists_last (l := (x :: a) :: l)) as [l' [z Z]]; [discriminate|].
      rewrite Z, last_last. apply in_or_app; right; left; reflexivity. }
    unfold jsstring in *.
    remember (last ((x :: a) :: l) []) as z eqn:Ez.
    destruct (H _ I) as [Hz [_ Tz]].
    destruct (exists_last Hz) as [z' [y Y]].
    rewrite P in E. rewrite Y, app_assoc in E.
    apply app_inj_tail in E. destruct E as [_ ->].
    apply (Tz z' c Y).
Qed.

Section ConfigurationProperties.

Variable json : Type.
Variable JSON_parse : jsstring -> option json.
Variable elements : json -> option (list json).
Variable stringOf : json -> jsstring.

(** X4: [parseBookEnv] answers [null], which makes [main] download every
    book not yet present, exactly when the variable is unset, blank, or
    the word null in any letter case with white space around it. *)
Theorem parseBookEnv_null (raw : option jsstring) :
  parseBookEnv json JSON_parse elements stringOf raw = None <->
  raw = None \/
  exists r, raw = Some r /\ (trim r = [] \/ equalsCI (trim r) (str "null")).
Proof.
  unfold parseBookEnv. destruct raw as [r|]; [|tauto].
  destruct (eqs r [] || eqs (trim r) []
            || eqs (toLowerCase (trim r)) (str "null")) eqn:E.
  - split; [intros _|reflexivity]. right. exists r. split; [reflexivity|].
    apply orb_true_iff in E. destruct E as [E|E].
    + apply orb_true_iff in E. destruct E as [E|E]; apply eqs_true in E.
      * subst r. left; reflexivity.
      * left; exact E.
    + apply eqs_true in E. right. apply toLowerCase_null. exact E.
  - apply orb_false_iff in E. destruct E as [E1 E3].
    apply orb_false_iff in E1. destruct E1 as [_ E2].
    apply eqs_false in E2, E3. split.
    + intros H. exfalso. destruct (startsWith (str "[") (trim r)).
      * destruct (JSON_parse (trim r)); discriminate.
      * discriminate.
    + intros [H|[r' [H [T|T]]]]; [discriminate| |]; injection H as <-.
      * contradiction.
      * apply toLowerCase_null in T. contradiction.
Qed.

(** X5: read as a list with semicolons (the variable does not start with a
    bracket, or is no JSON), every title [parseBookEnv] returns is
    non-empty, has no white space at either end and holds no
    semicolon. *)
Theorem parseBookEnv_delimited (raw : jsstring) (titles : list jsstring) :
  (startsWith (str "[") (trim raw) = true -> JSON_parse (trim raw) = None) ->
  parseBookEnv json JSON_parse elements stringOf (Some raw) = Some titles ->
  forall t, In t titles -> isTitle t.
Proof.
  intros HJ H t Ht. unfold parseBookEnv in H.
  destruct (eqs raw [] || eqs (trim raw) []
            || eqs (toLowerCase (trim raw)) (str "null")); [discriminate|].
  assert (E : titles = delimited (trim raw)).
  { destruct (startsWith (str "[") (trim raw)).
    - rewrite (HJ eq_refl) in H. injection H as <-. reflexivity.
    - injection H as <-. reflexivity. }
  subst titles. unfold delimited in Ht. apply filter_In in Ht.
  destruct Ht as [Ht Hn]. apply in_map_iff in Ht. destruct Ht as [p [<- Hp]].
  split; [|split].
  - apply negb_true_iff, eqs_false in Hn. exact Hn.
  - apply trim_trimmed.
  - intros I. apply trim_In in I.
    destruct (split_spec (str ";") (trim raw)) as [_ F]; [discriminate|].
    apply (F p Hp). apply in_split in I. destruct I as [a [b ->]].
    exists a, b. reflexivity.
Qed.

(** X6: titles joined by semicolons are read back as they are: for a
    non-empty list of titles (each non-empty, without white space at
    its ends and without a semicolon) that is not the single word null
    and is not taken as JSON, [parseBookEnv] returns the list. *)
Theorem parseBookEnv_join (titles : list jsstring) :
  titles <> [] ->
  (forall t, In t titles -> isTitle t) ->
  toLowerCase (join (str ";") titles) <> str "null" ->
  (startsWith (str "[") (join (str ";") titles) = true ->
   JSON_parse (join (str ";") titles) = None) ->
  parseBookEnv json JSON_parse elements stringOf (Some (join (str ";") titles))
  = Some titles.
Proof.
  intros Hn Ht Hnull HJ.
  destruct (join_trimmed (str ";") titles Hn) as [Jn Jt].
  { intros t I. destruct (Ht t I) as [A [B _]]. split; assumption. }
  unfold parseBookEnv. rewrite (trimmed_trim _ Jt).
  replace (eqs (join (str ";") titles) []) with false
    by (symmetry; apply eqs_false; exact Jn).
  replace (eqs (toLowerCase (join (str ";") titles)) (str "null")) with false
    by (symmetry; apply eqs_false; exact Hnull).
  cbn [orb].
  assert (D : delimited (join (str ";") titles) = titles).
  { unfold delimited, split.
    rewrite (split_join_char (ch ";") titles);
      [|exact Hn| |apply Nat.lt_succ_diag_r].
    - rewrite filter_id.
      + rewrite <- (map_id titles) at 2. apply map_ext_in.
        intros t I. apply trimmed_trim. apply (Ht t I).
      + intros a I. apply in_map_iff in I. destruct I as [t [<- I]].
        destruct (Ht t I) as [A [B _]]. rewrite (trimmed_trim _ B).
        apply negb_true_iff, eqs_false. exact A.
    - intros t I. apply (Ht t I). }
  destruct (startsWith (str "[") (join (str ";") titles)).
  - rewrite (HJ eq_refl), D. reflexivity.
  - rewrite D. reflexivity.
Qed.

End ConfigurationProperties.

Lemma parseBookEnv_delimited_witness :
  isTitle (str "Book A") /\ isTitle (str "Book B").
Proof.
  pose proof (parseBookEnv_delimited unit exampleParse (fun _ => None)
                (fun _ => []) (str " Book A ;Book B; ")
                [str "Book A"; str "Book B"] (fun _ => eq_refl)
                ltac:(vm_compute; reflexivity)) as H.
  split; apply H; [left|right; left]; reflexivity.
Defined.

Lemma parseBookEnv_join_witness :
  parseBookEnv unit exampleParse (fun _ => None) (fun _ => [])
    (Some (str "Book A;Book B")) = Some [str "Book A"; str "Book B"].
Proof.
  apply (parseBookEnv_join unit exampleParse (fun _ => None) (fun _ => [])
           [str "Book A"; str "Book B"]).
  - discriminate.
  - intros t [<-|[<-|[]]]; (split; [discriminate|split]);
      try (split; intros a b E;
           [injection E as <- _; reflexivity
           |apply (f_equal (@rev _)) in E; rewrite rev_app_distr in E;
            injection E as <- _; reflexivity]);
      vm_compute; intuition discriminate.
  - vm_compute. discriminate.
  - intros _. reflexivity.
Defined.

(** ** Names of pages *)

Lemma firstSome_In {A B} (k : A -> option B) l b :
  firstSome k l = Some b -> exists a, In a l /\ k a = Some b.
Proof.
  induction l as [|a l IH]; simpl; [discriminate|].
  destruct (k a) as [b'|] eqn:E; simpl.
  - intros H; injection H as <-. exists a. auto.
  - intros H. destruct (IH H) as [a' [I K]]. exists a'. auto.
Qed.

Lemma equalsCI_dot_svg ext :
  equalsCI ext (str ".svg") ->
  exists e1 e2 e3,
    ext = [ch "."; e1; e2; e3] /\
    readLit (map (fun c d => (canonicalize d =? canonicalize c)%N) (str "svg"))
            [e1; e2; e3] = true.
Proof.
  unfold equalsCI. intros H.
  destruct ext as [|e0 [|e1 [|e2 [|e3 [|e4 ext]]]]]; try discriminate.
  simpl in H. injection H as H0 H1 H2 H3. exists e1, e2, e3. split.
  - f_equal. change (canonicalize 46%N) with 46%N in H0.
    unfold canonicalize in H0. destruct (isLower e0) eqn:L; [|exact H0].
    apply isLower_range in L. change (ch ".") with 46%N. lia.
  - simpl. rewrite H1, H2, H3. reflexivity.
Qed.

Lemma atEnd_Some y z : atEnd y = Some z -> rest y = [] /\ z = y.
Proof.
  unfold atEnd. destruct (rest y); [|discriminate].
  intros H; injection H as <-. auto.
Qed.

(** The test of the listener accepts exactly the names made of digits
    and the suffix. *)
Lemma isPageFile_iff f :
  isPageFile f = true <-> exists ds, isPageName f ds.
Proof.
  unfold isPageFile, matchAtEnd, isPageName. split.
  - destruct (m rePageFile (MState f [] []) atEnd) as [z|] eqn:E; [|discriminate].
    intros _. rewrite m_reach in E. apply firstSome_In in E.
    destruct E as [y [I K]]. apply atEnd_Some in K. destruct K as [R _].
    unfold rePageFile in I. cbn [seqs] in I.
    apply In_reach_Seq in I. destruct I as [y1 [I1 I]].
    apply In_reach_Seq in I. destruct I as [y2 [I2 I3]].
    apply In_reach_plus_class in I1. destruct I1 as [ds [Hn [E1 [F _]]]].
    apply In_reach_Class in I2. destruct I2 as [c [E2 [Hc _]]].
    apply In_reach_litCI in I3. destruct I3 as [o [E3 [Ho _]]].
    apply N.eqb_eq in Hc. subst c. cbn [rest] in E1.
    exists ds. split; [exact Hn|]. split; [exact F|].
    exists (ch "." :: o). split.
    + rewrite E1, E2, E3, R, app_nil_r. reflexivity.
    + unfold equalsCI in *. cbn [map]. rewrite Ho. reflexivity.
  - intros [ds [Hn [F [ext [-> H]]]]].
    apply equalsCI_dot_svg in H. destruct H as [e1 [e2 [e3 [-> R]]]].
    destruct ds as [|d ds]; [congruence|].
    cbn [forallb] in F. apply andb_true_iff in F. destruct F as [Fd F].
    assert (M : m rePageFile (MState ((d :: ds) ++ [ch "."; e1; e2; e3]) [] [])
                  atEnd
                = Some (MState [] (rev [e1; e2; e3] ++ ch "." :: rev ds ++ [d]) [])).
    { unfold rePageFile, Plus. cbn [seqs app]. rewrite !m_Seq, m_Class, Fd.
      apply m_star_greedy.
      rewrite (dropWhile_stop isDigit ds (ch ".") [e1; e2; e3] F eq_refl).
      rewrite (takeWhile_stop isDigit ds (ch ".") [e1; e2; e3] F eq_refl).
      cbv beta. rewrite ?m_Seq. unfold one. rewrite m_Class, N.eqb_refl.
      rewrite litCI_classes.
      rewrite (m_word _ [e1; e2; e3] [] _ _ _ R eq_refl). reflexivity. }
    rewrite M. reflexivity.
Qed.

Lemma matchAtEnd_reSvgSuffix sn t :
  matchAtEnd reSvgSuffix sn t =
  if readLit (N.eqb (ch ".") ::
              map (fun c d => (canonicalize d =? canonicalize c)%N) (str "svg")) t
     && (length t =? 4)
  then Some (MState [] (rev t ++ sn) [])
  else None.
Proof.
  unfold matchAtEnd.
  change reSvgSuffix
    with (seqs (map Class
                  (N.eqb (ch ".") ::
                   map (fun c d => (canonicalize d =? canonicalize c)%N)
                       (str "svg")))).
  rewrite m_classes. cbn [rest].
  destruct (readLit _ t) eqn:R; [|reflexivity]. cbn [andb].
  destruct t as [|t0 [|t1 [|t2 [|t3 [|t4 t]]]]];
    try (cbn in R; rewrite ?andb_false_r in R; discriminate R);
    reflexivity.
Qed.

Lemma execEnd_reSvgSuffix ext : forall stem sn,
  equalsCI ext (str ".svg") ->
  execEnd reSvgSuffix sn (stem ++ ext)
  = Some (stem, MState [] (rev ext ++ rev stem ++ sn) []).
Proof.
  intros stem sn H. apply equalsCI_dot_svg in H.
  destruct H as [e1 [e2 [e3 [-> R]]]]. revert sn.
  induction stem as [|c stem IH]; intros sn.
  - cbn [app execEnd]. rewrite matchAtEnd_reSvgSuffix.
    cbn [readLit]. rewrite N.eqb_refl. cbn [andb]. rewrite R. reflexivity.
  - cbn [app execEnd]. rewrite matchAtEnd_reSvgSuffix.
    replace (length (c :: stem ++ [ch "."; e1; e2; e3]) =? 4) with false.
    + rewrite andb_false_r, IH. cbn [rev]. rewrite <- !app_assoc. reflexivity.
    + symmetry. apply Nat.eqb_neq. cbn [length]. rewrite length_app.
      cbn [length]. lia.
Qed.

Lemma pageNum_suffix stem ext :
  equalsCI ext (str ".svg") -> pageNum (stem ++ ext) = stem.
Proof.
  intros H. unfold pageNum. rewrite (execEnd_reSvgSuffix ext stem [] H).
  cbn [rest]. rewrite !app_nil_r. reflexivity.
Qed.

Lemma concat_repeat_unit (c : char) n : concat (repeat [c] n) = repeat c n.
Proof. induction n as [|n IH]; simpl; [|rewrite IH]; reflexivity. Qed.

Lemma padStart_zeros n s :
  padStart n (str "0") s = repeat (ch "0") (n - length s) ++ s.
Proof.
  unfold padStart. change (eqs (str "0") []) with false. rewrite orb_false_r.
  destruct (Nat.leb_spec n (length s)) as [L|L].
  - replace (n - length s) with 0 by lia. reflexivity.
  - change (str "0") with [ch "0"]. rewrite concat_repeat_unit.
    rewrite <- (repeat_length (ch "0") (n - length s)) at 1.
    rewrite firstn_all. reflexivity.
Qed.

Lemma digitsVal_app base a b :
  digitsVal base (a ++ b)
  = fold_left (fun v c => (v * base + digitVal c)%N) b (digitsVal base a).
Proof. unfold digitsVal. apply fold_left_app. Qed.

Lemma digitsVal_zeros n ds :
  digitsVal 10 (repeat (ch "0") n ++ ds) = digitsVal 10 ds.
Proof.
  rewrite digitsVal_app. replace (digitsVal 10 (repeat (ch "0") n)) with 0%N;
    [reflexivity|].
  unfold digitsVal. induction n as [|n IH]; [reflexivity|].
  cbn [repeat fold_left]. exact IH.
Qed.

Lemma forallb_repeat (p : char -> bool) c n :
  p c = true -> forallb p (repeat c n) = true.
Proof. intros H. induction n; simpl; [|rewrite H]; auto. Qed.

Lemma outName_pageName f ds :
  isPageName f ds ->
  outName f = repeat (ch "0") (4 - length ds) ++ ds ++ str ".svg".
Proof.
  intros [_ [_ [ext [-> H]]]]. unfold outName.
  rewrite (pageNum_suffix ds ext H), padStart_zeros, <- app_assoc.
  reflexivity.
Qed.

(** X7: a name is a page for the listener exactly when it is made of one
    digit or more and the suffix [.svg] in either letter case, with
    nothing before or behind; the number kept for the page is then the
    run of digits. *)
Theorem isPageFile_spec (fileName : jsstring) :
  (isPageFile fileName = true <-> exists ds, isPageName fileName ds) /\
  (forall ds, isPageName fileName ds -> pageNum fileName = ds).
Proof.
  split; [apply isPageFile_iff|].
  intros ds [_ [_ [ext [-> H]]]]. apply pageNum_suffix. exact H.
Qed.

(** X8: the name under which the listener stores a page: the number of the
    page, filled with zeros to four digits, and the suffix.  Such a
    name is a page unit for the assembler, which orders it by the
    number of the page; up to 9999 pages every name is eight code units
    long. *)
Theorem outName_page (fileName : jsstring) :
  isPageFile fileName = true ->
  exists ds,
    isPageName fileName ds /\
    outName fileName = repeat (ch "0") (4 - length ds) ++ ds ++ str ".svg" /\
    isSvgFile (outName fileName) = true /\
    pageNumber (outName fileName) = Some (digitsVal 10 ds) /\
    8 <= length (outName fileName) /\
    (length ds <= 4 -> length (outName fileName) = 8).
Proof.
  intros H. apply isPageFile_iff in H. destruct H as [ds H]. exists ds.
  split; [exact H|]. pose proof (outName_pageName _ _ H) as E.
  destruct H as [Hn [F _]]. rewrite E. split; [reflexivity|].
  split; [|split; [|split]].
  - apply isSvgFile_spec. exists (repeat (ch "0") (4 - length ds) ++ ds), (str ".svg").
    split; [rewrite <- app_assoc; reflexivity|reflexivity].
  - unfold pageNumber. rewrite app_assoc.
    assert (D : forallb isDigit (repeat (ch "0") (4 - length ds) ++ ds) = true).
    { rewrite forallb_app, F, forallb_repeat; reflexivity. }
    change (str ".svg") with (ch "." :: str "svg").
    rewrite (takeWhile_stop isDigit _ (ch ".") (str "svg") D eq_refl).
    rewrite (dropWhile_stop isDigit _ (ch ".") (str "svg") D eq_refl).
    replace (eqs (repeat (ch "0") (4 - length ds) ++ ds) []) with false.
    + cbn [negb andb]. change (eqs _ (str ".SVG")) with true. cbn iota.
      rewrite digitsVal_zeros. reflexivity.
    + symmetry. apply eqs_false. intros A. apply app_eq_nil in A.
      destruct A as [_ A]. contradiction.
  - rewrite !length_app, repeat_length. change (length (str ".svg")) with 4. lia.
  - intros L. rewrite !length_app, repeat_length.
    change (length (str ".svg")) with 4. lia.
Qed.

Lemma outName_page_witness :
  exists ds,
    isPageName (str "12.SVG") ds /\
    outName (str "12.SVG") = repeat (ch "0") (4 - length ds) ++ ds ++ str ".svg" /\
    isSvgFile (outName (str "12.SVG")) = true /\
    pageNumber (outName (str "12.SVG")) = Some (digitsVal 10 ds) /\
    8 <= length (outName (str "12.SVG")) /\
    (length ds <= 4 -> length (outName (str "12.SVG")) = 8).
Proof. apply (outName_page (str "12.SVG")). reflexivity. Defined.

(** ** The listener for the pages of a book *)

Lemma existsb_eqs_false f l : existsb (eqs f) l = false -> ~ In f l.
Proof.
  intros H I. assert (E : existsb (eqs f) l = true).
  { apply existsb_exists. exists f. split; [exact I|]. apply eqs_true.
    reflexivity. }
  congruence.
Qed.

Section CaptureProperties.

Variable URL_href : jsstring -> jsstring -> option jsstring.
Variable extname : jsstring -> jsstring.
Variable utf8 : list N -> jsstring.
Variable fetch : request -> fetched.
Variable URL_pathname : jsstring -> option jsstring.
Variable basename : jsstring -> jsstring.
Variable path_join : jsstring -> jsstring -> jsstring.
Variable schedule : list jsstring -> list jsstring.
Variable writeFile : jsstring -> jsstring -> bool.

(** X9: what one call of the listener does: before recording is switched
    on it writes nothing; what it writes is a page not seen before,
    named by digits and [.svg] in the address, stored in the folder of
    the book under the number filled to four digits; and it adds the
    page to the pages seen exactly when the file was written, so a page
    whose download or write failed is taken again from a later
    response. *)
Theorem respHandler_pages (ctx : list cookieT) (folder : jsstring)
    (recording : bool) (seenSvgs : list jsstring) (u : jsstring)
    (body : option (list N)) (seen' : list jsstring)
    (w : option (jsstring * jsstring)) :
  respHandler URL_href extname utf8 fetch URL_pathname basename path_join
    schedule writeFile ctx folder recording seenSvgs u body = (seen', w) ->
  (w = None -> seen' = seenSvgs) /\
  (forall file text,
     w = Some (file, text) ->
     recording = true /\
     exists pathname ds,
       URL_pathname u = Some pathname /\
       isPageName (basename pathname) ds /\
       ~ In (basename pathname) seenSvgs /\
       file = path_join folder
                (repeat (ch "0") (4 - length ds) ++ ds ++ str ".svg") /\
       seen' = if writeFile file text
               then seenSvgs ++ [basename pathname] else seenSvgs).
Proof.
  unfold respHandler. cbv zeta. intros H.
  destruct recording; cbn [negb] in H;
    [|injection H as <- <-; split; [reflexivity|discriminate]].
  destruct (endsWith (str ".svg") (toLowerCase u)); cbn [negb] in H;
    [|injection H as <- <-; split; [reflexivity|discriminate]].
  destruct (URL_pathname u) as [pathname|];
    [|injection H as <- <-; split; [reflexivity|discriminate]].
  destruct (isPageFile (basename pathname)) eqn:P; cbn [negb] in H;
    [|injection H as <- <-; split; [reflexivity|discriminate]].
  destruct (existsb (eqs (basename pathname)) seenSvgs) eqn:S;
    [injection H as <- <-; split; [reflexivity|discriminate]|].
  destruct body as [bytes|];
    [|injection H as <- <-; split; [reflexivity|discriminate]].
  destruct (inlineAssetsIn _ _ _ _ _ _ _ _) as [t|];
    [|injection H as <- <-; split; [reflexivity|discriminate]].
  apply isPageFile_iff in P. destruct P as [ds P].
  assert (A : setAdd seenSvgs (basename pathname)
              = seenSvgs ++ [basename pathname]).
  { unfold setAdd. rewrite S. reflexivity. }
  rewrite A, (outName_pageName _ _ P) in H.
  destruct (writeFile _ _) eqn:W;
    apply pair_equal_spec in H; destruct H as [<- <-];
    (split; [discriminate|]); intros file text E;
    apply (f_equal (fun o => match o with Some p => p | None => (file, text) end))
      in E;
    apply pair_equal_spec in E; destruct E as [<- <-];
    (split; [reflexivity|]); exists pathname, ds; rewrite W;
    repeat split; try apply P; try reflexivity;
    apply existsb_eqs_false; exact S.
Qed.

End CaptureProperties.

Lemma respHandler_pages_witness :
  (Some (str "books/Recht/0012.svg", examplePageResolved) = None ->
   [str "12.svg"] = []) /\
  (forall file text,
     Some (str "books/Recht/0012.svg", examplePageResolved) = Some (file, text) ->
     true = true /\
     exists pathname ds,
       examplePathname (str "https://a.digi4school.at/ebook/42/12.svg")
       = Some pathname /\
       isPageName (exampleBasename pathname) ds /\
       ~ In (exampleBasename pathname) [] /\
       file = exampleJoin (str "books/Recht")
                (repeat (ch "0") (4 - length ds) ++ ds ++ str ".svg") /\
       [str "12.svg"] = if true then [] ++ [exampleBasename pathname] else []).
Proof.
  apply (respHandler_pages exampleURL exampleExtname exampleUtf8 exampleFetch
           examplePathname exampleBasename exampleJoin (fun l => l)
           (fun _ _ => true) [] (str "books/Recht") true []
           (str "https://a.digi4school.at/ebook/42/12.svg")
           (Some examplePage)).
  vm_compute. reflexivity.
Defined.

(** ** Saving one page *)

Section SaveSvgProperties.

Variable URL_href : jsstring -> jsstring -> option jsstring.
Variable extname : jsstring -> jsstring.
Variable utf8 : list N -> jsstring.
Variable fetch : request -> fetched.
Variable URL_parse : jsstring -> option jsstring.
Variable text : list N -> jsstring.
Variable schedule : list jsstring -> list jsstring.

(** X10: when an OK response holds no markup (no text labelled as SVG, no
    [<svg] at its start, none to extract) and the attempt to recover an
    image gives none, [saveSvg] writes the minimal placeholder page, as
    it stands: resolving, fixing and sanitising leave it unchanged.  An
    empty body labelled as SVG counts as no markup. *)
Theorem saveSvg_placeholder (ctx : list cookieT) (url file abs : jsstring)
    (res : response) (svg : option jsstring) :
  (forall l, Permutation (schedule l) l) ->
  URL_parse url = Some abs ->
  fetch (pageRequest ctx url abs) = Settled res ->
  ok res = true ->
  falsy (directSvg (mimeOf res) (text (body res))) = true ->
  recoverImage URL_href extname fetch ctx abs (text (body res))
    (directSvg (mimeOf res) (text (body res))) = Some svg ->
  falsy svg = true ->
  saveSvg URL_href extname utf8 fetch URL_parse text schedule ctx url file
  = inr (file, placeholderSvg).
Proof.
  intros Hs Hu Hf Hok Hd Hr Hv. unfold saveSvg.
  rewrite Hu, Hf, Hok. cbn [negb]. rewrite Hd, Hr.
  assert (E : match svg with Some (c :: t) => c :: t | _ => placeholderSvg end
              = placeholderSvg).
  { destruct svg as [[|c t]|]; [reflexivity|discriminate|reflexivity]. }
  rewrite E.
  assert (X : externals placeholderSvg = []) by (vm_compute; reflexivity).
  rewrite X. unfold inlineAssetsIn. rewrite X. cbn [existsb].
  rewrite (Permutation_nil (Permutation_sym (Hs []))). cbn [fold_left].
  assert (S : sanitizeSvg (fixDashArrays placeholderSvg) = placeholderSvg)
    by (vm_compute; reflexivity).
  rewrite S. reflexivity.
Qed.

End SaveSvgProperties.

Lemma saveSvg_placeholder_witness :
  saveSvg exampleURL exampleExtname exampleUtf8 exampleNotFound
    (fun u => Some u) (fun b => b) (fun l => l) []
    exampleOrigin (str "books/Recht/0001.svg")
  = inr (str "books/Recht/0001.svg", placeholderSvg).
Proof.
  apply (saveSvg_placeholder exampleURL exampleExtname exampleUtf8
           exampleNotFound (fun u => Some u) (fun b => b) (fun l => l) []
           exampleOrigin (str "books/Recht/0001.svg") exampleOrigin
           (Response true 200 (Some (str "text/html"))
              (str "<html><body>session expired</body></html>"))
           None).
  - intros l. apply Permutation_refl.
  - reflexivity.
  - reflexivity.
  - reflexivity.
  - vm_compute. reflexivity.
  - vm_compute. reflexivity.
  - reflexivity.
Defined.

(** ** The pages of an assembly *)

Lemma forEach_trace {A} (Q : event -> Prop) (body : A -> M unit) l :
  (forall a, In a l -> Forall Q (trace (body a))) ->
  Forall Q (trace (forEach l body)).
Proof.
  induction l as [|a l IH]; intros H; [constructor|].
  cbn [forEach]. unfold bind, trace in *.
  specialize (H a (or_introl eq_refl)) as Ha.
  destruct (body a) as [t1 [e|[]]]; [exact Ha|].
  assert (IH' := IH (fun b Hb => H b (or_intror Hb))).
  destruct (forEach l body) as [t2 r]. cbn [fst] in *.
  apply Forall_app. split; assumption.
Qed.

Lemma forEach_collect {A B} (ex : event -> list B) (g : A -> B)
    (body : A -> M unit) l :
  (forall a, In a l -> exists t, body a = (t, inr tt) /\ flat_map ex t = [g a]) ->
  exists t, forEach l body = (t, inr tt) /\ flat_map ex t = map g l.
Proof.
  induction l as [|a l IH]; intros H; simpl.
  - exists []. split; reflexivity.
  - destruct (H a (or_introl eq_refl)) as [t1 [E1 R1]].
    destruct IH as [t2 [E2 R2]]; [intros; apply H; right; assumption|].
    exists (t1 ++ t2). unfold bind. rewrite E1, E2. split; [reflexivity|].
    rewrite flat_map_app, R1, R2. reflexivity.
Qed.

Lemma pageEvents_quiet t :
  Forall (fun e => isPageEvent e = true) t ->
  opensOutput t = false /\ ~ In DocEnd t /\ streams t = [].
Proof.
  induction 1 as [|e t He _ [IH1 [IH2 IH3]]]; [repeat split; intros []|].
  unfold opensOutput, streams in *. cbn [existsb flat_map In].
  rewrite IH1, IH3.
  destruct e; try discriminate He; repeat split; try reflexivity;
    intros [D|D]; try discriminate D; contradiction.
Qed.

Section AssemblyProperties.

Variable localeCompare : jsstring -> jsstring -> Z.
Variable path_join : jsstring -> jsstring -> jsstring.
Variable basename : jsstring -> jsstring.
Variable readdir : jsstring -> option (list jsstring).
Variable readFile : jsstring -> option jsstring.
Variable safeFileName : jsstring -> jsstring.
Variable sharp : jsstring -> option (list N * float * float).

Lemma vector_page_events dir file :
  Forall (fun e => isPageEvent e = true)
         (trace (addVectorPage path_join readFile dir file)).
Proof.
  unfold addVectorPage, fsReadFile.
  destruct (readFile (path_join dir file)) as [svg|].
  - destruct (match getSvgSize svg with Some size => size | None => a4 end)
      as [w h] eqn:Es.
    cbn. rewrite Es. cbn. repeat constructor.
  - cbn. repeat constructor.
Qed.




End AssemblyProperties.


(** ** The document written *)

Lemma pdf_no_unit x : isSvgFile (x ++ str ".pdf") = false.
Proof.
  apply not_true_iff_false. intros H. apply isSvgFile_spec in H.
  destruct H as [stem [ext [E H]]].
  pose proof (equalsCI_length _ _ H) as L.
  assert (E' : rev (str ".pdf") ++ rev x = rev ext ++ rev stem)
    by (rewrite <- !rev_app_distr, E; reflexivity).
  destruct ext as [|e0 [|e1 [|e2 [|e3 [|e4 ext]]]]]; try discriminate L.
  cbn in E'. injection E' as E3 E2 E1 E0 _. subst.
  unfold equalsCI in H. cbn in H. discriminate H.
Qed.

Section OutputProperties.

Variable localeCompare : jsstring -> jsstring -> Z.
Variable path_join : jsstring -> jsstring -> jsstring.
Variable basename : jsstring -> jsstring.
Variable readdir : jsstring -> option (list jsstring).
Variable readFile : jsstring -> option jsstring.
Variable deburr : jsstring -> jsstring.

(** X13: the vector assembly creates one output stream, in the directory it
    assembles, named by the safe name of the directory and [.pdf]; the
    name is at most 84 code units long and free of the characters a
    file name must not hold.  A name that ends in [.pdf] is no page
    unit, so assembling the directory again does not take the document
    for a page. *)
Theorem svgFolderToPdf_output (dir : jsstring) (names : list jsstring) :
  readdir dir = Some names ->
  svgFilesOf localeCompare names <> [] ->
  let pdfBase := safeFileName deburr (basename dir) 80 ++ str ".pdf" in
  let run := svgFolderToPdf localeCompare path_join basename readdir readFile
               (fun raw => safeFileName deburr raw 80) dir in
  streams (trace run) = [path_join dir pdfBase] /\
  length pdfBase <= 84 /\
  allSafe pdfBase /\
  (forall stem, isSvgFile (stem ++ str ".pdf") = false).
Proof.
  intros Hd Hn pdfBase run.
  pose proof (safeFileName_length deburr (basename dir) 80) as L.
  pose proof (safeFileName_allSafe deburr (basename dir) 80) as A.
  split; [|split; [|split]].
  - unfold run, svgFolderToPdf, fsReaddir. rewrite Hd.
    cbn [bind emit ret throw app].
    destruct (svgFilesOf localeCompare names) as [|f files] eqn:Ef;
      [congruence|].
    cbn [length Nat.eqb]. cbv zeta. cbn [bind emit].
    pose proof (forEach_trace (fun e => isPageEvent e = true)
                  (addVectorPage path_join readFile dir) (f :: files)
                  (fun a _ => vector_page_events path_join readFile dir a)) as Q.
    apply pageEvents_quiet in Q. destruct Q as [_ [_ Q]]. unfold trace in Q.
    destruct (forEach (f :: files) _) as [t [e|[]]];
      cbn [bind emit ret throw app fst snd trace result] in Q |- *;
      unfold streams in *; cbn [flat_map app]; rewrite ?flat_map_app, Q;
      reflexivity.
  - unfold pdfBase. rewrite length_app. change (length (str ".pdf")) with 4. lia.
  - intros c H. unfold pdfBase in H. apply in_app_or in H.
    destruct H as [H|H]; [apply A; exact H|].
    cbn in H. decompose sum H; subst; reflexivity.
  - apply pdf_no_unit.
Qed.

End OutputProperties.

Lemma svgFolderToPdf_output_witness :
  streams (trace (svgFolderToPdf byPageNumber exampleJoin exampleBasename
                    (exampleReaddir exampleNames) exampleReadFile
                    (fun raw => safeFileName (fun s => s) raw 80)
                    (str "books/Recht")))
  = [exampleJoin (str "books/Recht")
       (safeFileName (fun s => s) (exampleBasename (str "books/Recht")) 80
        ++ str ".pdf")].
Proof.
  refine (proj1 (svgFolderToPdf_output byPageNumber exampleJoin exampleBasename
                   (exampleReaddir exampleNames) exampleReadFile (fun s => s)
                   (str "books/Recht") exampleNames eq_refl _)).
  vm_compute. discriminate.
Defined.

(** ** The references that are resolved *)

Lemma setAdd_NoDup refs r : NoDup refs -> NoDup (setAdd refs r).
Proof.
  intros H. unfold setAdd. destruct (existsb (eqs r) refs) eqn:E; [exact H|].
  apply NoDup_app; [exact H|repeat constructor; intros []|].
  intros a Ha [<-|[]]. apply existsb_eqs_false in E. contradiction.
Qed.

Lemma fold_setAdd_NoDup l : forall refs,
  NoDup refs -> NoDup (fold_left setAdd l refs).
Proof.
  induction l as [|a l IH]; intros refs H; [exact H|].
  cbn [fold_left]. apply IH, setAdd_NoDup, H.
Qed.

Lemma matchAll_reach r s f :
  In f (matchAll r s) ->
  exists sn t y, In y (reach r (MState t sn [])) /\ groups f = caps y.
Proof.
  intros H. unfold matchAll in H. apply in_map_iff in H.
  destruct H as [p [<- Hp]]. apply scan_found in Hp.
  destruct Hp as [sn' [t [y [M G]]]]. exists sn', t, y. split; [|exact G].
  rewrite matchAt_reach in M.
  destruct (reach r (MState t sn' [])); [discriminate|].
  injection M as ->. left; reflexivity.
Qed.

Lemma quoted_group_capture p post x y :
  (forall c, p c = true -> c <> dq /\ c <> sq) ->
  groupFree post = true -> caps x = [] ->
  In y (reach (Seq (Group (Plus true (Class p))) post) x) ->
  quoteFree (nth 0 (caps y) []).
Proof.
  intros Hp G C H. apply In_reach_Seq in H. destruct H as [z [Hz Hy]].
  apply In_reach_group_plus in Hz. destruct Hz as [w [_ [_ [F Cz]]]].
  rewrite (reach_caps post G _ _ Hy), Cz, C. cbn [app nth].
  rewrite forallb_forall in F.
  split; intros I; apply F, Hp in I; destruct I; congruence.
Qed.

Lemma urlAttr_quoteFree x y :
  caps x = [] -> In y (reach urlAttr x) -> quoteFree (nth 0 (caps y) []).
Proof.
  unfold urlAttr. cbn [seqs].
  repeat (apply (seq_capture _ _ (fun cs => quoteFree (nth 0 cs [])));
          [reflexivity|]).
  intros x' y' C H. unfold noneOf in H.
  eapply quoted_group_capture; try eassumption; [|reflexivity].
  intros c Hc. apply negb_true_iff in Hc. cbn [existsb] in Hc.
  apply orb_false_iff in Hc. destruct Hc as [A B].
  apply orb_false_iff in B. destruct B as [B _].
  apply N.eqb_neq in A, B. auto.
Qed.

Lemma cssUrl_quoteFree x y :
  caps x = [] -> In y (reach cssUrl x) -> quoteFree (nth 0 (caps y) []).
Proof.
  unfold cssUrl. cbn [seqs].
  repeat (apply (seq_capture _ _ (fun cs => quoteFree (nth 0 cs [])));
          [reflexivity|]).
  intros x' y' C H. unfold noneOf in H.
  eapply quoted_group_capture; try eassumption; [|reflexivity].
  intros c Hc. apply negb_true_iff in Hc. cbn [existsb] in Hc.
  apply orb_false_iff in Hc. destruct Hc as [A B].
  apply orb_false_iff in B. destruct B as [B _].
  apply N.eqb_neq in A, B. auto.
Qed.

Lemma references_quoteFree svgText r :
  In r (references svgText) -> quoteFree r.
Proof.
  unfold references. intros H.
  apply In_setAdd in H. destruct H as [H|H].
  - apply In_setAdd in H. destruct H as [[]|H].
    apply in_map_iff in H. destruct H as [f [<- Hf]].
    apply matchAll_reach in Hf. destruct Hf as [sn [t [y [I G]]]].
    unfold group. rewrite G. apply (urlAttr_quoteFree (MState t sn []) y eq_refl I).
  - apply in_map_iff in H. destruct H as [f [<- Hf]].
    apply matchAll_reach in Hf. destruct Hf as [sn [t [y [I G]]]].
    unfold group. rewrite G. apply (cssUrl_quoteFree (MState t sn []) y eq_refl I).
Qed.

(** X14: the references [inlineAssets] resolves are pairwise different, so
    no asset is requested twice for a page, however often the page
    names it; each is non-empty, holds no quote, and is neither an
    anchor nor a data locator. *)
Theorem externals_distinct (svgText : jsstring) :
  NoDup (externals svgText) /\
  forall r, In r (externals svgText) ->
    r <> [] /\ quoteFree r /\
    startsWith (str "data:") r = false /\ startsWith (str "#") r = false.
Proof.
  split.
  - unfold externals, references. apply NoDup_filter.
    apply fold_setAdd_NoDup, fold_setAdd_NoDup. constructor.
  - intros r H. destruct (externals_spec _ _ H) as [A [B C]].
    split; [exact A|]. split; [|auto].
    unfold externals in H. apply filter_In in H. destruct H as [H _].
    eapply references_quoteFree; eassumption.
Qed.

(** ** Extracting markup twice *)

Lemma occursAt_prefix p a b j : occursAt p a j -> occursAt p (a ++ b) j.
Proof.
  intros [pre [post [-> L]]]. exists pre, (post ++ b).
  rewrite <- !app_assoc. auto.
Qed.

(** X15: what [extractSvgMarkup] pulls out of a text it gives back unchanged
    when it is applied to it again. *)
Theorem extractSvgMarkup_idempotent (text r : jsstring) :
  extractSvgMarkup text = Some r -> extractSvgMarkup r = Some r.
Proof.
  unfold extractSvgMarkup.
  destruct (search reSvgOpen text) as [start|] eqn:S; [|discriminate].
  destruct (indexOfFrom (str "</svg>") text start) as [e|] eqn:I;
    [|discriminate].
  intros H; injection H as <-.
  apply search_Some in S. destruct S as [S _].
  apply matchesAt_reSvgOpen in S.
  pose proof (openTagAt_le _ _ S) as Ls.
  apply (indexOfFrom_Some _ _ _ _ Ls) in I. destruct I as [Le [O F]].
  destruct S as [pre [o [mid [post [E [Lp Ho]]]]]].
  destruct O as [pre2 [post2 [E2 Lp2]]].
  (* the text behind [start], read in both ways *)
  set (T := skipn start text).
  assert (T1 : T = o ++ mid ++ ch ">" :: post).
  { unfold T. rewrite E, <- Lp, skipn_app, skipn_all, Nat.sub_diag.
    reflexivity. }
  set (u := skipn start pre2).
  assert (Lu : length u = e - start) by (unfold u; rewrite length_skipn; lia).
  assert (T2 : T = u ++ str "</svg>" ++ post2).
  { unfold T, u. rewrite E2, skipn_app.
    replace (start - length pre2) with 0 by lia. reflexivity. }
  assert (R : slice text start (e + 6) = u ++ str "</svg>").
  { unfold slice. fold T. rewrite T2, app_assoc.
    replace (e + 6 - start) with (length (u ++ str "</svg>"))
      by (rewrite length_app, Lu; cbn [length str]; simpl; lia).
    rewrite firstn_app, firstn_all, Nat.sub_diag, firstn_O. apply app_nil_r. }
  rewrite R.
  pose proof (equalsCI_length _ _ Ho) as Lo. change (length (str "<svg")) with 4 in Lo.
  (* the open tag is found at the start *)
  assert (S0 : search reSvgOpen (u ++ str "</svg>") = Some 0).
  { apply search_Some. split; [|intros j Hj; lia].
    apply matchesAt_reSvgOpen.
    set (w := u ++ str "</svg").
    assert (Ew : u ++ str "</svg>" = w ++ [ch ">"])
      by (unfold w; rewrite <- app_assoc; reflexivity).
    assert (Lw : 4 <= length w)
      by (unfold w; rewrite length_app; cbn [length str]; simpl; lia).
    assert (Fo : firstn 4 w = o).
    { assert (X : firstn 4 T = firstn 4 w).
      { rewrite T2. change (str "</svg>" ++ post2)
          with (str "</svg" ++ ch ">" :: post2).
        rewrite app_assoc. fold w. rewrite firstn_app.
        replace (4 - length w) with 0 by lia. rewrite firstn_O, app_nil_r.
        reflexivity. }
      rewrite <- X, T1, <- Lo, firstn_app, firstn_all, Nat.sub_diag, firstn_O.
      apply app_nil_r. }
    exists [], o, (skipn 4 w), []. split; [|split; [reflexivity|exact Ho]].
    rewrite Ew, <- (firstn_skipn 4 w) at 1. rewrite Fo, <- app_assoc.
    reflexivity. }
  rewrite S0.
  (* the closing tag is the one that ends the snippet *)
  assert (I0 : indexOfFrom (str "</svg>") (u ++ str "</svg>") 0
               = Some (length u)).
  { apply indexOfFrom_Some; [lia|]. split; [lia|]. split.
    - exists u, []. rewrite app_nil_r. auto.
    - intros j _ Hj Oj. apply (F (start + j)); [lia|lia|].
      apply (occursAt_skipn _ _ _ _ Ls). fold T. rewrite T2, app_assoc.
      apply occursAt_prefix. exact Oj. }
  rewrite I0. f_equal. unfold slice. cbn [skipn]. rewrite Nat.sub_0_r.
  replace (length u + 6) with (length (u ++ str "</svg>"))
    by (rewrite length_app; reflexivity).
  apply firstn_all.
Qed.

Lemma extractSvgMarkup_idempotent_witness :
  extractSvgMarkup (str "<svg width='1'></svg>")
  = Some (str "<svg width='1'></svg>").
Proof.
  apply (extractSvgMarkup_idempotent
           (str "<html><svg width='1'></svg></html>")).
  vm_compute. reflexivity.
Defined.

(** ** The size of a page *)

Lemma m_WordBoundary x k :
  m WordBoundary x k =
  if xorb (isWordAt (hd_error (seen x))) (isWordAt (hd_error (rest x)))
  then k x else None.
Proof. reflexivity. Qed.

Lemma exec_skip_class r (q : char -> bool) :
  (forall c, q c = true -> forall sn s, matchAt r sn (c :: s) = None) ->
  forall pre sn t,
    forallb q pre = true ->
    exec r sn (pre ++ t) =
    match exec r (rev pre ++ sn) t with
    | Some (sk, y) => Some (pre ++ sk, y)
    | None => None
    end.
Proof.
  intros H. induction pre as [|c pre IH]; intros sn t F.
  - cbn [app rev]. destruct (exec r sn t) as [[sk y]|]; reflexivity.
  - cbn [forallb] in F. apply andb_true_iff in F. destruct F as [Fc F].
    cbn [app exec]. rewrite (H c Fc), (IH (c :: sn) t F).
    cbn [rev]. rewrite <- app_assoc. cbn [app].
    destruct (exec r (rev pre ++ c :: sn) t) as [[sk y]|]; reflexivity.
Qed.

(** Where the attribute stands behind a character that is no word
    character, the pattern reads it with its number and no unit. *)
Lemma matchAt_reSize attr sn v tl :
  attr = "width"%string \/ attr = "height"%string ->
  isWordAt (hd_error sn) = false ->
  isDigits v ->
  matchAt (reSize attr) sn (str attr ++ ch "=" :: dq :: v ++ dq :: tl)
  = Some (MState tl (dq :: rev v ++ dq :: ch "=" :: rev (str attr) ++ sn)
                 [v; []]).
Proof.
  intros Ha Hs [Hv Fv]. destruct v as [|d v]; [congruence|].
  cbn [forallb] in Fv. apply andb_true_iff in Fv. destruct Fv as [Fd Fv].
  assert (Dd : isDigitOrDot d = true) by (unfold isDigitOrDot; rewrite Fd; reflexivity).
  assert (Dv : forallb isDigitOrDot v = true).
  { apply (forallb_impl isDigit); [|exact Fv].
    intros a A. unfold isDigitOrDot. rewrite A. reflexivity. }
  unfold matchAt, reSize, Plus. cbn [seqs].
  rewrite m_Seq, m_WordBoundary. cbn [seen rest]. rewrite Hs.
  replace (isWordAt (hd_error (str attr ++ ch "=" :: dq :: (d :: v) ++ dq :: tl)))
    with true by (destruct Ha as [-> | ->]; reflexivity).
  cbn [xorb]. rewrite m_Seq, litCI_classes.
  rewrite m_word;
    [|destruct Ha as [-> | ->]; reflexivity
     |destruct Ha as [-> | ->]; reflexivity].
  rewrite m_Seq. unfold one at 1. rewrite m_Class, N.eqb_refl.
  rewrite m_Seq. unfold one at 1. rewrite m_Class, N.eqb_refl.
  rewrite m_Seq, m_Group, m_Seq. cbn [app]. rewrite m_Class, Dd.
  apply m_star_greedy.
  rewrite (dropWhile_stop isDigitOrDot v dq tl Dv eq_refl).
  rewrite (takeWhile_stop isDigitOrDot v dq tl Dv eq_refl).
  cbv beta. cbn [rest seen caps]. rewrite m_Seq, m_Group.
  apply m_star_greedy. cbn [dropWhile takeWhile isWord isDigit isUpper isLower
                            dq N.leb N.eqb andb orb rev app].
  change (isWord dq) with false. cbv iota. cbn [rest seen caps rev app].
  unfold one. rewrite m_Class, N.eqb_refl. cbn [rest seen caps app].
  f_equal. f_equal.
  - cbn [rev]. rewrite <- !app_assoc. reflexivity.
  - f_equal.
    + change (rev v ++ d :: dq :: ch "=" :: rev (str attr) ++ sn)
        with (rev v ++ [d] ++ (dq :: ch "=" :: rev (str attr) ++ sn)).
      rewrite app_assoc. change (rev v ++ [d]) with (rev (d :: v)).
      apply consumed_over.
    + f_equal. unfold consumed. cbn [seen]. rewrite Nat.sub_diag. reflexivity.
Qed.

Lemma reSize_needs attr c sn s :
  attr = "width"%string \/ attr = "height"%string ->
  (canonicalize c =? canonicalize (hd 0%N (str attr)))%N = false ->
  matchAt (reSize attr) sn (c :: s) = None.
Proof.
  intros Ha Hc. unfold matchAt, reSize. cbn [seqs].
  rewrite m_Seq, m_WordBoundary.
  destruct (xorb _ _); [|reflexivity].
  destruct Ha as [-> | ->]; unfold litCI; cbn [str list_ascii_of_string map seqs];
    rewrite !m_Seq; unfold oneCI at 1; rewrite m_Class;
    cbn [hd str list_ascii_of_string map] in Hc; rewrite Hc; reflexivity.
Qed.

Lemma digit_not_letter c t :
  (isDigit c = true \/ c = dq \/ c = ch " ") -> (65 <= t <= 90)%N ->
  (canonicalize c =? t)%N = false.
Proof.
  intros H Ht. apply N.eqb_neq. unfold canonicalize.
  destruct (isLower c) eqn:L.
  - apply isLower_range in L. destruct H as [H|[-> | ->]].
    + unfold isDigit in H. apply andb_true_iff in H. rewrite !N.leb_le in H. lia.
    + unfold dq in L. lia.
    + change (ch " ") with 32%N in L. lia.
  - destruct H as [H|[-> | ->]].
    + unfold isDigit in H. apply andb_true_iff in H. rewrite !N.leb_le in H. lia.
    + unfold dq. lia.
    + change (ch " ") with 32%N. lia.
Qed.

(** The page built around an image has the size given by its two
    attributes, read without a unit. *)
Lemma getSvgSize_wrapImage uri w h :
  isDigits w -> isDigits h ->
  getSvgSize (wrapImage uri w h)
  = Some (toPt (parseFloat w) [], toPt (parseFloat h) []).
Proof.
  intros Hw Hh. unfold getSvgSize.
  set (tl := str "><image href=" ++ quoted uri
             ++ str " width=" ++ quoted w ++ str " height=" ++ quoted h
             ++ str "/></svg>").
  set (th := str "height" ++ ch "=" :: dq :: h ++ dq :: tl).
  set (tw := str "width" ++ ch "=" :: dq :: w ++ dq :: ch " " :: th).
  assert (E : wrapImage uri w h
              = (str "<svg xmlns=" ++ quoted svgNamespace ++ str " ") ++ tw).
  { unfold wrapImage, tw, th, tl, quoted. cbn [app str list_ascii_of_string map].
    repeat (rewrite <- ?app_assoc; cbn [app]). reflexivity. }
  (* the width *)
  assert (W : exists f, firstMatch (reSize "width") (wrapImage uri w h) = Some f
                        /\ groups f = [w; []]).
  { unfold firstMatch. rewrite E.
    assert (P : forall t,
              exec (reSize "width") []
                   ((str "<svg xmlns=" ++ quoted svgNamespace ++ str " ") ++ t)
              = match exec (reSize "width")
                        (rev (str "<svg xmlns=" ++ quoted svgNamespace ++ str " "))
                        t with
                | Some (sk, y) =>
                    Some ((str "<svg xmlns=" ++ quoted svgNamespace ++ str " ")
                          ++ sk, y)
                | None => None
                end).
    { intros t. cbn. destruct (exec _ _ t) as [[sk y]|]; reflexivity. }
    rewrite P. unfold tw at 1.
    rewrite (exec_here _ _ _ _
               (matchAt_reSize "width"
                  (rev (str "<svg xmlns=" ++ quoted svgNamespace ++ str " "))
                  w (ch " " :: th) (or_introl eq_refl) eq_refl Hw)).
    eexists. split; reflexivity. }
  (* the height *)
  set (pre := str "<svg xmlns=" ++ quoted svgNamespace ++ str " width=" ++ [dq]).
  assert (E' : wrapImage uri w h = pre ++ (w ++ [dq; ch " "]) ++ th).
  { rewrite E. unfold pre, tw, quoted. cbn [app str list_ascii_of_string map].
    repeat (rewrite <- ?app_assoc; cbn [app]). reflexivity. }
  assert (H : exists f, firstMatch (reSize "height") (wrapImage uri w h) = Some f
                        /\ groups f = [h; []]).
  { unfold firstMatch. rewrite E'.
    assert (P : forall t,
              exec (reSize "height") [] (pre ++ t)
              = match exec (reSize "height") (rev pre) t with
                | Some (sk, y) => Some (pre ++ sk, y)
                | None => None
                end).
    { intros t. unfold pre. cbn. destruct (exec _ _ t) as [[sk y]|]; reflexivity. }
    rewrite P.
    rewrite (exec_skip_class (reSize "height")
               (fun c => negb (canonicalize c =? 72)%N)).
    - unfold th at 1.
      rewrite (exec_here _ _ _ _
                 (matchAt_reSize "height" (rev (w ++ [dq; ch " "]) ++ rev pre)
                    h tl (or_intror eq_refl)
                    ltac:(rewrite rev_app_distr; reflexivity) Hh)).
      eexists. split; reflexivity.
    - intros c Hc sn s. apply (reSize_needs "height"); [right; reflexivity|].
      apply negb_true_iff in Hc. exact Hc.
    - destruct Hw as [_ Fw]. rewrite forallb_app. apply andb_true_iff. split.
      + apply (forallb_impl isDigit); [|exact Fw]. intros a A.
        apply negb_true_iff, digit_not_letter; [left; exact A|lia].
      + reflexivity. }
  destruct W as [fw [W Gw]]. destruct H as [fh [H Gh]].
  rewrite W, H. unfold group. rewrite Gw, Gh. reflexivity.
Qed.

Lemma matchAt_reDim sn t y :
  matchAt reDim sn t = Some y ->
  exists w h, caps y = [w; h] /\ isDigits w /\ isDigits h.
Proof.
  rewrite matchAt_reach. intros H.
  assert (I : In y (reach reDim (MState t sn []))).
  { destruct (reach reDim (MState t sn [])); [discriminate|].
    injection H as ->. left; reflexivity. }
  clear H. unfold reDim, spaces in I. cbn [seqs] in I.
  apply In_reach_Seq in I. destruct I as [x1 [H1 I]].
  apply In_reach_Seq in I. destruct I as [x2 [H2 I]].
  apply In_reach_Seq in I. destruct I as [x3 [H3 I]].
  apply In_reach_Seq in I. destruct I as [x4 [H4 I]].
  apply In_reach_Seq in I. destruct I as [x5 [H5 I]].
  apply In_reach_Seq in I. destruct I as [x6 [H6 H7]].
  apply In_reach_Class in H1. destruct H1 as [c1 [_ [_ C1]]].
  apply In_reach_group_plus in H2. destruct H2 as [w [Hw [_ [Fw C2]]]].
  apply In_reach_star_class in H3. destruct H3 as [s3 [_ [_ C3]]].
  apply In_reach_Class in H4. destruct H4 as [c4 [_ [_ C4]]].
  apply In_reach_star_class in H5. destruct H5 as [s5 [_ [_ C5]]].
  apply In_reach_group_plus in H6. destruct H6 as [h [Hh [_ [Fh C6]]]].
  apply In_reach_Class in H7. destruct H7 as [c7 [_ [_ C7]]].
  cbn [caps] in *. exists w, h. split; [|split; split; assumption].
  rewrite C7, C6, C5, C4, C3, C2, C1. reflexivity.
Qed.

Lemma firstMatch_reDim raw f :
  firstMatch reDim raw = Some f ->
  isDigits (group 0 f) /\ isDigits (group 1 f).
Proof.
  intros H. apply firstMatch_Some in H. destruct H as [y [E [_ [_ [G _]]]]].
  apply exec_Some in E. destruct E as [t [_ [M _]]].
  apply matchAt_reDim in M. destruct M as [w [h [C [Hw Hh]]]].
  unfold group. rewrite G, C. split; assumption.
Qed.

Section RecoverProperties.

Variable URL_href : jsstring -> jsstring -> option jsstring.
Variable extname : jsstring -> jsstring.
Variable fetch : request -> fetched.

(** X16: what the recovery of [saveSvg] makes of an HTML page around an
    image: either nothing (the markup stays as it was), or a page that
    embeds the image as a data locator and whose size, as
    [getSvgSize] reads it back for the PDF, is the pixel size named in
    the HTML, converted at 96 dpi; without a size in the HTML the page
    is 816 by 1056 pixels, which is 612 by 792 points. *)
Theorem recoverImage_page (ctx : list cookieT) (abs raw : jsstring)
    (svg page : option jsstring) :
  recoverImage URL_href extname fetch ctx abs raw svg = Some page ->
  page = svg \/
  exists mime bytes w h,
    page = Some (wrapImage (dataUri mime bytes) w h) /\
    startsWith (str "image/") mime = true /\
    isDigits w /\ isDigits h /\
    getSvgSize (wrapImage (dataUri mime bytes) w h)
    = Some (toPt (parseFloat w) [], toPt (parseFloat h) []) /\
    (firstMatch reDim raw = None ->
     getSvgSize (wrapImage (dataUri mime bytes) w h)
     = Some (ofNat 612, ofNat 792)).
Proof.
  unfold recoverImage.
  destruct (firstMatch reImg raw) as [imgMatch|];
    [|intros H; injection H as <-; left; reflexivity].
  destruct (URL_href (group 0 imgMatch) abs) as [imgAbs|]; [|discriminate].
  destruct (fetch (imgRequest extname ctx abs imgAbs)) as [|imgRes];
    [intros H; injection H as <-; left; reflexivity|].
  destruct (ok imgRes); [|intros H; injection H as <-; left; reflexivity].
  destruct (startsWith (str "image/") (mimeOf imgRes)) eqn:Hm;
    [|intros H; injection H as <-; left; reflexivity].
  intros H. right. exists (mimeOf imgRes), (body imgRes).
  destruct (firstMatch reDim raw) as [dimMatch|] eqn:D.
  - apply firstMatch_reDim in D. destruct D as [Dw Dh].
    exists (group 0 dimMatch), (group 1 dimMatch).
    injection H as <-. split; [reflexivity|]. split; [exact Hm|].
    split; [exact Dw|]. split; [exact Dh|]. split; [|discriminate].
    apply getSvgSize_wrapImage; assumption.
  - exists (str "816"), (str "1056"). injection H as <-.
    assert (Dw : isDigits (str "816")) by (split; [discriminate|reflexivity]).
    assert (Dh : isDigits (str "1056")) by (split; [discriminate|reflexivity]).
    split; [reflexivity|]. split; [exact Hm|].
    split; [exact Dw|]. split; [exact Dh|].
    rewrite (getSvgSize_wrapImage _ _ _ Dw Dh).
    split; [reflexivity|]. intros _. vm_compute. reflexivity.
Qed.

End RecoverProperties.

Lemma recoverImage_page_witness :
  Some (wrapImage (dataUri (str "image/jpeg") [255; 216; 255]%N)
          (str "709") (str "63")) = None \/
  exists mime bytes w h,
    Some (wrapImage (dataUri (str "image/jpeg") [255; 216; 255]%N)
            (str "709") (str "63"))
    = Some (wrapImage (dataUri mime bytes) w h) /\
    startsWith (str "image/") mime = true /\
    isDigits w /\ isDigits h /\
    getSvgSize (wrapImage (dataUri mime bytes) w h)
    = Some (toPt (parseFloat w) [], toPt (parseFloat h) []) /\
    (firstMatch reDim
       (str "<html><title>2.jpg (709x63)</title><img src='2.jpg'></html>")
     = None ->
     getSvgSize (wrapImage (dataUri mime bytes) w h)
     = Some (ofNat 612, ofNat 792)).
Proof.
  apply (recoverImage_page exampleURL exampleExtname exampleWrapper []
           exampleOrigin
           (str "<html><title>2.jpg (709x63)</title><img src='2.jpg'></html>")
           None).
  vm_compute. reflexivity.
Defined.

(** ** Markup that is left alone *)

Lemma test_false_exec r s : test r s = false -> exec r [] s = None.
Proof.
  unfold test, firstMatch. destruct (exec r [] s) as [[sk y]|];
    [discriminate|reflexivity].
Qed.

Lemma matchAt_None_reach r sn s :
  matchAt r sn s = None <-> reach r (MState s sn []) = [].
Proof.
  rewrite matchAt_reach. destruct (reach r (MState s sn [])); simpl;
    split; congruence.
Qed.

(** A pattern cannot match where its beginning does not. *)
Lemma exec_Seq_none r r2 sn s :
  exec r sn s = None -> exec (Seq r r2) sn s = None.
Proof.
  rewrite !exec_None. intros H s1 s2 E. specialize (H s1 s2 E).
  apply matchAt_None_reach in H. apply matchAt_None_reach.
  rewrite reach_Seq, H. reflexivity.
Qed.

Lemma flat_map_assoc {A B C} (f : A -> list B) (g : B -> list C) l :
  flat_map g (flat_map f l) = flat_map (fun a => flat_map g (f a)) l.
Proof.
  induction l as [|a l IH]; simpl; [reflexivity|].
  rewrite flat_map_app, IH. reflexivity.
Qed.

Lemma reach_Seq_assoc a b c x :
  reach (Seq a (Seq b c)) x = reach (Seq (Seq a b) c) x.
Proof.
  rewrite (reach_Seq (Seq a b) c), (reach_Seq a b), flat_map_assoc.
  reflexivity.
Qed.

Lemma exec_Seq_assoc a b c sn s :
  exec (Seq (Seq a b) c) sn s = None -> exec (Seq a (Seq b c)) sn s = None.
Proof.
  rewrite !exec_None. intros H s1 s2 E. specialize (H s1 s2 E).
  apply matchAt_None_reach in H. apply matchAt_None_reach.
  rewrite reach_Seq_assoc. exact H.
Qed.

Lemma equalsCI_app_inv o p q :
  equalsCI o (p ++ q) ->
  exists o1 o2, o = o1 ++ o2 /\ equalsCI o1 p /\ equalsCI o2 q.
Proof.
  unfold equalsCI. rewrite map_app. intros H. apply map_eq_app in H.
  destruct H as [o1 [o2 [E [H1 H2]]]]. exists o1, o2. auto.
Qed.

Lemma reach_litCI_here s x :
  (exists o post, rest x = o ++ post /\ equalsCI o (str s)) ->
  reach (litCI s) x <> [].
Proof.
  intros H. rewrite litCI_classes, reach_classes.
  apply readLit_CI in H. rewrite H. discriminate.
Qed.

(** Without the name of the attribute, in whatever letter case, none of
    the two patterns of [fixDashArrays] matches. *)
Lemma no_dasharray svg :
  test (litCI "stroke-dasharray") svg = false ->
  exec reDashAttr [] svg = None /\ exec reDashStyle [] svg = None.
Proof.
  intros T. apply test_false_exec in T. split.
  - rewrite exec_None in *. intros s1 s2 E. specialize (T s1 s2 E).
    apply matchAt_None_reach in T. apply matchAt_None_reach.
    unfold reDashAttr. cbn [seqs]. rewrite reach_Seq.
    destruct (reach (litCI "stroke-dasharray=") (MState s2 (rev s1 ++ []) []))
      as [|y l] eqn:R; [reflexivity|]. exfalso.
    assert (I : In y (reach (litCI "stroke-dasharray=")
                        (MState s2 (rev s1 ++ []) [])))
      by (rewrite R; left; reflexivity).
    apply In_reach_litCI in I. destruct I as [o [E1 [Ho _]]]. cbn [rest] in E1.
    change (str "stroke-dasharray=") with (str "stroke-dasharray" ++ str "=") in Ho.
    apply equalsCI_app_inv in Ho. destruct Ho as [o1 [o2 [-> [H1 _]]]].
    apply (reach_litCI_here "stroke-dasharray" (MState s2 (rev s1 ++ []) []));
      [|exact T].
    exists o1, (o2 ++ rest y). split; [|exact H1].
    cbn [rest]. rewrite E1, <- app_assoc. reflexivity.
  - unfold reDashStyle. cbn [seqs]. apply exec_Seq_none. exact T.
Qed.

(** X17: [fixDashArrays] leaves markup alone that does not name the
    attribute, in whatever letter case. *)
Theorem fixDashArrays_frame (svg : jsstring) :
  test (litCI "stroke-dasharray") svg = false ->
  fixDashArrays svg = svg.
Proof.
  intros T. destruct (no_dasharray svg T) as [A S].
  unfold fixDashArrays. rewrite (replaceAll_none reDashAttr _ svg A).
  apply replaceAll_none. exact S.
Qed.

(** X18: [sanitizeSvg] leaves markup alone that holds no comment opener, no
    doctype, no opener of one of the unwanted tags (each in whatever
    letter case the pattern accepts) and that declares the SVG
    namespace. *)
Theorem sanitizeSvg_frame (svg : jsstring) :
  test (lit "<!--") svg = false ->
  test (litCI "<!DOCTYPE") svg = false ->
  test (Seq (one (ch "<")) unwantedName) svg = false ->
  test reXmlns svg = true ->
  sanitizeSvg svg = svg.
Proof.
  intros C D U X. apply test_false_exec in C, D, U.
  unfold sanitizeSvg, stripComments, stripDoctype, stripUnwanted.
  assert (E1 : replaceAll reComment (fun _ => []) svg = svg).
  { apply replaceAll_none. unfold reComment. cbn [seqs].
    apply exec_Seq_none. exact C. }
  rewrite E1.
  assert (E2 : replaceAll reDoctype (fun _ => []) svg = svg).
  { apply replaceAll_none. unfold reDoctype. cbn [seqs].
    apply exec_Seq_none. exact D. }
  rewrite E2.
  assert (E3 : replaceAll unwantedBlock (fun _ => []) svg = svg).
  { apply replaceAll_none. unfold unwantedBlock. cbn [seqs].
    apply exec_Seq_assoc, exec_Seq_none. exact U. }
  rewrite E3.
  assert (E4 : replaceAll unwantedSingle (fun _ => []) svg = svg).
  { apply replaceAll_none. unfold unwantedSingle. cbn [seqs].
    apply exec_Seq_assoc, exec_Seq_none. exact U. }
  rewrite E4. unfold ensureNamespace. rewrite X. reflexivity.
Qed.

Lemma fixDashArrays_frame_witness :
  fixDashArrays exampleCleanPage = exampleCleanPage.
Proof. apply fixDashArrays_frame. vm_compute. reflexivity. Defined.

Lemma sanitizeSvg_frame_witness :
  sanitizeSvg exampleCleanPage = exampleCleanPage.
Proof. apply sanitizeSvg_frame; vm_compute; reflexivity. Defined.

(** ** The pages of the raster assembly *)

Section RasterProperties.

Variable localeCompare : jsstring -> jsstring -> Z.
Variable path_join : jsstring -> jsstring -> jsstring.
Variable basename : jsstring -> jsstring.
Variable readdir : jsstring -> option (list jsstring).
Variable readFile : jsstring -> option jsstring.
Variable sharp : jsstring -> option (list N * float * float).


End RasterProperties.

